(** * Chonkywalls: the grid packing of [Chaos.py] and [zen3.py]

    A shallow embedding of the two layout functions
    [create_chunk_grid_layout] (Chaos.py, "Mode A") and
    [create_freeflow_layout] (zen3.py, "Mode B"), and the properties of
    the occupancy grid, the placement policies, the pixel geometry and the
    image fitting that the specification states about them; then of
    [get_screen_resolution], which both files have, and further properties
    of the three functions.

    Python integers are [Z]; Python floats are IEEE binary64 values, taken
    from the software model of [SpecFloat]; Python lists are Rocq lists
    read and updated by index; an exception is a value of [result]. *)

From Stdlib Require Import ZArith Lia List Bool SpecFloat.
From Stdlib Require Ascii String.
From stdpp Require Import base list numbers gmap.
Import ListNotations.
Local Open Scope Z_scope.

(** ** Exceptions *)

Inductive pyexn : Type :=
| IndexError
| ZeroDivisionError
| OverflowError
| ValueError.

Inductive result (A : Type) : Type :=
| Ok (a : A)
| Raise (e : pyexn).
Arguments Ok {A} a.
Arguments Raise {A} e.

Definition rbind {A B : Type} (m : result A) (k : A → result B) : result B :=
  match m with
  | Ok a => k a
  | Raise e => Raise e
  end.

Notation "'let!' x ':=' m 'in' k" := (rbind m (fun x => k))
  (at level 10, x name, m at level 100, k at level 200).

(** ** Python sequences *)

(** [range(a, b)]. *)
Definition range (a b : Z) : list Z := seqZ a (b - a).

(** [l[i]] for a read.  Python raises [IndexError] past the end.  A negative
    index would wrap around in Python; here it is reported as a fault too,
    so that a computation that does not fault has only used indices of
    [0 .. len(l) - 1]. *)
Definition getitem {A : Type} (l : list A) (i : Z) : result A :=
  if decide (0 ≤ i) then
    match l !! Z.to_nat i with
    | Some a => Ok a
    | None => Raise IndexError
    end
  else Raise IndexError.

(** [l[i] = v]. *)
Definition setitem {A : Type} (l : list A) (i : Z) (v : A) : result (list A) :=
  if decide (0 ≤ i) then
    if decide (Z.to_nat i < length l)%nat then Ok (<[Z.to_nat i := v]> l)
    else Raise IndexError
  else Raise IndexError.

(** ** The occupancy grid, [fits] and [occupy]

    The two scripts define the grid and its two helpers with the same text;
    they differ in the constants [GRID_ROWS] and [GRID_COLS] only. *)

Abbreviation grid := (list (list bool)).

(** [grid[r][c]]. *)
Definition grid_get (g : grid) (r c : Z) : result bool :=
  let! row := getitem g r in getitem row c.

(** [grid[r][c] = v].  Every row of the grid is a list object of its own
    (the comprehension builds one per row), so updating a row changes no
    other row. *)
Definition grid_set (g : grid) (r c : Z) (v : bool) : result grid :=
  let! row := getitem g r in
  let! row' := setitem row c v in
  setitem g r row'.

Section GridOps.

Variables GRID_ROWS GRID_COLS : Z.

(** [[[False for _ in range(GRID_COLS)] for _ in range(GRID_ROWS)]] *)
Definition new_grid : grid :=
  (λ _, (λ _, false) <$> range 0 GRID_COLS) <$> range 0 GRID_ROWS.

(** The inner loop of [fits]: [Ok false] is its [return False], [Ok true]
    means that the loop ran to its end. *)
Fixpoint fits_cols (g : grid) (r : Z) (cs : list Z) : result bool :=
  match cs with
  | [] => Ok true
  | c :: cs' =>
      let! b := grid_get g r c in
      if b : bool then Ok false else fits_cols g r cs'
  end.

Fixpoint fits_rows (g : grid) (rs cs : list Z) : result bool :=
  match rs with
  | [] => Ok true
  | r :: rs' =>
      let! free := fits_cols g r cs in
      if free : bool then fits_rows g rs' cs else Ok false
  end.

Definition fits (g : grid) (chunk_w chunk_h row col : Z) : result bool :=
  if (row + chunk_h >? GRID_ROWS) || (col + chunk_w >? GRID_COLS) then Ok false
  else fits_rows g (range row (row + chunk_h)) (range col (col + chunk_w)).

Fixpoint occupy_cols (g : grid) (r : Z) (cs : list Z) : result grid :=
  match cs with
  | [] => Ok g
  | c :: cs' => let! g' := grid_set g r c true in occupy_cols g' r cs'
  end.

Fixpoint occupy_rows (g : grid) (rs cs : list Z) : result grid :=
  match rs with
  | [] => Ok g
  | r :: rs' => let! g' := occupy_cols g r cs in occupy_rows g' rs' cs
  end.

Definition occupy (g : grid) (chunk_w chunk_h row col : Z) : result grid :=
  occupy_rows g (range row (row + chunk_h)) (range col (col + chunk_w)).

(** The row-major scan for the first anchor at which the chunk fits: the
    two [for] loops over [range(GRID_ROWS)] and [range(GRID_COLS)] of
    Chaos.py, left at the first [fits] that holds.  The loops with their
    body are [Chaos.cols_loop] and [Chaos.rows_loop] below; they are shown
    to run the body at the anchor this scan returns. *)
Fixpoint first_fit_cols (g : grid) (chunk_w chunk_h row : Z) (cols : list Z)
  : result (option (Z * Z)) :=
  match cols with
  | [] => Ok None
  | col :: cols' =>
      let! b := fits g chunk_w chunk_h row col in
      if b : bool then Ok (Some (row, col))
      else first_fit_cols g chunk_w chunk_h row cols'
  end.

Fixpoint first_fit_rows (g : grid) (chunk_w chunk_h : Z) (rows cols : list Z)
  : result (option (Z * Z)) :=
  match rows with
  | [] => Ok None
  | row :: rows' =>
      let! found := first_fit_cols g chunk_w chunk_h row cols in
      match found with
      | Some pos => Ok (Some pos)
      | None => first_fit_rows g chunk_w chunk_h rows' cols
      end
  end.

Definition first_fit (g : grid) (chunk_w chunk_h : Z) : result (option (Z * Z)) :=
  first_fit_rows g chunk_w chunk_h (range 0 GRID_ROWS) (range 0 GRID_COLS).

(** A grid of [GRID_ROWS] rows of [GRID_COLS] cells. *)
Definition grid_wf (g : grid) : Prop :=
  length g = Z.to_nat GRID_ROWS ∧
  Forall (λ row : list bool, length row = Z.to_nat GRID_COLS) g.

Definition in_grid (r c : Z) : Prop :=
  0 ≤ r < GRID_ROWS ∧ 0 ≤ c < GRID_COLS.

End GridOps.

(** The cell [(r, c)] lies in the rectangle of [chunk_w] by [chunk_h] cells
    anchored at [(row, col)]. *)
Definition in_rect (row col chunk_w chunk_h r c : Z) : bool :=
  (row <=? r) && (r <? row + chunk_h) && (col <=? c) && (c <? col + chunk_w).

(** ** Floats

    A Python float is an IEEE binary64 number: 53 bits of precision,
    round to nearest even. *)

Definition prec : Z := 53.
Definition emax : Z := 1024.

Abbreviation float := spec_float.

(** [float(z)], the conversion applied to an integer operand of a float
    operation; it raises for an integer beyond the largest float. *)
Definition py_float (z : Z) : result float :=
  match binary_normalize prec emax z 0 false with
  | S754_infinity _ | S754_nan => Raise OverflowError
  | f => Ok f
  end.

Definition float_is_zero (f : float) : bool :=
  match f with
  | S754_zero _ => true
  | _ => false
  end.

(** [a / b] on floats: Python raises on a zero divisor. *)
Definition float_truediv (a b : float) : result float :=
  if float_is_zero b then Raise ZeroDivisionError
  else Ok (SFdiv prec emax a b).

(** An integer as the operand of an exact operation: the significand is
    the integer itself, however long. *)
Definition exact_int (z : Z) : float :=
  match z with
  | Z0 => S754_zero false
  | Zpos p => S754_finite false p 0
  | Zneg p => S754_finite true p 0
  end.

(** [a / b] on integers: Python rounds the exact quotient of the two
    integers once, and raises when the divisor is zero or the quotient is
    beyond the largest float. *)
Definition int_truediv (a b : Z) : result float :=
  if b =? 0 then Raise ZeroDivisionError
  else
    match SFdiv prec emax (exact_int a) (exact_int b) with
    | S754_infinity _ | S754_nan => Raise OverflowError
    | f => Ok f
    end.

(** [n * f] and [n / f] and [n - f] for an integer [n] and a float [f]. *)
Definition int_mul_float (n : Z) (f : float) : result float :=
  let! fn := py_float n in Ok (SFmul prec emax fn f).

Definition int_div_float (n : Z) (f : float) : result float :=
  let! fn := py_float n in float_truediv fn f.

Definition int_sub_float (n : Z) (f : float) : result float :=
  let! fn := py_float n in Ok (SFsub prec emax fn f).

(** [a > b] on floats. *)
Definition float_gt (a b : float) : bool := SFltb b a.

(** [int(f)]: truncation toward zero. *)
Definition py_int (f : float) : result Z :=
  match f with
  | S754_zero _ => Ok 0
  | S754_finite s m e =>
      let a := if 0 <=? e then Z.shiftl (Z.pos m) e else Z.shiftr (Z.pos m) (- e) in
      Ok (if s then - a else a)
  | S754_infinity _ => Raise OverflowError
  | S754_nan => Raise ValueError
  end.

(** The literals [0.1] and [0.05]: the binary64 numbers nearest to them,
    [0x1.999999999999ap-4] and [0x1.999999999999ap-5]. *)
Definition float_0_1 : float := S754_finite false 7205759403792794 (-56).
Definition float_0_05 : float := S754_finite false 7205759403792794 (-57).

(** ** Images, the canvas and the caller's lists *)

(** A decoded image; only its size matters to the layout. *)
Record image : Type := Image { width : Z; height : Z }.

(** One composited image.  The fields [p_new_width] to [p_offset_y] are the
    arguments of the calls [img.resize((new_width, new_height))],
    [resized.crop(box)] (when there is one) and
    [canvas.paste(resized, (offset_x, offset_y))]; the other fields record
    which image of the queue it is, the cells [occupy] was called on and the
    pixel rectangle [x, y, w, h] computed for them.  These three calls
    are recorded, not run: what Pillow does with their arguments
    (resampling, clipping at the edge of the canvas, refusing an empty
    size) is not part of the model. *)
Record paste : Type := Paste {
  p_index : Z;
  p_image : image;
  p_row : Z;
  p_col : Z;
  p_chunk_w : Z;
  p_chunk_h : Z;
  p_x : Z;
  p_y : Z;
  p_w : Z;
  p_h : Z;
  p_new_width : Z;
  p_new_height : Z;
  p_crop : option (Z * Z * Z * Z);
  p_offset_x : Z;
  p_offset_y : Z
}.

(** The canvas, as the pastes made on the background, oldest first. *)
Abbreviation canvas := (list paste).

(** The size of the region a paste writes: that of the crop box when the
    resized image was cropped, that of the resized image otherwise. *)
Definition pasted_width (p : paste) : Z :=
  match p_crop p with
  | Some (x0, y0, x1, y1) => x1 - x0
  | None => p_new_width p
  end.

Definition pasted_height (p : paste) : Z :=
  match p_crop p with
  | Some (x0, y0, x1, y1) => y1 - y0
  | None => p_new_height p
  end.

(** [Image.new('RGB', (screen_width, screen_height), (15, 15, 20))], the
    call that makes the canvas: Pillow checks the size first and raises
    [ValueError] when a side is negative.  A size that is too large for
    Pillow to allocate is outside the model. *)
Definition image_new (screen_width screen_height : Z) : result unit :=
  if (screen_width <? 0) || (screen_height <? 0) then Raise ValueError else Ok tt.

(** Python lists are objects: the caller and the layout function share the
    list passed as [images].  The store maps the address of a list object
    to its contents. *)
Abbreviation loc := nat.
Abbreviation store := (gmap loc (list image)).

Definition contents (h : store) (l : loc) : list image := default [] (h !! l).

(** ** The random generator

    The generator is a tape of natural numbers and a cursor on it;
    [randbelow n] reads one number and reduces it below [n]. *)

Definition tape : Type := nat → nat.

Definition randbelow (t : tape) (cursor : nat) (n : nat) : nat := t cursor mod n.

(** [x[i], x[j] = x[j], x[i]] *)
Definition swap {A : Type} (l : list A) (i j : nat) : list A :=
  match l !! i, l !! j with
  | Some a, Some b => <[j := a]> (<[i := b]> l)
  | _, _ => l
  end.

(** [random.shuffle(x)]:
    [for i in reversed(range(1, len(x))): j = randbelow(i + 1); swap].
    The argument [n] counts the indices [i = n, n - 1, ..., 1] still to
    visit; the result is the list and the cursor after the draws. *)
Fixpoint shuffle_from {A : Type} (t : tape) (cursor : nat) (n : nat) (l : list A)
  : list A * nat :=
  match n with
  | O => (l, cursor)
  | S n' =>
      let j := randbelow t cursor (S n) in
      shuffle_from t (S cursor) n' (swap l n j)
  end.

Definition shuffle {A : Type} (t : tape) (cursor : nat) (l : list A) : list A * nat :=
  shuffle_from t cursor (Nat.pred (length l)) l.

(** [chunks * n] *)
Fixpoint repeat_list {A : Type} (l : list A) (n : nat) : list A :=
  match n with
  | O => []
  | S n' => l ++ repeat_list l n'
  end.

(** ** Mode A: [create_chunk_grid_layout] of Chaos.py *)

Module Chaos.

Definition GRID_ROWS : Z := 6.
Definition GRID_COLS : Z := 24.
Definition OUTER_PADDING : Z := 30.
Definition INNER_PADDING : Z := 12.
Definition CHUNKS : list (Z * Z) :=
  [(6, 3); (4, 3); (3, 2); (2, 3); (2, 2); (2, 1); (1, 2); (1, 1)].

(** The local variables of the function that its loop changes. *)
Record state : Type := State {
  grid_of : grid;
  image_idx : Z;
  canvas_of : canvas
}.

Definition cell_width (screen_width : Z) : Z :=
  (screen_width - 2 * OUTER_PADDING - (GRID_COLS - 1) * INNER_PADDING) / GRID_COLS.

Definition cell_height (screen_height : Z) : Z :=
  (screen_height - 2 * OUTER_PADDING - (GRID_ROWS - 1) * INNER_PADDING) / GRID_ROWS.

(** Lines 98 to 106: the size the image is resized to. *)
Definition scaled_size (img : image) (w h : Z) : result (Z * Z) :=
  let! aspect_img := int_truediv (width img) (height img) in
  let! aspect_chunk := int_truediv w h in
  if float_gt aspect_img aspect_chunk then
    let! f := int_mul_float h aspect_img in
    let! new_width := py_int f in
    Ok (new_width, h)
  else
    let! f := int_div_float w aspect_img in
    let! new_height := py_int f in
    Ok (w, new_height).

(** Lines 90 to 112: the body run at the anchor found. *)
Definition place (images : list image) (cell_width cell_height : Z) (s : state)
  (chunk_w chunk_h row col : Z) : result state :=
  let! img := getitem images (image_idx s) in
  let x := OUTER_PADDING + col * (cell_width + INNER_PADDING) in
  let y := OUTER_PADDING + row * (cell_height + INNER_PADDING) in
  let w := chunk_w * cell_width + (chunk_w - 1) * INNER_PADDING in
  let h := chunk_h * cell_height + (chunk_h - 1) * INNER_PADDING in
  let! size := scaled_size img w h in
  let '(new_width, new_height) := size in
  let offset_x := x + (w - new_width) / 2 in
  let offset_y := y + (h - new_height) / 2 in
  let p := Paste (image_idx s) img row col chunk_w chunk_h x y w h
             new_width new_height None offset_x offset_y in
  let! g := occupy (grid_of s) chunk_w chunk_h row col in
  Ok (State g (image_idx s + 1) (canvas_of s ++ [p])).

(** What the scan for one chunk ends with: no anchor fits ([placed] is
    still [False]), the image was placed ([placed = True] and [break]), or
    the function returned because no image is left. *)
Inductive scan : Type :=
| NotPlaced
| Placed (s : state)
| Returned.

(** [for col in range(GRID_COLS)] *)
Fixpoint cols_loop (images : list image) (cell_width cell_height : Z) (s : state)
  (chunk_w chunk_h row : Z) (cols : list Z) : result scan :=
  match cols with
  | [] => Ok NotPlaced
  | col :: cols' =>
      let! b := fits GRID_ROWS GRID_COLS (grid_of s) chunk_w chunk_h row col in
      if b : bool then
        if image_idx s >=? Z.of_nat (length images) then Ok Returned
        else
          let! s' := place images cell_width cell_height s chunk_w chunk_h row col in
          Ok (Placed s')
      else cols_loop images cell_width cell_height s chunk_w chunk_h row cols'
  end.

(** [for row in range(GRID_ROWS)], left by [if placed: break]. *)
Fixpoint rows_loop (images : list image) (cell_width cell_height : Z) (s : state)
  (chunk_w chunk_h : Z) (rows cols : list Z) : result scan :=
  match rows with
  | [] => Ok NotPlaced
  | row :: rows' =>
      let! r := cols_loop images cell_width cell_height s chunk_w chunk_h row cols in
      match r with
      | NotPlaced =>
          rows_loop images cell_width cell_height s chunk_w chunk_h rows' cols
      | _ => Ok r
      end
  end.

(** The scan for one entry of the chunk sequence. *)
Definition attempt (images : list image) (cell_width cell_height : Z) (s : state)
  (chunk : Z * Z) : result scan :=
  rows_loop images cell_width cell_height s chunk.1 chunk.2
    (range 0 GRID_ROWS) (range 0 GRID_COLS).

(** [for chunk_w, chunk_h in CHUNKS * 100], whose result is the state the
    canvas is returned in, by the [return] of the loop or by the one that
    follows it. *)
Fixpoint chunk_loop (images : list image) (cell_width cell_height : Z)
  (chunks : list (Z * Z)) (s : state) : result state :=
  match chunks with
  | [] => Ok s
  | chunk :: rest =>
      let! r := attempt images cell_width cell_height s chunk in
      match r with
      | NotPlaced => chunk_loop images cell_width cell_height rest s
      | Placed s' => chunk_loop images cell_width cell_height rest s'
      | Returned => Ok s
      end
  end.

Definition initial : state := State (new_grid GRID_ROWS GRID_COLS) 0 [].

(** The layout after [random.shuffle(images)], on a prefix or all of the
    chunk sequence. *)
Definition layout (images : list image) (screen_width screen_height : Z)
  (chunks : list (Z * Z)) : result state :=
  chunk_loop images (cell_width screen_width) (cell_height screen_height)
    chunks initial.

(** The function: its result ([None], the canvas or an exception) and the
    store it leaves.  [images] is the address of the caller's list.  The
    canvas is made (line 64) before the list is shuffled (line 66): when
    [Image.new] raises, the list is as it was. *)
Definition create_chunk_grid_layout (t : tape) (h : store) (images : loc)
  (screen_width screen_height : Z) : result (option canvas) * store :=
  match contents h images with
  | [] => (Ok None, h)
  | _ =>
      match image_new screen_width screen_height with
      | Raise e => (Raise e, h)
      | Ok _ =>
          let h' := <[images := (shuffle t 0 (contents h images)).1]> h in
          (let! s := layout (contents h' images) screen_width screen_height
                       (repeat_list CHUNKS 100) in
           Ok (Some (canvas_of s)), h')
      end
  end.

End Chaos.

(** ** Mode B: [create_freeflow_layout] of zen3.py

    The progress messages the function prints are left out. *)

Module Zen3.

Definition GRID_ROWS : Z := 8.
Definition GRID_COLS : Z := 28.
Definition OUTER_PADDING : Z := 20.
Definition INNER_PADDING : Z := 6.
Definition CHUNKS : list (Z * Z) :=
  [(4, 2); (3, 2); (2, 3); (3, 1); (2, 2); (1, 3);
   (2, 1); (1, 2); (1, 1); (4, 1); (1, 4); (3, 3)].
Definition CHUNK_WEIGHTS : list Z := [2; 3; 4; 3; 5; 3; 6; 6; 10; 2; 2; 1].

(** The local variables the loop changes, and the cursor of the random
    generator. *)
Record state : Type := State {
  grid_of : grid;
  image_idx : Z;
  placement_attempts : Z;
  canvas_of : canvas;
  cursor : nat
}.

Definition cell_width (screen_width : Z) : Z :=
  (screen_width - 2 * OUTER_PADDING - (GRID_COLS - 1) * INNER_PADDING) / GRID_COLS.

Definition cell_height (screen_height : Z) : Z :=
  (screen_height - 2 * OUTER_PADDING - (GRID_ROWS - 1) * INNER_PADDING) / GRID_ROWS.

(** The two loops of [find_best_position] that count the occupied cells
    around a candidate. *)
Fixpoint neighbors_cols (g : grid) (r : Z) (cs : list Z) (neighbors : Z) : result Z :=
  match cs with
  | [] => Ok neighbors
  | c :: cs' =>
      let! b := grid_get g r c in
      neighbors_cols g r cs' (if b : bool then neighbors + 1 else neighbors)
  end.

Fixpoint neighbors_rows (g : grid) (rs cs : list Z) (neighbors : Z) : result Z :=
  match rs with
  | [] => Ok neighbors
  | r :: rs' =>
      let! n := neighbors_cols g r cs neighbors in
      neighbors_rows g rs' cs n
  end.

Definition count_neighbors (g : grid) (chunk_w chunk_h row col : Z) : result Z :=
  neighbors_rows g
    (range (Z.max 0 (row - 1)) (Z.min GRID_ROWS (row + chunk_h + 1)))
    (range (Z.max 0 (col - 1)) (Z.min GRID_COLS (col + chunk_w + 1))) 0.

(** [neighbors - (row * 0.1) - (col * 0.05)] *)
Definition score_of (neighbors row col : Z) : result float :=
  let! a := int_mul_float row float_0_1 in
  let! b := int_mul_float col float_0_05 in
  let! d := int_sub_float neighbors a in
  Ok (SFsub prec emax d b).

(** An entry [(score, row, col)] of [positions]. *)
Abbreviation candidate := (float * Z * Z)%type.

Fixpoint positions_cols (g : grid) (chunk_w chunk_h row : Z) (cols : list Z)
  (positions : list candidate) : result (list candidate) :=
  match cols with
  | [] => Ok positions
  | col :: cols' =>
      let! b := fits GRID_ROWS GRID_COLS g chunk_w chunk_h row col in
      if b : bool then
        let! neighbors := count_neighbors g chunk_w chunk_h row col in
        let! score := score_of neighbors row col in
        positions_cols g chunk_w chunk_h row cols' (positions ++ [(score, row, col)])
      else positions_cols g chunk_w chunk_h row cols' positions
  end.

Fixpoint positions_rows (g : grid) (chunk_w chunk_h : Z) (rows cols : list Z)
  (positions : list candidate) : result (list candidate) :=
  match rows with
  | [] => Ok positions
  | row :: rows' =>
      let! ps := positions_cols g chunk_w chunk_h row cols positions in
      positions_rows g chunk_w chunk_h rows' cols ps
  end.

(** [a < b] on the tuples: the first components that differ decide. *)
Definition candidate_lt (a b : candidate) : bool :=
  let '(sa, ra, ca) := a in
  let '(sb, rb, cb) := b in
  if SFeqb sa sb then (if ra =? rb then ca <? cb else ra <? rb)
  else SFltb sa sb.

(** [positions.sort(reverse=True)].  The entries differ pairwise (in row or
    column), so the descending order of the list is unique and an insertion
    sort yields it. *)
Fixpoint insert_desc (x : candidate) (l : list candidate) : list candidate :=
  match l with
  | [] => [x]
  | y :: l' => if candidate_lt x y then y :: insert_desc x l' else x :: l
  end.

Definition sort_desc (l : list candidate) : list candidate :=
  foldr insert_desc [] l.

(** [find_best_position]: the position and the cursor after the draw of
    [random.choice], made only when a position exists. *)
Definition find_best_position (t : tape) (cur : nat) (g : grid) (chunk_w chunk_h : Z)
  : result (option (Z * Z) * nat) :=
  let! positions :=
    positions_rows g chunk_w chunk_h (range 0 GRID_ROWS) (range 0 GRID_COLS) [] in
  match positions with
  | [] => Ok (None, cur)
  | _ =>
      let sorted := sort_desc positions in
      let top_positions := take (Nat.min 5 (length sorted)) sorted in
      match top_positions with
      | [] => Ok (None, cur)
      | _ =>
          let! chosen :=
            getitem top_positions
              (Z.of_nat (randbelow t cur (length top_positions))) in
          Ok (Some (chosen.1.2, chosen.2), S cur)
      end
  end.

(** [random.choices(CHUNKS, weights=CHUNK_WEIGHTS, k=1)[0]]: the library
    accumulates the weights, draws [random() * total] and bisects the sums
    but the last for it.  The sums are integers, so the draw counts through
    its integer part [u] only. *)
Fixpoint accumulate (acc : Z) (weights : list Z) : list Z :=
  match weights with
  | [] => []
  | w :: ws => (acc + w) :: accumulate (acc + w) ws
  end.

Definition bisect (cum_weights : list Z) (u : Z) (hi : nat) : nat :=
  length (filter (λ c, c ≤ u) (take hi cum_weights)).

Definition get_random_chunk (t : tape) (cur : nat) : result (Z * Z * nat) :=
  let cum_weights := accumulate 0 CHUNK_WEIGHTS in
  let total := List.last cum_weights 0 in
  let u := Z.of_nat (t cur) mod total in
  let! chunk :=
    getitem CHUNKS (Z.of_nat (bisect cum_weights u (Nat.pred (length CHUNKS)))) in
  Ok (chunk, S cur).

Definition fallback_chunks : list (Z * Z) := [(2, 1); (1, 2); (1, 1)].

(** [for fallback_w, fallback_h in fallback_chunks], left at the first
    position found; a position is a pair, which Python's [if position:]
    takes as true. *)
Fixpoint try_fallbacks (t : tape) (cur : nat) (g : grid) (fallbacks : list (Z * Z))
  : result (option (Z * Z * Z * Z) * nat) :=
  match fallbacks with
  | [] => Ok (None, cur)
  | (fallback_w, fallback_h) :: rest =>
      let! r := find_best_position t cur g fallback_w fallback_h in
      match r with
      | (Some (row, col), cur') => Ok (Some (row, col, fallback_w, fallback_h), cur')
      | (None, cur') => try_fallbacks t cur' g rest
      end
  end.

(** Lines 140 to 152: the chunk drawn and its position, or those of the
    first fallback that has one, as [(row, col, chunk_w, chunk_h)]. *)
Definition choose (t : tape) (cur : nat) (g : grid)
  : result (option (Z * Z * Z * Z) * nat) :=
  let! drawn := get_random_chunk t cur in
  let '(chunk_w, chunk_h, cur1) := drawn in
  let! r := find_best_position t cur1 g chunk_w chunk_h in
  match r with
  | (Some (row, col), cur2) => Ok (Some (row, col, chunk_w, chunk_h), cur2)
  | (None, cur2) => try_fallbacks t cur2 g fallback_chunks
  end.

(** Lines 164 to 185: the size the image is resized to, the crop box if it
    is cropped and the offset it is pasted at. *)
Definition fit_with_crop (img : image) (x y w h : Z)
  : result (Z * Z * option (Z * Z * Z * Z) * Z * Z) :=
  let! aspect_img := int_truediv (width img) (height img) in
  let! aspect_chunk := int_truediv w h in
  let! r :=
    (if float_gt aspect_img aspect_chunk then
       let! f := int_mul_float h aspect_img in
       let! new_width := py_int f in
       Ok (new_width, h, x - (new_width - w) / 2, y)
     else
       let! f := int_div_float w aspect_img in
       let! new_height := py_int f in
       Ok (w, new_height, x, y - (new_height - h) / 2)) in
  let '(new_width, new_height, offset_x, offset_y) := r in
  if (new_width >? w) || (new_height >? h) then
    let crop_x := Z.max 0 ((new_width - w) / 2) in
    let crop_y := Z.max 0 ((new_height - h) / 2) in
    Ok (new_width, new_height, Some (crop_x, crop_y, crop_x + w, crop_y + h), x, y)
  else Ok (new_width, new_height, None, offset_x, offset_y).

(** Lines 155 to 188: the body run at the position chosen. *)
Definition place (images : list image) (cell_width cell_height : Z) (s : state)
  (cur : nat) (chunk_w chunk_h row col : Z) : result state :=
  let! img := getitem images (image_idx s) in
  let x := OUTER_PADDING + col * (cell_width + INNER_PADDING) in
  let y := OUTER_PADDING + row * (cell_height + INNER_PADDING) in
  let w := chunk_w * cell_width + (chunk_w - 1) * INNER_PADDING in
  let h := chunk_h * cell_height + (chunk_h - 1) * INNER_PADDING in
  let! fitted := fit_with_crop img x y w h in
  let '(new_width, new_height, crop, offset_x, offset_y) := fitted in
  let p := Paste (image_idx s) img row col chunk_w chunk_h x y w h
             new_width new_height crop offset_x offset_y in
  let! g := occupy (grid_of s) chunk_w chunk_h row col in
  Ok (State g (image_idx s + 1) (placement_attempts s + 1) (canvas_of s ++ [p]) cur).

(** One turn of the [while] loop. *)
Definition iteration (t : tape) (images : list image) (cell_width cell_height : Z)
  (s : state) : result state :=
  let! chosen := choose t (cursor s) (grid_of s) in
  match chosen with
  | (None, cur) =>
      Ok (State (grid_of s) (image_idx s) (placement_attempts s + 1) (canvas_of s) cur)
  | (Some (row, col, chunk_w, chunk_h), cur) =>
      place images cell_width cell_height s cur chunk_w chunk_h row col
  end.

(** [image_idx < len(shuffled_images) and placement_attempts < max_attempts] *)
Definition guard (images : list image) (s : state) : bool :=
  (image_idx s <? Z.of_nat (length images)) &&
  (placement_attempts s <? Z.of_nat (length images) * 3).

(** The [while] loop, run for at most [fuel] turns: [None] when the loop
    would go on after them. *)
Fixpoint while_loop (t : tape) (images : list image) (cell_width cell_height : Z)
  (fuel : nat) (s : state) : option (result state) :=
  if guard images s then
    match fuel with
    | O => None
    | S fuel' =>
        match iteration t images cell_width cell_height s with
        | Ok s' => while_loop t images cell_width cell_height fuel' s'
        | Raise e => Some (Raise e)
        end
    end
  else Some (Ok s).

Definition initial (cur : nat) : state :=
  State (new_grid GRID_ROWS GRID_COLS) 0 0 [] cur.

(** The layout of the shuffled images. *)
Definition layout (t : tape) (shuffled : list image * nat)
  (screen_width screen_height : Z) (fuel : nat) : option (result state) :=
  while_loop t shuffled.1 (cell_width screen_width) (cell_height screen_height)
    fuel (initial shuffled.2).

(** The function: its result and the store it leaves.  [images] is the
    address of the caller's list; the canvas is made (line 86) before
    [shuffled_images = images.copy()] makes a new list object, at an
    address not in use. *)
Definition create_freeflow_layout (t : tape) (h : store) (images : loc)
  (screen_width screen_height : Z) (fuel : nat)
  : option (result (option canvas)) * store :=
  match contents h images with
  | [] => (Some (Ok None), h)
  | _ =>
      match image_new screen_width screen_height with
      | Raise e => (Some (Raise e), h)
      | Ok _ =>
          let shuffled_images := fresh (dom h) in
          let h1 := <[shuffled_images := contents h images]> h in
          let sh := shuffle t 0 (contents h1 shuffled_images) in
          let h2 := <[shuffled_images := sh.1]> h1 in
          (match layout t (contents h2 shuffled_images, sh.2)
                   screen_width screen_height fuel with
           | None => None
           | Some r => Some (let! s := r in Ok (Some (canvas_of s)))
           end, h2)
      end
  end.

End Zen3.

(** ** The screen resolution: [get_screen_resolution]

    The function is the same in Chaos.py and in zen3.py.  It reads the
    output of [hyprctl monitors]; what the model takes as given is the
    outcome of [subprocess.run]: an exception, or a return code and the
    text of the standard output.  A text is the list of its characters,
    taken from the 256 of [ascii]; an output with other characters is
    outside the model.
    The two library functions whose result depends on tables of characters
    are parameters of the model: [isspace], which says which characters
    [str.split()] and [str.strip()] take as white space, and [int], the
    conversion of a text to an integer, [None] when Python raises
    [ValueError]. *)

Module Resolution.

Import Ascii.AsciiSyntax String.StringSyntax.
Delimit Scope string_scope with string.
Delimit Scope char_scope with char.
Local Open Scope char_scope.

Abbreviation ascii := Ascii.ascii.
Abbreviation text := (list Ascii.ascii).

(** The characters of a literal. *)
Definition str (s : String.string) : text := String.list_ascii_of_string s.
Arguments str s%_string.

(** [c in s], for a text [c] of one character. *)
Definition has_char (c : ascii) (s : text) : bool := existsb (Ascii.eqb c) s.

(** [sub in s]: the text [sub] starts at some position of [s]. *)
Fixpoint starts_with (sub s : text) : bool :=
  match sub, s with
  | [], _ => true
  | _ :: _, [] => false
  | a :: sub', b :: s' => Ascii.eqb a b && starts_with sub' s'
  end.

Fixpoint contains (sub s : text) : bool :=
  starts_with sub s ||
  match s with
  | [] => false
  | _ :: s' => contains sub s'
  end.

(** [s.split(sep)], for a separator of one character: the pieces between
    the separators, one more than there are separators. *)
Fixpoint split_on (sep : ascii) (s : text) : list text :=
  match s with
  | [] => [[]]
  | c :: s' =>
      if Ascii.eqb c sep then [] :: split_on sep s'
      else
        match split_on sep s' with
        | piece :: rest => (c :: piece) :: rest
        | [] => [[c]]
        end
  end.

(** The outcome of [subprocess.run]: an exception (the program is not
    there, the time is out, the output does not decode), or the return
    code and the output. *)
Inductive completed : Type :=
| RunRaises
| Completed (returncode : Z) (stdout : text).

(** How the search stands after a part or a line: the loop goes on, the
    function has returned, or an exception was raised. *)
Inductive search : Type :=
| Continue
| Return (width height : Z)
| Raised.

Section Parameters.

Variable isspace : ascii → bool.
Variable int : text → option Z.

(** [s.split()]: the maximal runs of characters that are not white space. *)
Fixpoint split (s : text) : list text :=
  match s with
  | [] => []
  | c :: s' =>
      if isspace c then split s'
      else
        match s' with
        | [] => [[c]]
        | d :: _ =>
            if isspace d then [c] :: split s'
            else
              match split s' with
              | word :: rest => (c :: word) :: rest
              | [] => [[c]]
              end
        end
  end.

(** [s.strip()] *)
Fixpoint lstrip (s : text) : text :=
  match s with
  | [] => []
  | c :: s' => if isspace c then lstrip s' else s
  end.

Definition strip (s : text) : text := rev (lstrip (rev (lstrip s))).

(** [width, height = map(int, resolution_part.split('x'))] and the
    [return]: the unpacking raises [ValueError] unless there are two
    pieces, and [int] raises it for a piece that is no integer. *)
Definition unpack (resolution_part : text) : search :=
  match split_on "x" resolution_part with
  | [a; b] =>
      match int a, int b with
      | Some width, Some height => Return width height
      | _, _ => Raised
      end
  | _ => Raised
  end.

(** [for part in parts] *)
Fixpoint parts_loop (parts : list text) : search :=
  match parts with
  | [] => Continue
  | part :: rest =>
      if has_char "x" part && has_char "@" part then
        match split_on "@" part with
        | first :: _ =>
            let resolution_part := strip first in
            if has_char "x" resolution_part then unpack resolution_part
            else parts_loop rest
        | [] => Raised
        end
      else parts_loop rest
  end.

(** [for line in result.stdout.split('\n')] *)
Fixpoint lines_loop (lines : list text) : search :=
  match lines with
  | [] => Continue
  | line :: rest =>
      if has_char "@" line && has_char "x" line &&
         (contains (str "HDMI") line || contains (str "DP") line
          || contains (str "eDP") line)
      then
        match parts_loop (split line) with
        | Continue => lines_loop rest
        | r => r
        end
      else lines_loop rest
  end.

Definition default_resolution : Z * Z := (5120, 1440).

(** The function: [except Exception: pass] leads every exception to the
    last line. *)
Definition get_screen_resolution (run : completed) : Z * Z :=
  match run with
  | RunRaises => default_resolution
  | Completed returncode stdout =>
      if returncode =? 0 then
        match lines_loop (split_on "010" stdout) with
        | Return width height => (width, height)
        | Continue | Raised => default_resolution
        end
      else default_resolution
  end.

End Parameters.

End Resolution.

(** ** The properties, as predicates on the model *)

(** The cell is occupied, or free, in the grid; both say that the cell is
    one of the grid. *)
Definition occupied (g : grid) (r c : Z) : Prop := grid_get g r c = Ok true.
Definition free (g : grid) (r c : Z) : Prop := grid_get g r c = Ok false.

(** The rectangle lies inside the grid of [rows] by [cols] cells. *)
Definition rect_in_bounds (rows cols row col chunk_w chunk_h : Z) : Prop :=
  0 ≤ row ∧ 0 ≤ col ∧ row + chunk_h ≤ rows ∧ col + chunk_w ≤ cols.

(** The rectangle lies inside the grid and all its cells are free. *)
Definition rect_free (rows cols : Z) (g : grid) (chunk_w chunk_h row col : Z) : Prop :=
  row + chunk_h ≤ rows ∧ col + chunk_w ≤ cols ∧
  ∀ r c, in_rect row col chunk_w chunk_h r c = true → free g r c.

(** The cell rectangle of a paste. *)
Definition covers (p : paste) (r c : Z) : bool :=
  in_rect (p_row p) (p_col p) (p_chunk_w p) (p_chunk_h p) r c.

(** No cell lies in the rectangles of two pastes of the canvas. *)
Definition no_overlap (cv : canvas) : Prop :=
  ∀ i j p q r c,
    cv !! i = Some p → cv !! j = Some q → i ≠ j →
    covers p r c = true → covers q r c = true → False.

(** Every cell that is occupied in [g] is occupied in [g']. *)
Definition grid_le (g g' : grid) : Prop :=
  ∀ r c, occupied g r c → occupied g' r c.

(** The anchor [(r1, c1)] comes before [(r2, c2)] in row-major order. *)
Definition row_major_lt (r1 c1 r2 c2 : Z) : Prop :=
  r1 < r2 ∨ (r1 = r2 ∧ c1 < c2).

(** What the loops of both modes keep true of the grid and the canvas: the
    grid has its shape, every paste has its rectangle inside the grid, the
    cells of every paste are occupied, and no two pastes overlap. *)
Definition canvas_inv (rows cols : Z) (g : grid) (cv : canvas) : Prop :=
  grid_wf rows cols g ∧
  (∀ p, p ∈ cv →
        rect_in_bounds rows cols (p_row p) (p_col p) (p_chunk_w p) (p_chunk_h p)) ∧
  (∀ p r c, p ∈ cv → covers p r c = true → occupied g r c) ∧
  no_overlap cv.

(** The pixel rectangle of a paste follows the formula of the
    specification, for the paddings and the cell size given. *)
Definition geometry_ok (outer inner cell_w cell_h : Z) (p : paste) : Prop :=
  p_x p = outer + p_col p * (cell_w + inner) ∧
  p_y p = outer + p_row p * (cell_h + inner) ∧
  p_w p = p_chunk_w p * cell_w + (p_chunk_w p - 1) * inner ∧
  p_h p = p_chunk_h p * cell_h + (p_chunk_h p - 1) * inner.

(** The cell size the specification derives from the screen. *)
Definition cell_size (screen cells outer inner : Z) : Z :=
  (screen - 2 * outer - (cells - 1) * inner) / cells.

(** The pastes of the canvas are the first images of the queue, one paste
    per image, in the order of the queue. *)
Definition queue_order (images : list image) (cv : canvas) : Prop :=
  ∀ k p, cv !! k = Some p → p_index p = Z.of_nat k ∧ images !! k = Some (p_image p).

(** The computation does not end in an [IndexError]. *)
Definition no_index_error {A : Type} (r : result A) : Prop := r ≠ Raise IndexError.

(** What the loop of Mode A keeps true of its state. *)
Definition chaos_inv (images : list image) (cell_w cell_h : Z) (s : Chaos.state) : Prop :=
  canvas_inv Chaos.GRID_ROWS Chaos.GRID_COLS (Chaos.grid_of s) (Chaos.canvas_of s) ∧
  Chaos.image_idx s = Z.of_nat (length (Chaos.canvas_of s)) ∧
  Chaos.image_idx s ≤ Z.of_nat (length images) ∧
  queue_order images (Chaos.canvas_of s) ∧
  Forall (geometry_ok Chaos.OUTER_PADDING Chaos.INNER_PADDING cell_w cell_h)
    (Chaos.canvas_of s).

(** What the loop of Mode B keeps true of its state. *)
Definition zen_inv (images : list image) (cell_w cell_h : Z) (s : Zen3.state) : Prop :=
  canvas_inv Zen3.GRID_ROWS Zen3.GRID_COLS (Zen3.grid_of s) (Zen3.canvas_of s) ∧
  Zen3.image_idx s = Z.of_nat (length (Zen3.canvas_of s)) ∧
  Zen3.image_idx s ≤ Z.of_nat (length images) ∧
  queue_order images (Zen3.canvas_of s) ∧
  Forall (geometry_ok Zen3.OUTER_PADDING Zen3.INNER_PADDING cell_w cell_h)
    (Zen3.canvas_of s).

(** The shape has an anchor in the grid of Mode B at which it fits. *)
Definition has_placement (g : grid) (chunk : Z * Z) : Prop :=
  ∃ r c, in_grid Zen3.GRID_ROWS Zen3.GRID_COLS r c ∧
         rect_free Zen3.GRID_ROWS Zen3.GRID_COLS g chunk.1 chunk.2 r c.

(** The entries of [positions] are anchors of the grid at which the shape
    fits. *)
Definition candidates_sound (g : grid) (chunk_w chunk_h : Z) (ps : list Zen3.candidate) : Prop :=
  ∀ sc r c, (sc, r, c) ∈ ps →
    in_grid Zen3.GRID_ROWS Zen3.GRID_COLS r c ∧
    rect_free Zen3.GRID_ROWS Zen3.GRID_COLS g chunk_w chunk_h r c.

(** [float(z)] does not raise. *)
Definition converts (z : Z) : bool :=
  match py_float z with
  | Ok _ => true
  | Raise _ => false
  end.

(** The states of a run of Mode A: [chaos_steps s s'] when the loop, in
    state [s], reaches [s'] after some entries of a chunk sequence; an entry
    whose shape does not fit leaves the state as it is. *)
Inductive chaos_steps (images : list image) (cell_w cell_h : Z)
  : Chaos.state → Chaos.state → Prop :=
| chaos_steps_refl (s : Chaos.state) : chaos_steps images cell_w cell_h s s
| chaos_steps_placed (s s1 s2 : Chaos.state) (chunk : Z * Z) :
    Chaos.attempt images cell_w cell_h s chunk = Ok (Chaos.Placed s1) →
    chaos_steps images cell_w cell_h s1 s2 →
    chaos_steps images cell_w cell_h s s2.

(** The states of a run of Mode B: [zen_steps s s'] when the [while] loop,
    in state [s], reaches [s'] after some turns. *)
Inductive zen_steps (t : tape) (images : list image) (cell_w cell_h : Z)
  : Zen3.state → Zen3.state → Prop :=
| zen_steps_refl (s : Zen3.state) : zen_steps t images cell_w cell_h s s
| zen_steps_turn (s s1 s2 : Zen3.state) :
    Zen3.guard images s = true →
    Zen3.iteration t images cell_w cell_h s = Ok s1 →
    zen_steps t images cell_w cell_h s1 s2 →
    zen_steps t images cell_w cell_h s s2.

(** [f] is the first shape of the list that has a placement. *)
Definition first_with_placement (g : grid) (l : list (Z * Z)) (f : Z * Z) : Prop :=
  ∃ before after, l = before ++ f :: after ∧
                  (∀ f', f' ∈ before → ¬ has_placement g f') ∧
                  has_placement g f.

(** In the run of Mode A on the chunk sequence [chunks], the entry [i]
    fails to place its shape and the later entry [j] attempts the same
    shape again. *)
Definition retried_after_failure (images : list image) (screen_width screen_height : Z)
  (chunks : list (Z * Z)) (i j : nat) : Prop :=
  ∃ chunk s_i s_j r,
    (i < j)%nat ∧ chunks !! i = Some chunk ∧ chunks !! j = Some chunk ∧
    Chaos.layout images screen_width screen_height (take i chunks) = Ok s_i ∧
    Chaos.image_idx s_i < Z.of_nat (length images) ∧
    Chaos.attempt images (Chaos.cell_width screen_width)
      (Chaos.cell_height screen_height) s_i chunk = Ok Chaos.NotPlaced ∧
    Chaos.layout images screen_width screen_height (take j chunks) = Ok s_j ∧
    Chaos.image_idx s_j < Z.of_nat (length images) ∧
    Chaos.attempt images (Chaos.cell_width screen_width)
      (Chaos.cell_height screen_height) s_j chunk = Ok r.


(** ** Inputs the theorems are tried on *)

(** A tape whose first draw is 20 and whose other draws are 0: in Mode B
    with one image, the first draw selects the chunk [(2, 1)]. *)
Definition tape_20 : tape := λ n, match n with O => 20%nat | _ => O end.

(** A store with one list of four images of 205 by 342 pixels, at address
    0, and one with a single image of 87 by 62 pixels. *)
Definition store_four : store := {[ O := replicate 4 (Image 205 342) ]}.
Definition store_one : store := {[ O := [Image 87 62] ]}.

(** Thirty square images, and twenty-eight. *)
Definition thirty_squares : list image := replicate 30 (Image 100 100).

(** A store with one list of three images of different sizes, at address
    0. *)
Definition store_three : store := {[ O := [Image 1 1; Image 2 2; Image 3 3] ]}.

(** A grid of Mode B that is full but for its last cell. *)
Definition nearly_full_grid : grid :=
  replicate 7 (replicate 28 true) ++ [replicate 27 true ++ [false]].

(** ** Predicates and values for the further properties *)

(** The cells of a paste: anchor and shape. *)
Definition anchor_of (p : paste) : Z * Z * Z * Z :=
  (p_row p, p_col p, p_chunk_w p, p_chunk_h p).

(** The placements of Mode A, as [(row, col, chunk_w, chunk_h)], in the
    order they are made when images do not run out. *)
Definition chaos_anchors : list (Z * Z * Z * Z) :=
  [(0, 0, 6, 3); (0, 6, 4, 3); (0, 10, 3, 2); (0, 13, 2, 3); (0, 15, 2, 2);
   (0, 17, 2, 1); (0, 19, 1, 2); (0, 20, 1, 1); (2, 15, 6, 3); (3, 0, 4, 3);
   (0, 21, 3, 2); (2, 10, 2, 3); (2, 21, 2, 2); (1, 17, 2, 1); (2, 12, 1, 2);
   (1, 20, 1, 1); (3, 4, 6, 3); (4, 12, 3, 2); (4, 21, 2, 2); (3, 13, 2, 1);
   (2, 23, 1, 2); (4, 23, 1, 1); (5, 10, 2, 1); (5, 15, 1, 1); (5, 16, 2, 1);
   (5, 18, 1, 1); (5, 19, 2, 1); (5, 23, 1, 1)].

(** The loop of Mode A reduced to what it does to the grid, with [left]
    images left: the anchors it occupies and the grid it ends with.  It is
    compared with [Chaos.chunk_loop] below. *)
Fixpoint chaos_cells (chunks : list (Z * Z)) (g : grid) (left : nat)
  : result (list (Z * Z * Z * Z) * grid) :=
  match chunks with
  | [] => Ok ([], g)
  | chunk :: rest =>
      let! found := first_fit Chaos.GRID_ROWS Chaos.GRID_COLS g chunk.1 chunk.2 in
      match found with
      | None => chaos_cells rest g left
      | Some (r, c) =>
          match left with
          | O => Ok ([], g)
          | S left' =>
              let! g' := occupy g chunk.1 chunk.2 r c in
              let! res := chaos_cells rest g' left' in
              Ok ((r, c, chunk.1, chunk.2) :: res.1, res.2)
          end
      end
  end.

(** The grid of Mode B that is full. *)
Definition full_grid : grid := replicate 8 (replicate 28 true).

(** Every paste has a shape of at least one cell on each axis. *)
Definition shapes_positive (cv : canvas) : Prop :=
  Forall (λ p, 1 ≤ p_chunk_w p ∧ 1 ≤ p_chunk_h p) cv.

(** The paste is what [fit_with_crop] computes for its image and its pixel
    rectangle. *)
Definition fitted_by_crop (p : paste) : Prop :=
  Zen3.fit_with_crop (p_image p) (p_x p) (p_y p) (p_w p) (p_h p)
  = Ok (p_new_width p, p_new_height p, p_crop p, p_offset_x p, p_offset_y p).

(** The pixel rectangles [x, x + w) by [y, y + h) of two pastes are apart
    by [gap] pixels at least, on one axis. *)
Definition targets_apart (gap : Z) (p q : paste) : Prop :=
  p_x p + p_w p + gap ≤ p_x q ∨ p_x q + p_w q + gap ≤ p_x p ∨
  p_y p + p_h p + gap ≤ p_y q ∨ p_y q + p_h q + gap ≤ p_y p.

(** The pixel rectangle of a paste lies inside the screen, [margin] pixels
    from its border at least. *)
Definition target_in_screen (margin sw sh : Z) (p : paste) : Prop :=
  margin ≤ p_x p ∧ p_x p + p_w p ≤ sw - margin ∧
  margin ≤ p_y p ∧ p_y p + p_h p ≤ sh - margin.

(** The region of the canvas a paste writes. *)
Definition pasted_region (p : paste) (px py : Z) : Prop :=
  p_offset_x p ≤ px < p_offset_x p + pasted_width p ∧
  p_offset_y p ≤ py < p_offset_y p + pasted_height p.

(** The arguments of the [resize] and [paste] calls of a paste, with no
    [crop] call between them: the resized image has the width or the
    height of the pixel rectangle of the paste and is aligned with the
    rectangle on that axis, and on each axis the offset centres it on the
    rectangle, the parts of the image before and after the rectangle
    differing by one pixel at most (a negative part is a margin left
    inside the rectangle). *)
Definition centered_on_target (p : paste) : Prop :=
  p_crop p = None ∧
  0 ≤ (p_x p - p_offset_x p) - (p_offset_x p + p_new_width p - (p_x p + p_w p)) ≤ 1 ∧
  0 ≤ (p_y p - p_offset_y p) - (p_offset_y p + p_new_height p - (p_y p + p_h p)) ≤ 1 ∧
  ((p_new_width p = p_w p ∧ p_offset_x p = p_x p) ∨
   (p_new_height p = p_h p ∧ p_offset_y p = p_y p)).

(** Every cell of the grid of Mode B is occupied. *)
Definition all_occupied (g : grid) : Prop :=
  ∀ r c, in_grid Zen3.GRID_ROWS Zen3.GRID_COLS r c → occupied g r c.

(** The sum of the weights before index [i]. *)
Definition weight_before (weights : list Z) (i : nat) : Z :=
  foldr Z.add 0 (take i weights).

(** The float is a number, not a NaN. *)
Definition is_number (f : float) : bool :=
  match f with
  | S754_nan => false
  | _ => true
  end.

(** A key of three integers whose lexicographic order is the order of the
    floats that are numbers: the class (infinities, negative, zero,
    positive), then exponent and significand. *)
Definition float_key (f : float) : Z * Z * Z :=
  match f with
  | S754_zero _ | S754_nan => (0, 0, 0)
  | S754_infinity s => (if s then -2 else 2, 0, 0)
  | S754_finite s m e => if s then (-1, - e, - Z.pos m) else (1, e, Z.pos m)
  end.

(** The key of an entry [(score, row, col)] and the order of the keys. *)
Definition candidate_key (x : Zen3.candidate) : Z * Z * Z * Z * Z :=
  let '(sc, r, c) := x in
  let '(k1, k2, k3) := float_key sc in
  (k1, k2, k3, r, c).

Definition key_lt (a b : Z * Z * Z * Z * Z) : Prop :=
  let '(a1, a2, a3, a4, a5) := a in
  let '(b1, b2, b3, b4, b5) := b in
  a1 < b1 ∨ (a1 = b1 ∧ (a2 < b2 ∨ (a2 = b2 ∧ (a3 < b3 ∨ (a3 = b3 ∧
    (a4 < b4 ∨ (a4 = b4 ∧ a5 < b5))))))).

(** The entry is an anchor of the grid at which the shape fits, with the
    score of its row, its column and the count of its neighbours. *)
Definition scored_candidate (g : grid) (chunk_w chunk_h : Z) (x : Zen3.candidate) : Prop :=
  in_grid Zen3.GRID_ROWS Zen3.GRID_COLS x.1.2 x.2 ∧
  rect_free Zen3.GRID_ROWS Zen3.GRID_COLS g chunk_w chunk_h x.1.2 x.2 ∧
  ∃ n, Zen3.count_neighbors g chunk_w chunk_h x.1.2 x.2 = Ok n ∧
       Zen3.score_of n x.1.2 x.2 = Ok x.1.1.

(** The entries of [ps] that Python's order on tuples puts above [x]. *)
Definition better_candidates (x : Zen3.candidate) (ps : list Zen3.candidate)
  : list Zen3.candidate :=
  filter (λ q, Zen3.candidate_lt x q = true) ps.

(** No entry of the list is below an entry that comes after it. *)
Definition descending (l : list Zen3.candidate) : Prop :=
  ∀ i j a b, (i < j)%nat → l !! i = Some a → l !! j = Some b →
             Zen3.candidate_lt a b = false.

(** The list is in descending order, stated on its head and tail. *)
Inductive desc_sorted : list Zen3.candidate → Prop :=
| desc_nil : desc_sorted []
| desc_cons (x : Zen3.candidate) (l : list Zen3.candidate) :
    Forall (λ y, Zen3.candidate_lt x y = false) l →
    desc_sorted l → desc_sorted (x :: l).

(** *** The screen resolution *)

Import Ascii.AsciiSyntax String.StringSyntax.
Delimit Scope char_scope with char.

(** The text before the first [sep], all of it when there is none. *)
Fixpoint before (sep : Resolution.ascii) (s : Resolution.text) : Resolution.text :=
  match s with
  | [] => []
  | c :: s' => if Ascii.eqb c sep then [] else c :: before sep s'
  end.

(** The line has an [@], an [x] and the name of a connector. *)
Definition monitor_line (line : Resolution.text) : bool :=
  Resolution.has_char "@"%char line && Resolution.has_char "x"%char line &&
  (Resolution.contains (Resolution.str "HDMI") line
   || Resolution.contains (Resolution.str "DP") line).

(** The part has an [@], and an [x] before the first [@]. *)
Definition resolution_token (isspace : Resolution.ascii → bool) (part : Resolution.text)
  : bool :=
  Resolution.has_char "x"%char part && Resolution.has_char "@"%char part &&
  Resolution.has_char "x"%char (Resolution.strip isspace (before "@"%char part)).

(** The parts of the output that the search stops at, in the order of the
    lines and of the parts of a line. *)
Definition candidate_tokens (isspace : Resolution.ascii → bool) (stdout : Resolution.text)
  : list Resolution.text :=
  Resolution.split_on "010"%char stdout ≫= λ line,
    if monitor_line line
    then filter (λ part, resolution_token isspace part = true)
           (Resolution.split isspace line)
    else [].

(** Every occupied cell of the grid lies in the rectangle of a paste. *)
Definition grid_covered (g : grid) (cv : canvas) : Prop :=
  ∀ r c, occupied g r c → ∃ p, p ∈ cv ∧ covers p r c = true.

(** White space for the examples: the blank only. *)
Definition blank_only (c : Resolution.ascii) : bool := Ascii.eqb c " "%char.

(** * Proofs *)

(** ** Indexing *)

Lemma rbind_Ok {A B : Type} (m : result A) (k : A → result B) (b : B) :
  rbind m k = Ok b ↔ ∃ a, m = Ok a ∧ k a = Ok b.
Proof.
  destruct m as [a|e]; simpl.
  - split; [eauto | intros (a' & [= ->] & H); exact H].
  - split; [discriminate | intros (a' & [=] & _)].
Qed.

Lemma getitem_Ok {A : Type} (l : list A) (i : Z) (a : A) :
  getitem l i = Ok a ↔ 0 ≤ i ∧ l !! Z.to_nat i = Some a.
Proof.
  unfold getitem. destruct (decide (0 ≤ i)) as [Hi|Hi].
  - destruct (l !! Z.to_nat i) as [a'|] eqn:E; split.
    + intros [= ->]. auto.
    + intros [_ [= ->]]. reflexivity.
    + discriminate.
    + intros [_ [=]].
  - split; [discriminate | intros [H _]; contradiction].
Qed.

Lemma getitem_in_range {A : Type} (l : list A) (i : Z) :
  0 ≤ i < Z.of_nat (length l) → ∃ a, getitem l i = Ok a.
Proof.
  intros Hi. destruct (lookup_lt_is_Some_2 l (Z.to_nat i)) as [a Ha]; [lia|].
  exists a. apply getitem_Ok. split; [lia | exact Ha].
Qed.

Lemma getitem_insert {A : Type} (l : list A) (i j : Z) (x : A) :
  0 ≤ j < Z.of_nat (length l) →
  getitem (<[Z.to_nat j := x]> l) i = if i =? j then Ok x else getitem l i.
Proof.
  intros Hj. unfold getitem. destruct (decide (0 ≤ i)) as [Hi|Hi].
  - destruct (Z.eqb_spec i j) as [->|Hne].
    + rewrite list_lookup_insert_eq by lia. reflexivity.
    + rewrite list_lookup_insert_ne by lia. reflexivity.
  - destruct (Z.eqb_spec i j) as [->|Hne]; [lia | reflexivity].
Qed.

Section GridFacts.

Variables GRID_ROWS GRID_COLS : Z.

Abbreviation wf := (grid_wf GRID_ROWS GRID_COLS).
Abbreviation inside := (in_grid GRID_ROWS GRID_COLS).

Lemma grid_get_Ok (g : grid) (r c : Z) (b : bool) :
  grid_get g r c = Ok b ↔
  0 ≤ r ∧ 0 ≤ c ∧ ∃ row, g !! Z.to_nat r = Some row ∧ row !! Z.to_nat c = Some b.
Proof.
  unfold grid_get. rewrite rbind_Ok. split.
  - intros (row & Hr & Hc). apply getitem_Ok in Hr as [? ?].
    apply getitem_Ok in Hc as [? ?]. eauto 6.
  - intros (Hr & Hc & row & Hrow & Hb). exists row.
    split; apply getitem_Ok; auto.
Qed.

Lemma wf_row (g : grid) (i : nat) (row : list bool) :
  wf g → g !! i = Some row → length row = Z.to_nat GRID_COLS.
Proof.
  intros [_ Hall] Hi. rewrite Forall_forall in Hall.
  apply Hall. eapply list_elem_of_lookup_2, Hi.
Qed.

(** A read that does not fault is a read of a cell of the grid. *)
Lemma grid_get_inside (g : grid) (r c : Z) (b : bool) :
  wf g → grid_get g r c = Ok b → inside r c.
Proof.
  intros Hwf Hget. apply grid_get_Ok in Hget as (Hr & Hc & row & Hrow & Hb).
  pose proof (wf_row _ _ _ Hwf Hrow) as Hlen.
  apply lookup_lt_Some in Hrow. apply lookup_lt_Some in Hb.
  destruct Hwf as [Hrows _]. unfold in_grid. lia.
Qed.

(** Every cell of the grid can be read. *)
Lemma grid_get_total (g : grid) (r c : Z) :
  wf g → inside r c → ∃ b, grid_get g r c = Ok b.
Proof.
  intros Hwf [Hr Hc]. pose proof Hwf as [Hrows _].
  destruct (lookup_lt_is_Some_2 g (Z.to_nat r)) as [row Hrow]; [lia|].
  pose proof (wf_row _ _ _ Hwf Hrow) as Hlen.
  destruct (lookup_lt_is_Some_2 row (Z.to_nat c)) as [b Hb]; [lia|].
  exists b. apply grid_get_Ok. split; [lia|]. split; [lia|]. eauto.
Qed.


(** Writing a cell of the grid: the write does not fault, keeps the shape
    of the grid and changes that cell only. *)
Lemma grid_set_spec (g : grid) (r c : Z) (v : bool) :
  wf g → inside r c →
  ∃ g', grid_set g r c v = Ok g' ∧ wf g' ∧
        ∀ r' c', grid_get g' r' c' =
                 if (r' =? r) && (c' =? c) then Ok v else grid_get g r' c'.
Proof.
  intros Hwf [Hr Hc]. pose proof Hwf as [Hrows Hall].
  destruct (lookup_lt_is_Some_2 g (Z.to_nat r)) as [row Hrow]; [lia|].
  pose proof (wf_row _ _ _ Hwf Hrow) as Hlen.
  exists (<[Z.to_nat r := <[Z.to_nat c := v]> row]> g).
  assert (Hget : getitem g r = Ok row) by (apply getitem_Ok; split; [lia | done]).
  split; [|split].
  - unfold grid_set. rewrite Hget. simpl. unfold setitem.
    rewrite !decide_True by lia. simpl.
    rewrite !decide_True by lia. reflexivity.
  - split.
    + rewrite length_insert. exact Hrows.
    + apply Forall_insert; [exact Hall|]. rewrite length_insert. exact Hlen.
  - intros r' c'. unfold grid_get.
    rewrite (getitem_insert g r' r) by lia.
    destruct (r' =? r) eqn:Er; simpl.
    + rewrite getitem_insert by lia. destruct (c' =? c); [reflexivity|].
      apply Z.eqb_eq in Er as ->. rewrite Hget. reflexivity.
    + reflexivity.
Qed.

Lemma in_rect_spec (row col chunk_w chunk_h r c : Z) :
  in_rect row col chunk_w chunk_h r c = true ↔
  row ≤ r < row + chunk_h ∧ col ≤ c < col + chunk_w.
Proof. unfold in_rect. rewrite !andb_true_iff. lia. Qed.

Lemma elem_of_range (a b x : Z) : x ∈ range a b ↔ a ≤ x < b.
Proof. unfold range. rewrite elem_of_seqZ. lia. Qed.

(** [occupy] on one row: no fault, and exactly the cells of [cs] of that
    row are set. *)
Lemma occupy_cols_spec (cs : list Z) (g : grid) (r : Z) :
  wf g → 0 ≤ r < GRID_ROWS → Forall (λ c, 0 ≤ c < GRID_COLS) cs →
  ∃ g', occupy_cols g r cs = Ok g' ∧ wf g' ∧
        ∀ r' c', grid_get g' r' c' =
                 if bool_decide (r' = r ∧ c' ∈ cs) then Ok true
                 else grid_get g r' c'.
Proof.
  revert g. induction cs as [|c cs IH]; intros g Hwf Hr Hcs.
  - exists g. split; [reflexivity|]. split; [exact Hwf|].
    intros r' c'. rewrite bool_decide_eq_false_2; [reflexivity|].
    intros [_ H]. inversion H.
  - inversion Hcs as [|? ? Hc Hcs']; subst.
    destruct (grid_set_spec g r c true Hwf (conj Hr Hc)) as (g1 & Hset & Hwf1 & Hget1).
    destruct (IH g1 Hwf1 Hr Hcs') as (g' & Hocc & Hwf' & Hget').
    exists g'. split; [simpl; rewrite Hset; exact Hocc|]. split; [exact Hwf'|].
    intros r' c'. rewrite Hget', Hget1.
    destruct (bool_decide_reflect (r' = r ∧ c' ∈ cs)) as [[-> Hin]|Hn].
    + rewrite bool_decide_eq_true_2; [reflexivity|]. split; [reflexivity|].
      by apply elem_of_cons; right.
    + destruct (Z.eqb_spec r' r) as [->|Hne]; simpl.
      * destruct (Z.eqb_spec c' c) as [->|Hnc].
        -- rewrite bool_decide_eq_true_2; [reflexivity|].
           split; [reflexivity | by apply elem_of_cons; left].
        -- rewrite bool_decide_eq_false_2; [reflexivity|].
           intros [_ [?|?]%elem_of_cons]; [contradiction | apply Hn; auto].
      * rewrite bool_decide_eq_false_2; [reflexivity | intros [? _]; contradiction].
Qed.

Lemma occupy_rows_spec (rs cs : list Z) (g : grid) :
  wf g → Forall (λ r, 0 ≤ r < GRID_ROWS) rs → Forall (λ c, 0 ≤ c < GRID_COLS) cs →
  ∃ g', occupy_rows g rs cs = Ok g' ∧ wf g' ∧
        ∀ r' c', grid_get g' r' c' =
                 if bool_decide (r' ∈ rs ∧ c' ∈ cs) then Ok true
                 else grid_get g r' c'.
Proof.
  revert g. induction rs as [|r rs IH]; intros g Hwf Hrs Hcs.
  - exists g. split; [reflexivity|]. split; [exact Hwf|].
    intros r' c'. rewrite bool_decide_eq_false_2; [reflexivity|].
    intros [H _]. inversion H.
  - inversion Hrs as [|? ? Hr Hrs']; subst.
    destruct (occupy_cols_spec cs g r Hwf Hr Hcs) as (g1 & Hset & Hwf1 & Hget1).
    destruct (IH g1 Hwf1 Hrs' Hcs) as (g' & Hocc & Hwf' & Hget').
    exists g'. split; [simpl; rewrite Hset; exact Hocc|]. split; [exact Hwf'|].
    intros r' c'. rewrite Hget', Hget1.
    destruct (bool_decide_reflect (r' ∈ rs ∧ c' ∈ cs)) as [[Hin Hc]|Hn].
    + rewrite (bool_decide_eq_true_2 (r' ∈ r :: rs ∧ c' ∈ cs)); [reflexivity|].
      split; [by apply elem_of_cons; right | exact Hc].
    + destruct (bool_decide_reflect (r' = r ∧ c' ∈ cs)) as [[-> Hc]|Hn1].
      * rewrite bool_decide_eq_true_2; [reflexivity|].
        split; [by apply elem_of_cons; left | exact Hc].
      * rewrite bool_decide_eq_false_2; [reflexivity|].
        intros [[?|?]%elem_of_cons Hc]; [apply Hn1 | apply Hn]; auto.
Qed.

Lemma Forall_range (a b lo hi : Z) :
  lo ≤ a → b ≤ hi → Forall (λ x, lo ≤ x < hi) (range a b).
Proof.
  intros Ha Hb. apply Forall_forall. intros x Hx%elem_of_range. lia.
Qed.

(** [occupy] on a rectangle inside the grid: no fault, the grid keeps its
    shape, the cells of the rectangle are occupied and the others are as
    they were. *)
Lemma occupy_spec (g : grid) (chunk_w chunk_h row col : Z) :
  wf g → rect_in_bounds GRID_ROWS GRID_COLS row col chunk_w chunk_h →
  ∃ g', occupy g chunk_w chunk_h row col = Ok g' ∧ wf g' ∧
        ∀ r c, grid_get g' r c =
               if in_rect row col chunk_w chunk_h r c then Ok true
               else grid_get g r c.
Proof.
  intros Hwf (Hrow & Hcol & Hh & Hw).
  destruct (occupy_rows_spec (range row (row + chunk_h)) (range col (col + chunk_w)) g)
    as (g' & Hocc & Hwf' & Hget); [exact Hwf | by apply Forall_range .. |].
  exists g'. split; [exact Hocc|]. split; [exact Hwf'|].
  intros r c. rewrite Hget.
  destruct (in_rect row col chunk_w chunk_h r c) eqn:E.
  - apply in_rect_spec in E. rewrite bool_decide_eq_true_2; [reflexivity|].
    rewrite !elem_of_range. lia.
  - rewrite bool_decide_eq_false_2; [reflexivity|].
    rewrite !elem_of_range. intros H. apply in_rect_spec in H. congruence.
Qed.

(** [fits] *)
Lemma fits_cols_spec (cs : list Z) (g : grid) (r : Z) :
  wf g → 0 ≤ r < GRID_ROWS → Forall (λ c, 0 ≤ c < GRID_COLS) cs →
  ∃ b, fits_cols g r cs = Ok b ∧ (b = true ↔ ∀ c, c ∈ cs → free g r c).
Proof.
  intros Hwf Hr. induction cs as [|c cs IH]; intros Hcs.
  - exists true. split; [reflexivity|]. split; [|reflexivity].
    intros _ c H. inversion H.
  - inversion Hcs as [|? ? Hc Hcs']; subst.
    destruct (grid_get_total g r c Hwf (conj Hr Hc)) as [b Hb].
    simpl. rewrite Hb. simpl. destruct b.
    + exists false. split; [reflexivity|]. split; [discriminate|].
      intros H. specialize (H c ltac:(by apply elem_of_cons; left)).
      unfold free in H. congruence.
    + destruct (IH Hcs') as (b & Hfit & Hiff). exists b. split; [exact Hfit|].
      rewrite Hiff. split.
      * intros H c' [->|?]%elem_of_cons; [exact Hb | auto].
      * intros H c' Hc'. apply H. by apply elem_of_cons; right.
Qed.

Lemma fits_rows_spec (rs cs : list Z) (g : grid) :
  wf g → Forall (λ r, 0 ≤ r < GRID_ROWS) rs → Forall (λ c, 0 ≤ c < GRID_COLS) cs →
  ∃ b, fits_rows g rs cs = Ok b ∧
       (b = true ↔ ∀ r c, r ∈ rs → c ∈ cs → free g r c).
Proof.
  intros Hwf Hrs Hcs. induction rs as [|r rs IH].
  - exists true. split; [reflexivity|]. split; [|reflexivity].
    intros _ r c H. inversion H.
  - inversion Hrs as [|? ? Hr Hrs']; subst.
    destruct (fits_cols_spec cs g r Hwf Hr Hcs) as (b1 & H1 & Hiff1).
    simpl. rewrite H1. simpl. destruct b1.
    + destruct (IH Hrs') as (b & Hfit & Hiff). exists b. split; [exact Hfit|].
      rewrite Hiff. split.
      * intros H r' c [->|?]%elem_of_cons Hc; [by apply Hiff1 | auto].
      * intros H r' c Hr' Hc. apply H; [by apply elem_of_cons; right | exact Hc].
    + exists false. split; [reflexivity|]. split; [discriminate|].
      intros H. apply Hiff1. intros c Hc. apply H; [by apply elem_of_cons; left | exact Hc].
Qed.

(** On a grid of the right shape and at an anchor that is not negative,
    [fits] does not fault and decides that the rectangle is inside the grid
    and free. *)
Lemma fits_spec (g : grid) (chunk_w chunk_h row col : Z) :
  wf g → 0 ≤ row → 0 ≤ col →
  ∃ b, fits GRID_ROWS GRID_COLS g chunk_w chunk_h row col = Ok b ∧
       (b = true ↔ rect_free GRID_ROWS GRID_COLS g chunk_w chunk_h row col).
Proof.
  intros Hwf Hrow Hcol. unfold fits, rect_free.
  destruct (Z.gtb_spec (row + chunk_h) GRID_ROWS) as [Hh|Hh]; simpl.
  { exists false. split; [reflexivity|]. split; [discriminate | lia]. }
  destruct (Z.gtb_spec (col + chunk_w) GRID_COLS) as [Hw|Hw]; simpl.
  { exists false. split; [reflexivity|]. split; [discriminate | lia]. }
  destruct (fits_rows_spec (range row (row + chunk_h)) (range col (col + chunk_w)) g)
    as (b & Hfit & Hiff); [exact Hwf | by apply Forall_range .. |].
  exists b. split; [exact Hfit|]. rewrite Hiff. split.
  - intros H. split; [lia|]. split; [lia|].
    intros r c [? ?]%in_rect_spec. apply H; apply elem_of_range; lia.
  - intros (_ & _ & H) r c Hr%elem_of_range Hc%elem_of_range.
    apply H. apply in_rect_spec. lia.
Qed.

Lemma fits_true (g : grid) (chunk_w chunk_h row col : Z) :
  wf g → 0 ≤ row → 0 ≤ col →
  fits GRID_ROWS GRID_COLS g chunk_w chunk_h row col = Ok true →
  rect_free GRID_ROWS GRID_COLS g chunk_w chunk_h row col.
Proof.
  intros Hwf Hrow Hcol Hfit.
  destruct (fits_spec g chunk_w chunk_h row col Hwf Hrow Hcol) as (b & Hb & Hiff).
  apply Hiff. congruence.
Qed.

Lemma fits_false (g : grid) (chunk_w chunk_h row col : Z) :
  wf g → 0 ≤ row → 0 ≤ col →
  fits GRID_ROWS GRID_COLS g chunk_w chunk_h row col = Ok false →
  ¬ rect_free GRID_ROWS GRID_COLS g chunk_w chunk_h row col.
Proof.
  intros Hwf Hrow Hcol Hfit Hfree.
  destruct (fits_spec g chunk_w chunk_h row col Hwf Hrow Hcol) as (b & Hb & Hiff).
  apply Hiff in Hfree. congruence.
Qed.

(** The new grid has the right shape and all its cells are free. *)
Lemma new_grid_wf : 0 ≤ GRID_ROWS → 0 ≤ GRID_COLS → wf (new_grid GRID_ROWS GRID_COLS).
Proof.
  intros Hr Hc. unfold grid_wf, new_grid, range. split.
  - rewrite length_fmap, length_seqZ. lia.
  - apply Forall_fmap, Forall_forall. intros x _. simpl.
    rewrite length_fmap, length_seqZ. lia.
Qed.

Lemma new_grid_free (r c : Z) (b : bool) :
  grid_get (new_grid GRID_ROWS GRID_COLS) r c = Ok b → b = false.
Proof.
  intros (Hr & Hc & row & Hrow & Hb)%grid_get_Ok.
  unfold new_grid in Hrow. apply list_lookup_fmap_Some in Hrow as (x & -> & _).
  apply list_lookup_fmap_Some in Hb as (y & -> & _). reflexivity.
Qed.

(** ** The row-major scan *)

Lemma range_cons (a b : Z) : a < b → range a b = a :: range (a + 1) b.
Proof.
  intros H. unfold range. rewrite seqZ_cons by lia. f_equal. f_equal; lia.
Qed.

Lemma range_nil (a b : Z) : b ≤ a → range a b = [].
Proof. intros H. unfold range. apply seqZ_nil. lia. Qed.

Lemma first_fit_cols_spec (g : grid) (chunk_w chunk_h row b : Z) (n : nat) (a : Z) :
  wf g → 0 ≤ row → 0 ≤ a → n = Z.to_nat (b - a) →
  ∃ res, first_fit_cols GRID_ROWS GRID_COLS g chunk_w chunk_h row (range a b) = Ok res ∧
    match res with
    | Some (r, c) =>
        r = row ∧ a ≤ c < b ∧
        rect_free GRID_ROWS GRID_COLS g chunk_w chunk_h row c ∧
        ∀ c', a ≤ c' < c → ¬ rect_free GRID_ROWS GRID_COLS g chunk_w chunk_h row c'
    | None =>
        ∀ c', a ≤ c' < b → ¬ rect_free GRID_ROWS GRID_COLS g chunk_w chunk_h row c'
    end.
Proof.
  intros Hwf Hrow. revert a. induction n as [|n IH]; intros a Ha Hn.
  - rewrite range_nil by lia. exists None. split; [reflexivity|]. intros c' ?. lia.
  - rewrite range_cons by lia. simpl.
    destruct (fits_spec g chunk_w chunk_h row a Hwf Hrow Ha) as (bf & Hfit & Hiff).
    rewrite Hfit. simpl. destruct bf.
    + exists (Some (row, a)). split; [reflexivity|].
      split; [reflexivity|]. split; [lia|]. split; [by apply Hiff|].
      intros c' ?. lia.
    + destruct (IH (a + 1)) as (res & Hres & Hspec); [lia | lia |].
      exists res. split; [exact Hres|].
      assert (Hna : ¬ rect_free GRID_ROWS GRID_COLS g chunk_w chunk_h row a)
        by (intros H%Hiff; discriminate).
      destruct res as [[r c]|].
      * destruct Hspec as (-> & Hc & Hfree & Hbefore).
        split; [reflexivity|]. split; [lia|]. split; [exact Hfree|].
        intros c' Hc'. destruct (decide (c' = a)) as [->|?]; [exact Hna|].
        apply Hbefore. lia.
      * intros c' Hc'. destruct (decide (c' = a)) as [->|?]; [exact Hna|].
        apply Hspec. lia.
Qed.

Lemma first_fit_rows_spec (g : grid) (chunk_w chunk_h b : Z) (n : nat) (a : Z) :
  wf g → 0 ≤ a → n = Z.to_nat (b - a) →
  ∃ res, first_fit_rows GRID_ROWS GRID_COLS g chunk_w chunk_h
           (range a b) (range 0 GRID_COLS) = Ok res ∧
    match res with
    | Some (r, c) =>
        a ≤ r < b ∧ 0 ≤ c < GRID_COLS ∧
        rect_free GRID_ROWS GRID_COLS g chunk_w chunk_h r c ∧
        ∀ r' c', a ≤ r' → 0 ≤ c' < GRID_COLS → row_major_lt r' c' r c →
                 ¬ rect_free GRID_ROWS GRID_COLS g chunk_w chunk_h r' c'
    | None =>
        ∀ r' c', a ≤ r' < b → 0 ≤ c' < GRID_COLS →
                 ¬ rect_free GRID_ROWS GRID_COLS g chunk_w chunk_h r' c'
    end.
Proof.
  intros Hwf. revert a. induction n as [|n IH]; intros a Ha Hn.
  - rewrite range_nil by lia. exists None. split; [reflexivity|]. intros r' c' ?. lia.
  - rewrite range_cons by lia. simpl.
    destruct (first_fit_cols_spec g chunk_w chunk_h a GRID_COLS
                (Z.to_nat (GRID_COLS - 0)) 0 Hwf Ha ltac:(lia) eq_refl)
      as (res1 & Hres1 & Hspec1).
    rewrite Hres1. simpl. destruct res1 as [[r c]|].
    + exists (Some (r, c)). split; [reflexivity|].
      destruct Hspec1 as (-> & Hc & Hfree & Hbefore).
      split; [lia|]. split; [exact Hc|]. split; [exact Hfree|].
      intros r' c' Hr' Hc' [Hlt|[-> Hlt]]; [lia|]. apply Hbefore. lia.
    + destruct (IH (a + 1)) as (res & Hres & Hspec); [lia | lia |].
      exists res. split; [exact Hres|]. destruct res as [[r c]|].
      * destruct Hspec as (Hr & Hc & Hfree & Hbefore).
        split; [lia|]. split; [exact Hc|]. split; [exact Hfree|].
        intros r' c' Hr' Hc' Hlt. destruct (decide (r' = a)) as [->|?].
        -- apply Hspec1. exact Hc'.
        -- apply Hbefore; [lia | exact Hc' | exact Hlt].
      * intros r' c' Hr' Hc'. destruct (decide (r' = a)) as [->|?].
        -- apply Hspec1. exact Hc'.
        -- apply Hspec; [lia | exact Hc'].
Qed.

(** The scan does not fault; its result is the first anchor of the grid, in
    row-major order, at which the rectangle is inside the grid and free,
    and it is [None] exactly when there is no such anchor. *)
Lemma first_fit_spec (g : grid) (chunk_w chunk_h : Z) :
  wf g →
  ∃ res, first_fit GRID_ROWS GRID_COLS g chunk_w chunk_h = Ok res ∧
    match res with
    | Some (r, c) =>
        inside r c ∧ rect_free GRID_ROWS GRID_COLS g chunk_w chunk_h r c ∧
        ∀ r' c', inside r' c' → row_major_lt r' c' r c →
                 ¬ rect_free GRID_ROWS GRID_COLS g chunk_w chunk_h r' c'
    | None =>
        ∀ r' c', inside r' c' →
                 ¬ rect_free GRID_ROWS GRID_COLS g chunk_w chunk_h r' c'
    end.
Proof.
  intros Hwf. unfold first_fit.
  destruct (first_fit_rows_spec g chunk_w chunk_h GRID_ROWS
              (Z.to_nat (GRID_ROWS - 0)) 0 Hwf ltac:(lia) eq_refl)
    as (res & Hres & Hspec).
  exists res. split; [exact Hres|]. destruct res as [[r c]|].
  - destruct Hspec as (Hr & Hc & Hfree & Hbefore).
    split; [split; assumption|]. split; [exact Hfree|].
    intros r' c' [Hr' Hc'] Hlt. apply Hbefore; [lia | exact Hc' | exact Hlt].
  - intros r' c' [Hr' Hc']. apply Hspec; assumption.
Qed.

End GridFacts.

(** ** Exceptions that are not index faults *)

Lemma no_index_error_Ok {A : Type} (a : A) : no_index_error (Ok a).
Proof. discriminate. Qed.

Lemma no_index_error_bind {A B : Type} (m : result A) (k : A → result B) :
  no_index_error m → (∀ a, m = Ok a → no_index_error (k a)) →
  no_index_error (rbind m k).
Proof.
  intros Hm Hk. destruct m as [a|e]; simpl; [by apply Hk|].
  intros [= ->]. by apply Hm.
Qed.

Lemma no_index_error_Raise {A B : Type} (e : pyexn) :
  no_index_error (@Raise A e) → no_index_error (@Raise B e).
Proof. intros H [= ->]. by apply H. Qed.

Lemma py_float_no_index (z : Z) : no_index_error (py_float z).
Proof. unfold py_float. destruct (binary_normalize _ _ _ _ _); discriminate. Qed.

Lemma py_int_no_index (f : float) : no_index_error (py_int f).
Proof. destruct f; discriminate. Qed.

Lemma float_truediv_no_index (a b : float) : no_index_error (float_truediv a b).
Proof. unfold float_truediv. destruct (float_is_zero b); discriminate. Qed.

Lemma int_truediv_no_index (a b : Z) : no_index_error (int_truediv a b).
Proof.
  unfold int_truediv. destruct (b =? 0); [discriminate|].
  destruct (SFdiv _ _ _ _); discriminate.
Qed.

Lemma int_mul_float_no_index (n : Z) (f : float) : no_index_error (int_mul_float n f).
Proof.
  apply no_index_error_bind; [apply py_float_no_index | discriminate].
Qed.

Lemma int_div_float_no_index (n : Z) (f : float) : no_index_error (int_div_float n f).
Proof.
  apply no_index_error_bind; [apply py_float_no_index | intros].
  apply float_truediv_no_index.
Qed.

Lemma int_sub_float_no_index (n : Z) (f : float) : no_index_error (int_sub_float n f).
Proof.
  apply no_index_error_bind; [apply py_float_no_index | discriminate].
Qed.

Create HintDb no_index discriminated.
#[export] Hint Resolve no_index_error_Ok py_float_no_index py_int_no_index
  float_truediv_no_index int_truediv_no_index int_mul_float_no_index
  int_div_float_no_index int_sub_float_no_index : no_index.

(** Goes through a chain of binds whose steps are float operations. *)
Ltac no_index_chain :=
  repeat (apply no_index_error_bind; [auto with no_index | intros ? _]);
  try discriminate.

(** ** Adding a paste keeps the invariant *)

Section PlacementFacts.

Variables GRID_ROWS GRID_COLS : Z.

Lemma canvas_inv_initial :
  0 ≤ GRID_ROWS → 0 ≤ GRID_COLS →
  canvas_inv GRID_ROWS GRID_COLS (new_grid GRID_ROWS GRID_COLS) [].
Proof.
  intros Hr Hc. split; [by apply new_grid_wf|].
  split; [intros p H; inversion H|].
  split; [intros p r c H; inversion H|].
  intros i j p q r c H. rewrite lookup_nil in H. discriminate.
Qed.

(** Occupying a free rectangle at an anchor of the grid: [occupy] does not
    fault, no occupied cell is freed, and the canvas with the new paste
    satisfies the invariant again. *)
Lemma canvas_inv_occupy (g : grid) (cv : canvas) (p : paste) :
  canvas_inv GRID_ROWS GRID_COLS g cv →
  0 ≤ p_row p → 0 ≤ p_col p →
  rect_free GRID_ROWS GRID_COLS g (p_chunk_w p) (p_chunk_h p) (p_row p) (p_col p) →
  ∃ g', occupy g (p_chunk_w p) (p_chunk_h p) (p_row p) (p_col p) = Ok g' ∧
        canvas_inv GRID_ROWS GRID_COLS g' (cv ++ [p]) ∧ grid_le g g'.
Proof.
  intros (Hwf & Hbounds & Hocc & Hdisj) Hrow Hcol (Hh & Hw & Hfree).
  assert (Hin : rect_in_bounds GRID_ROWS GRID_COLS (p_row p) (p_col p)
                  (p_chunk_w p) (p_chunk_h p)) by (unfold rect_in_bounds; lia).
  destruct (occupy_spec GRID_ROWS GRID_COLS g _ _ _ _ Hwf Hin) as (g' & Hg' & Hwf' & Hget).
  exists g'. split; [exact Hg'|].
  assert (Hle : grid_le g g').
  { intros r c Ho. unfold occupied in *. rewrite Hget.
    destruct (in_rect _ _ _ _ r c); [reflexivity | exact Ho]. }
  split; [|exact Hle]. split; [exact Hwf'|]. split; [|split].
  - intros q [Hq|Hq%list_elem_of_singleton]%elem_of_app; [by apply Hbounds | by subst].
  - intros q r c [Hq|Hq%list_elem_of_singleton]%elem_of_app Hcov.
    + apply Hle. by apply (Hocc q).
    + subst q. unfold occupied. rewrite Hget. unfold covers in Hcov.
      rewrite Hcov. reflexivity.
  - assert (Hnew : ∀ q r c, q ∈ cv → covers q r c = true → covers p r c = true → False).
    { intros q r c Hq Hcq Hcp. specialize (Hocc q r c Hq Hcq).
      specialize (Hfree r c Hcp). unfold occupied, free in *. congruence. }
    intros i j q1 q2 r c Hi Hj Hne H1 H2.
    destruct (lookup_app_Some cv [p] i q1) as [[Hi1|[Hi1 Hi2]] _]; [exact Hi|..];
    destruct (lookup_app_Some cv [p] j q2) as [[Hj1|[Hj1 Hj2]] _]; try exact Hj.
    + exact (Hdisj i j q1 q2 r c Hi1 Hj1 Hne H1 H2).
    + apply list_lookup_singleton_Some in Hj2 as [_ <-].
      apply (Hnew q1 r c); [eapply list_elem_of_lookup_2, Hi1 | assumption..].
    + apply list_lookup_singleton_Some in Hi2 as [_ <-].
      apply (Hnew q2 r c); [eapply list_elem_of_lookup_2, Hj1 | assumption..].
    + apply list_lookup_singleton_Some in Hi2 as [Hi2 _].
      apply list_lookup_singleton_Some in Hj2 as [Hj2 _]. lia.
Qed.

Lemma grid_le_refl (g : grid) : grid_le g g.
Proof. intros r c H. exact H. Qed.

Lemma grid_le_trans (g1 g2 g3 : grid) : grid_le g1 g2 → grid_le g2 g3 → grid_le g1 g3.
Proof. intros H1 H2 r c H. apply H2, H1, H. Qed.


End PlacementFacts.

(** ** Mode A *)

(** The three loops of Mode A act at the anchor that the row-major scan
    returns: the body is run at the first anchor that fits, once. *)
Lemma chaos_cols_loop_first_fit (images : list image) (cw ch : Z) (s : Chaos.state)
  (chunk_w chunk_h row : Z) (cols : list Z) :
  Chaos.cols_loop images cw ch s chunk_w chunk_h row cols =
  let! found := first_fit_cols Chaos.GRID_ROWS Chaos.GRID_COLS (Chaos.grid_of s)
                  chunk_w chunk_h row cols in
  match found with
  | None => Ok Chaos.NotPlaced
  | Some (r, c) =>
      if Chaos.image_idx s >=? Z.of_nat (length images) then Ok Chaos.Returned
      else let! s' := Chaos.place images cw ch s chunk_w chunk_h r c in
           Ok (Chaos.Placed s')
  end.
Proof.
  induction cols as [|col cols IH]; simpl; [reflexivity|].
  destruct (fits _ _ _ _ _ _ _) as [[]|e]; simpl; [reflexivity | exact IH | reflexivity].
Qed.

Lemma chaos_rows_loop_first_fit (images : list image) (cw ch : Z) (s : Chaos.state)
  (chunk_w chunk_h : Z) (rows cols : list Z) :
  Chaos.rows_loop images cw ch s chunk_w chunk_h rows cols =
  let! found := first_fit_rows Chaos.GRID_ROWS Chaos.GRID_COLS (Chaos.grid_of s)
                  chunk_w chunk_h rows cols in
  match found with
  | None => Ok Chaos.NotPlaced
  | Some (r, c) =>
      if Chaos.image_idx s >=? Z.of_nat (length images) then Ok Chaos.Returned
      else let! s' := Chaos.place images cw ch s chunk_w chunk_h r c in
           Ok (Chaos.Placed s')
  end.
Proof.
  induction rows as [|row rows IH]; simpl; [reflexivity|].
  rewrite chaos_cols_loop_first_fit.
  destruct (first_fit_cols _ _ _ _ _ _ _) as [[[r c]|]|e]; simpl;
    [| exact IH | reflexivity].
  destruct (_ >=? _); simpl; [reflexivity|].
  destruct (Chaos.place _ _ _ _ _ _ _ _); reflexivity.
Qed.

Lemma chaos_attempt_first_fit (images : list image) (cw ch : Z) (s : Chaos.state)
  (chunk : Z * Z) :
  Chaos.attempt images cw ch s chunk =
  let! found := first_fit Chaos.GRID_ROWS Chaos.GRID_COLS (Chaos.grid_of s)
                  chunk.1 chunk.2 in
  match found with
  | None => Ok Chaos.NotPlaced
  | Some (r, c) =>
      if Chaos.image_idx s >=? Z.of_nat (length images) then Ok Chaos.Returned
      else let! s' := Chaos.place images cw ch s chunk.1 chunk.2 r c in
           Ok (Chaos.Placed s')
  end.
Proof. apply chaos_rows_loop_first_fit. Qed.

Lemma chaos_scaled_size_no_index (img : image) (w h : Z) :
  no_index_error (Chaos.scaled_size img w h).
Proof.
  unfold Chaos.scaled_size.
  apply no_index_error_bind; [auto with no_index | intros aspect_img _].
  apply no_index_error_bind; [auto with no_index | intros aspect_chunk _].
  destruct (float_gt _ _); no_index_chain.
Qed.

(** The body of the loop, run at a free rectangle with an image left. *)
Lemma chaos_place_spec (images : list image) (cw ch : Z) (s : Chaos.state)
  (chunk_w chunk_h row col : Z) :
  chaos_inv images cw ch s →
  Chaos.image_idx s < Z.of_nat (length images) →
  0 ≤ row → 0 ≤ col →
  rect_free Chaos.GRID_ROWS Chaos.GRID_COLS (Chaos.grid_of s) chunk_w chunk_h row col →
  no_index_error (Chaos.place images cw ch s chunk_w chunk_h row col) ∧
  ∀ s', Chaos.place images cw ch s chunk_w chunk_h row col = Ok s' →
    chaos_inv images cw ch s' ∧
    grid_le (Chaos.grid_of s) (Chaos.grid_of s') ∧
    Chaos.image_idx s' = Chaos.image_idx s + 1 ∧
    ∃ p, Chaos.canvas_of s' = Chaos.canvas_of s ++ [p] ∧
         p_row p = row ∧ p_col p = col ∧ p_chunk_w p = chunk_w ∧ p_chunk_h p = chunk_h.
Proof.
  intros (Hinv & Hidx & Hle & Hqueue & Hgeo) Hlt Hrow Hcol Hfree.
  unfold Chaos.place.
  destruct (getitem_in_range images (Chaos.image_idx s)) as [img Himg]; [lia|].
  rewrite Himg. simpl.
  pose proof (chaos_scaled_size_no_index img
    (chunk_w * cw + (chunk_w - 1) * Chaos.INNER_PADDING)
    (chunk_h * ch + (chunk_h - 1) * Chaos.INNER_PADDING)) as Hsz.
  destruct (Chaos.scaled_size _ _ _) as [[new_width new_height]|e]; simpl;
    [| split; [exact (no_index_error_Raise e Hsz) | discriminate] ].
  match goal with |- context [ Paste ?a ?b ?c ?d ?e ?f ?g ?h ?i ?j ?k ?l ?m ?n ?o ] =>
    set (p := Paste a b c d e f g h i j k l m n o) end.
  destruct (canvas_inv_occupy _ _ _ _ p Hinv Hrow Hcol Hfree) as (g' & Hocc & Hinv' & Hgle).
  simpl in Hocc. rewrite Hocc. simpl. split; [discriminate|].
  intros s' [= <-]. unfold chaos_inv. simpl.
  split; [|split; [exact Hgle|split; [reflexivity|]]].
  - split; [exact Hinv'|]. split; [rewrite length_app; simpl; lia|].
    split; [lia|]. split.
    + intros k q Hk. apply lookup_app_Some in Hk as [Hk|[Hk1 Hk2]]; [by apply Hqueue|].
      apply list_lookup_singleton_Some in Hk2 as [Hk2 <-]. simpl.
      apply getitem_Ok in Himg as [_ Himg].
      replace k with (Z.to_nat (Chaos.image_idx s)) by lia.
      split; [lia | exact Himg].
    + apply Forall_app. split; [exact Hgeo|]. apply Forall_singleton.
      repeat split.
  - exists p. repeat split.
Qed.

Lemma chaos_wf (images : list image) (cw ch : Z) (s : Chaos.state) :
  chaos_inv images cw ch s →
  grid_wf Chaos.GRID_ROWS Chaos.GRID_COLS (Chaos.grid_of s).
Proof. intros [[H _] _]. exact H. Qed.

(** One entry of the chunk sequence. *)
Lemma chaos_attempt_spec (images : list image) (cw ch : Z) (s : Chaos.state)
  (chunk : Z * Z) :
  chaos_inv images cw ch s →
  no_index_error (Chaos.attempt images cw ch s chunk) ∧
  ∀ r, Chaos.attempt images cw ch s chunk = Ok r →
    match r with
    | Chaos.NotPlaced =>
        ∀ r c, in_grid Chaos.GRID_ROWS Chaos.GRID_COLS r c →
               ¬ rect_free Chaos.GRID_ROWS Chaos.GRID_COLS (Chaos.grid_of s)
                   chunk.1 chunk.2 r c
    | Chaos.Returned => Chaos.image_idx s = Z.of_nat (length images)
    | Chaos.Placed s' =>
        chaos_inv images cw ch s' ∧
        grid_le (Chaos.grid_of s) (Chaos.grid_of s') ∧
        Chaos.image_idx s' = Chaos.image_idx s + 1 ∧
        ∃ p, Chaos.canvas_of s' = Chaos.canvas_of s ++ [p] ∧
             (p_chunk_w p, p_chunk_h p) = chunk ∧
             first_fit Chaos.GRID_ROWS Chaos.GRID_COLS (Chaos.grid_of s)
               chunk.1 chunk.2 = Ok (Some (p_row p, p_col p))
    end.
Proof.
  intros Hinv. rewrite chaos_attempt_first_fit.
  destruct (first_fit_spec Chaos.GRID_ROWS Chaos.GRID_COLS (Chaos.grid_of s)
              chunk.1 chunk.2 (chaos_wf _ _ _ _ Hinv)) as (res & Hres & Hspec).
  rewrite Hres. simpl. destruct res as [[r c]|].
  - destruct Hspec as ([Hr Hc] & Hfree & Hfirst).
    destruct (Z.geb_spec (Chaos.image_idx s) (Z.of_nat (length images))) as [Hge|Hlt].
    + split; [discriminate|]. intros ? [= <-].
      destruct Hinv as (_ & _ & Hle & _). lia.
    + destruct (chaos_place_spec images cw ch s chunk.1 chunk.2 r c Hinv Hlt
                  ltac:(lia) ltac:(lia) Hfree) as [Hno Hplace].
      destruct (Chaos.place _ _ _ _ _ _ _ _) as [s'|e] eqn:E; simpl.
      * split; [discriminate|]. intros ? [= <-].
        destruct (Hplace s' eq_refl) as (Hinv' & Hle & Hidx & p & Hcv & <- & <- & Hw & Hh).
        split; [exact Hinv'|]. split; [exact Hle|]. split; [exact Hidx|].
        exists p. split; [exact Hcv|]. split; [|reflexivity].
        rewrite Hw, Hh. by destruct chunk.
      * split; [exact (no_index_error_Raise e Hno) | discriminate].
  - split; [discriminate|]. intros ? [= <-]. exact Hspec.
Qed.

(** The loop over the chunk sequence, from any state the loop can be in and
    for any sequence: no index fault; and in the state it ends in the
    invariant holds, the cells occupied before are occupied still, and the
    canvas has only grown. *)
Lemma chaos_chunk_loop_spec (images : list image) (cw ch : Z) (chunks : list (Z * Z))
  (s : Chaos.state) :
  chaos_inv images cw ch s →
  no_index_error (Chaos.chunk_loop images cw ch chunks s) ∧
  ∀ s', Chaos.chunk_loop images cw ch chunks s = Ok s' →
    chaos_inv images cw ch s' ∧
    grid_le (Chaos.grid_of s) (Chaos.grid_of s') ∧
    ∃ added, Chaos.canvas_of s' = Chaos.canvas_of s ++ added.
Proof.
  revert s. induction chunks as [|chunk rest IH]; intros s Hinv; simpl.
  - split; [discriminate|]. intros s' [= <-].
    split; [exact Hinv|]. split; [apply grid_le_refl|].
    exists []. by rewrite app_nil_r.
  - destruct (chaos_attempt_spec images cw ch s chunk Hinv) as [Hno Hspec].
    destruct (Chaos.attempt _ _ _ _ _) as [[|s1|]|e]; simpl.
    + by apply IH.
    + destruct (Hspec _ eq_refl) as (Hinv1 & Hle1 & _ & p & Hcv1 & _).
      destruct (IH s1 Hinv1) as [Hno1 Hspec1]. split; [exact Hno1|].
      intros s' Hs'. destruct (Hspec1 s' Hs') as (Hinv' & Hle' & added & Hcv').
      split; [exact Hinv'|]. split; [by eapply grid_le_trans|].
      exists (p :: added). rewrite Hcv', Hcv1, <- app_assoc. reflexivity.
    + split; [discriminate|]. intros s' [= <-].
      split; [exact Hinv|]. split; [apply grid_le_refl|].
      exists []. by rewrite app_nil_r.
    + split; [exact (no_index_error_Raise e Hno) | discriminate].
Qed.

Lemma chaos_inv_initial (images : list image) (cw ch : Z) :
  chaos_inv images cw ch Chaos.initial.
Proof.
  split; [by apply canvas_inv_initial|].
  split; [reflexivity|]. split; [simpl; lia|].
  split; [intros k p H; simpl in H; rewrite lookup_nil in H; discriminate | constructor].
Qed.



(** ** Mode B *)

(** *** The score *)

(** The integers the score is computed from, a row, a column and a count of
    cells of the grid of 8 by 28, convert to floats. *)
Lemma small_ints_convert : forallb converts (seqZ 0 225) = true.
Proof. vm_compute. reflexivity. Qed.

Lemma py_float_small (z : Z) : 0 ≤ z ≤ 224 → ∃ f, py_float z = Ok f.
Proof.
  intros Hz. pose proof small_ints_convert as H.
  rewrite forallb_forall in H. specialize (H z).
  unfold converts in H. destruct (py_float z) as [f|e]; [eauto|].
  assert (false = true) as [=]. apply H. apply list_elem_of_In, elem_of_seqZ. lia.
Qed.

Lemma score_of_total (neighbors row col : Z) :
  0 ≤ neighbors ≤ 224 → 0 ≤ row ≤ 224 → 0 ≤ col ≤ 224 →
  ∃ sc, Zen3.score_of neighbors row col = Ok sc.
Proof.
  intros Hn Hr Hc. unfold Zen3.score_of, int_mul_float, int_sub_float.
  destruct (py_float_small row Hr) as [fr ->].
  destruct (py_float_small col Hc) as [fc ->].
  destruct (py_float_small neighbors Hn) as [fn ->]. simpl. eauto.
Qed.

(** *** Counting the neighbours *)

Lemma neighbors_cols_spec (g : grid) (r : Z) (cs : list Z) (k : Z) :
  grid_wf Zen3.GRID_ROWS Zen3.GRID_COLS g → 0 ≤ r < Zen3.GRID_ROWS →
  Forall (λ c, 0 ≤ c < Zen3.GRID_COLS) cs →
  ∃ n, Zen3.neighbors_cols g r cs k = Ok n ∧ k ≤ n ≤ k + Z.of_nat (length cs).
Proof.
  intros Hwf Hr. revert k. induction cs as [|c cs IH]; intros k Hcs; simpl.
  - exists k. split; [reflexivity | lia].
  - inversion Hcs as [|? ? Hc Hcs']; subst.
    destruct (grid_get_total _ _ g r c Hwf (conj Hr Hc)) as [b ->]. simpl.
    destruct (IH (if b then k + 1 else k) Hcs') as (n & -> & Hn).
    exists n. split; [reflexivity|]. destruct b; lia.
Qed.

Lemma neighbors_rows_spec (g : grid) (rs cs : list Z) (k : Z) :
  grid_wf Zen3.GRID_ROWS Zen3.GRID_COLS g →
  Forall (λ r, 0 ≤ r < Zen3.GRID_ROWS) rs →
  Forall (λ c, 0 ≤ c < Zen3.GRID_COLS) cs →
  ∃ n, Zen3.neighbors_rows g rs cs k = Ok n ∧
       k ≤ n ≤ k + Z.of_nat (length rs) * Z.of_nat (length cs).
Proof.
  intros Hwf Hrs Hcs. revert k. induction rs as [|r rs IH]; intros k; simpl.
  - exists k. split; [reflexivity | lia].
  - inversion Hrs as [|? ? Hr Hrs']; subst.
    destruct (neighbors_cols_spec g r cs k Hwf Hr Hcs) as (n1 & -> & Hn1). simpl.
    destruct (IH Hrs' n1) as (n & -> & Hn).
    exists n. split; [reflexivity | lia].
Qed.

Lemma length_range (a b : Z) : Z.of_nat (length (range a b)) = Z.max 0 (b - a).
Proof. unfold range. rewrite length_seqZ. lia. Qed.

(** The count reads cells of the grid only, and is at most the number of
    cells of the grid. *)
Lemma count_neighbors_spec (g : grid) (chunk_w chunk_h row col : Z) :
  grid_wf Zen3.GRID_ROWS Zen3.GRID_COLS g →
  ∃ n, Zen3.count_neighbors g chunk_w chunk_h row col = Ok n ∧ 0 ≤ n ≤ 224.
Proof.
  intros Hwf. unfold Zen3.count_neighbors.
  destruct (neighbors_rows_spec g
    (range (Z.max 0 (row - 1)) (Z.min Zen3.GRID_ROWS (row + chunk_h + 1)))
    (range (Z.max 0 (col - 1)) (Z.min Zen3.GRID_COLS (col + chunk_w + 1))) 0 Hwf)
    as (n & Hn & Hbound); [apply Forall_range; lia | apply Forall_range; lia |].
  exists n. split; [exact Hn|]. rewrite !length_range in Hbound.
  unfold Zen3.GRID_ROWS, Zen3.GRID_COLS in *. nia.
Qed.

(** *** The candidates *)

Lemma positions_cols_spec (g : grid) (chunk_w chunk_h row : Z) (cols : list Z)
  (ps : list Zen3.candidate) :
  grid_wf Zen3.GRID_ROWS Zen3.GRID_COLS g → 0 ≤ row < Zen3.GRID_ROWS →
  Forall (λ c, 0 ≤ c < Zen3.GRID_COLS) cols →
  ∃ ps', Zen3.positions_cols g chunk_w chunk_h row cols ps = Ok ps' ∧
    (∀ x, x ∈ ps' → x ∈ ps ∨
       ∃ sc c, x = (sc, row, c) ∧ c ∈ cols ∧
               rect_free Zen3.GRID_ROWS Zen3.GRID_COLS g chunk_w chunk_h row c) ∧
    (∀ x, x ∈ ps → x ∈ ps') ∧
    (∀ c, c ∈ cols →
          rect_free Zen3.GRID_ROWS Zen3.GRID_COLS g chunk_w chunk_h row c →
          ∃ sc, (sc, row, c) ∈ ps').
Proof.
  intros Hwf Hrow. revert ps. induction cols as [|col cols IH]; intros ps Hcols; simpl.
  - exists ps. split; [reflexivity|]. split; [auto|]. split; [auto|].
    intros c H. inversion H.
  - inversion Hcols as [|? ? Hcol Hcols']; subst.
    destruct (fits_spec Zen3.GRID_ROWS Zen3.GRID_COLS g chunk_w chunk_h row col Hwf
                ltac:(lia) ltac:(lia)) as (b & -> & Hiff). simpl.
    destruct b.
    + destruct (count_neighbors_spec g chunk_w chunk_h row col Hwf) as (n & -> & Hn).
      simpl.
      destruct (score_of_total n row col Hn) as [sc ->];
        [unfold Zen3.GRID_ROWS in *; lia | unfold Zen3.GRID_COLS in *; lia |].
      simpl.
      destruct (IH (ps ++ [(sc, row, col)]) Hcols') as (ps' & -> & Hsound & Hkeep & Hcompl).
      exists ps'. split; [reflexivity|]. split; [|split].
      * intros x Hx. destruct (Hsound x Hx) as [Hin|(sc' & c & -> & Hc & Hfree)].
        -- apply elem_of_app in Hin as [?|Hin%list_elem_of_singleton]; [by left|].
           subst x.
           right. exists sc, col. split; [reflexivity|].
           split; [by apply elem_of_cons; left | by apply Hiff].
        -- right. exists sc', c. split; [reflexivity|].
           split; [by apply elem_of_cons; right | exact Hfree].
      * intros x Hx. apply Hkeep, elem_of_app. by left.
      * intros c [->|Hc]%elem_of_cons Hfree; [|by apply Hcompl].
        exists sc. apply Hkeep, elem_of_app. right. by apply list_elem_of_singleton.
    + destruct (IH ps Hcols') as (ps' & -> & Hsound & Hkeep & Hcompl).
      exists ps'. split; [reflexivity|]. split; [|split].
      * intros x Hx. destruct (Hsound x Hx) as [Hin|(sc' & c & -> & Hc & Hfree)];
          [by left|].
        right. exists sc', c. split; [reflexivity|].
        split; [by apply elem_of_cons; right | exact Hfree].
      * exact Hkeep.
      * intros c [->|Hc]%elem_of_cons Hfree; [|by apply Hcompl].
        apply Hiff in Hfree. discriminate.
Qed.

Lemma positions_rows_spec (g : grid) (chunk_w chunk_h : Z) (rows cols : list Z)
  (ps : list Zen3.candidate) :
  grid_wf Zen3.GRID_ROWS Zen3.GRID_COLS g →
  Forall (λ r, 0 ≤ r < Zen3.GRID_ROWS) rows →
  Forall (λ c, 0 ≤ c < Zen3.GRID_COLS) cols →
  ∃ ps', Zen3.positions_rows g chunk_w chunk_h rows cols ps = Ok ps' ∧
    (∀ x, x ∈ ps' → x ∈ ps ∨
       ∃ sc r c, x = (sc, r, c) ∧ r ∈ rows ∧ c ∈ cols ∧
                 rect_free Zen3.GRID_ROWS Zen3.GRID_COLS g chunk_w chunk_h r c) ∧
    (∀ x, x ∈ ps → x ∈ ps') ∧
    (∀ r c, r ∈ rows → c ∈ cols →
            rect_free Zen3.GRID_ROWS Zen3.GRID_COLS g chunk_w chunk_h r c →
            ∃ sc, (sc, r, c) ∈ ps').
Proof.
  intros Hwf Hrows Hcols. revert ps. induction rows as [|row rows IH]; intros ps; simpl.
  - exists ps. split; [reflexivity|]. split; [auto|]. split; [auto|].
    intros r c H. inversion H.
  - inversion Hrows as [|? ? Hrow Hrows']; subst.
    destruct (positions_cols_spec g chunk_w chunk_h row cols ps Hwf Hrow Hcols)
      as (ps1 & -> & Hsound1 & Hkeep1 & Hcompl1). simpl.
    destruct (IH Hrows' ps1) as (ps' & -> & Hsound & Hkeep & Hcompl).
    exists ps'. split; [reflexivity|]. split; [|split].
    + intros x Hx. destruct (Hsound x Hx) as [Hin|(sc & r & c & -> & Hr & Hc & Hfree)].
      * destruct (Hsound1 x Hin) as [?|(sc & c & -> & Hc & Hfree)]; [by left|].
        right. exists sc, row, c. split; [reflexivity|].
        split; [by apply elem_of_cons; left | auto].
      * right. exists sc, r, c. split; [reflexivity|].
        split; [by apply elem_of_cons; right | auto].
    + intros x Hx. auto.
    + intros r c [->|Hr]%elem_of_cons Hc Hfree; [|by apply Hcompl].
      destruct (Hcompl1 c Hc Hfree) as [sc Hsc]. exists sc. auto.
Qed.

(** *** The sort *)

Lemma elem_of_insert_desc (x y : Zen3.candidate) (l : list Zen3.candidate) :
  y ∈ Zen3.insert_desc x l ↔ y = x ∨ y ∈ l.
Proof.
  induction l as [|z l IH]; simpl.
  - rewrite list_elem_of_singleton. split; [auto | intros [?|H]; [done | inversion H]].
  - destruct (Zen3.candidate_lt x z).
    + rewrite !elem_of_cons, IH. tauto.
    + rewrite !elem_of_cons. tauto.
Qed.

Lemma elem_of_sort_desc (y : Zen3.candidate) (l : list Zen3.candidate) :
  y ∈ Zen3.sort_desc l ↔ y ∈ l.
Proof.
  induction l as [|x l IH]; simpl; [reflexivity|].
  rewrite elem_of_insert_desc, elem_of_cons, IH. reflexivity.
Qed.

Lemma length_insert_desc (x : Zen3.candidate) (l : list Zen3.candidate) :
  length (Zen3.insert_desc x l) = S (length l).
Proof.
  induction l as [|z l IH]; simpl; [reflexivity|].
  destruct (Zen3.candidate_lt x z); simpl; [by rewrite IH | reflexivity].
Qed.

Lemma length_sort_desc (l : list Zen3.candidate) :
  length (Zen3.sort_desc l) = length l.
Proof.
  induction l as [|x l IH]; simpl; [reflexivity|].
  by rewrite length_insert_desc, IH.
Qed.

(** *** [find_best_position] *)

(** On a grid of the right shape the function does not raise.  It returns
    an anchor of the grid at which the shape fits, after one draw; or,
    exactly when the shape fits nowhere, no position, without a draw. *)
Lemma find_best_position_spec (t : tape) (cur : nat) (g : grid) (chunk_w chunk_h : Z) :
  grid_wf Zen3.GRID_ROWS Zen3.GRID_COLS g →
  ∃ res cur', Zen3.find_best_position t cur g chunk_w chunk_h = Ok (res, cur') ∧
    match res with
    | Some (r, c) =>
        in_grid Zen3.GRID_ROWS Zen3.GRID_COLS r c ∧
        rect_free Zen3.GRID_ROWS Zen3.GRID_COLS g chunk_w chunk_h r c ∧
        cur' = S cur
    | None => cur' = cur ∧ ¬ has_placement g (chunk_w, chunk_h)
    end.
Proof.
  intros Hwf. unfold Zen3.find_best_position.
  destruct (positions_rows_spec g chunk_w chunk_h
              (range 0 Zen3.GRID_ROWS) (range 0 Zen3.GRID_COLS) [] Hwf)
    as (ps & -> & Hsound & _ & Hcompl); [apply Forall_range; lia ..|].
  cbv beta iota delta [rbind].
  destruct ps as [|p0 ps].
  - exists None, cur. split; [reflexivity|]. split; [reflexivity|].
    intros (r & c & [Hr Hc] & Hfree).
    destruct (Hcompl r c) as [sc Hsc]; [by apply elem_of_range ..| exact Hfree |].
    inversion Hsc.
  - remember (Zen3.sort_desc (p0 :: ps)) as sorted eqn:Esorted.
    remember (take (Nat.min 5 (length sorted)) sorted) as top eqn:Etop.
    assert (Hlen : (0 < length top)%nat).
    { subst top sorted. rewrite length_take, length_sort_desc. simpl. lia. }
    assert (Hsub : ∀ x, x ∈ top → x ∈ p0 :: ps).
    { intros x Hx. subst top sorted.
      apply subseteq_take in Hx. exact (proj1 (elem_of_sort_desc _ _) Hx). }
    clear Etop Esorted. destruct top as [|q0 top']; [simpl in Hlen; lia|].
    cbv beta iota. remember (q0 :: top') as top eqn:Etop.
    destruct (getitem_in_range top (Z.of_nat (randbelow t cur (length top))))
      as [[[sc r] c] Hget].
    { unfold randbelow. pose proof (Nat.mod_upper_bound (t cur) (length top)). lia. }
    rewrite Hget. simpl. exists (Some (r, c)), (S cur). split; [reflexivity|].
    apply getitem_Ok in Hget as [_ Hget].
    apply list_elem_of_lookup_2, Hsub in Hget.
    destruct (Hsound _ Hget) as [H|(sc' & r' & c' & [= -> -> ->] & Hr & Hc & Hfree)];
      [inversion H|].
    apply elem_of_range in Hr, Hc. split; [split; lia|]. split; [exact Hfree | reflexivity].
Qed.

(** *** The chunk drawn and the fallbacks *)

Lemma get_random_chunk_spec (t : tape) (cur : nat) :
  ∃ chunk, Zen3.get_random_chunk t cur = Ok (chunk, S cur) ∧ chunk ∈ Zen3.CHUNKS.
Proof.
  unfold Zen3.get_random_chunk.
  set (cum := Zen3.accumulate 0 Zen3.CHUNK_WEIGHTS).
  set (u := Z.of_nat (t cur) mod List.last cum 0).
  destruct (getitem_in_range Zen3.CHUNKS
              (Z.of_nat (Zen3.bisect cum u (Nat.pred (length Zen3.CHUNKS)))))
    as [chunk Hchunk].
  { unfold Zen3.bisect.
    pose proof (length_filter (λ c, c ≤ u) (take (Nat.pred (length Zen3.CHUNKS)) cum)) as H.
    rewrite length_take in H. simpl in *. lia. }
  rewrite Hchunk. simpl. exists chunk. split; [reflexivity|].
  apply getitem_Ok in Hchunk as [_ Hchunk]. eapply list_elem_of_lookup_2, Hchunk.
Qed.

Lemma try_fallbacks_spec (t : tape) (g : grid) (fallbacks : list (Z * Z)) (cur : nat) :
  grid_wf Zen3.GRID_ROWS Zen3.GRID_COLS g →
  ∃ res cur', Zen3.try_fallbacks t cur g fallbacks = Ok (res, cur') ∧
    match res with
    | Some (r, c, w, h) =>
        in_grid Zen3.GRID_ROWS Zen3.GRID_COLS r c ∧
        rect_free Zen3.GRID_ROWS Zen3.GRID_COLS g w h r c ∧
        ∃ before after, fallbacks = before ++ (w, h) :: after ∧
                        ∀ f, f ∈ before → ¬ has_placement g f
    | None => ∀ f, f ∈ fallbacks → ¬ has_placement g f
    end.
Proof.
  intros Hwf. revert cur. induction fallbacks as [|[fw fh] rest IH]; intros cur; simpl.
  - exists None, cur. split; [reflexivity|]. intros f H. inversion H.
  - destruct (find_best_position_spec t cur g fw fh Hwf) as (res & cur1 & -> & Hspec).
    simpl. destruct res as [[r c]|].
    + destruct Hspec as (Hin & Hfree & _).
      exists (Some (r, c, fw, fh)), cur1. split; [reflexivity|].
      split; [exact Hin|]. split; [exact Hfree|].
      exists [], rest. split; [reflexivity|]. intros f H. inversion H.
    + destruct Hspec as [_ Hnone].
      destruct (IH cur1) as (res & cur' & -> & Hres).
      exists res, cur'. split; [reflexivity|]. destruct res as [[[[r c] w] h]|].
      * destruct Hres as (Hin & Hfree & before & after & -> & Hbefore).
        split; [exact Hin|]. split; [exact Hfree|].
        exists ((fw, fh) :: before), after. split; [reflexivity|].
        intros f [->|Hf]%elem_of_cons; [exact Hnone | by apply Hbefore].
      * intros f [->|Hf]%elem_of_cons; [exact Hnone | by apply Hres].
Qed.

(** The choice of the shape and its position: the shape drawn where it has
    a placement, else the first fallback that has one, else nothing. *)
Lemma choose_spec (t : tape) (cur : nat) (g : grid) :
  grid_wf Zen3.GRID_ROWS Zen3.GRID_COLS g →
  ∃ drawn res cur',
    Zen3.get_random_chunk t cur = Ok (drawn, S cur) ∧
    Zen3.choose t cur g = Ok (res, cur') ∧
    match res with
    | Some (r, c, w, h) =>
        in_grid Zen3.GRID_ROWS Zen3.GRID_COLS r c ∧
        rect_free Zen3.GRID_ROWS Zen3.GRID_COLS g w h r c ∧
        ((has_placement g drawn ∧ (w, h) = drawn) ∨
         (¬ has_placement g drawn ∧
          ∃ before after, Zen3.fallback_chunks = before ++ (w, h) :: after ∧
                          ∀ f, f ∈ before → ¬ has_placement g f))
    | None =>
        ¬ has_placement g drawn ∧ ∀ f, f ∈ Zen3.fallback_chunks → ¬ has_placement g f
    end.
Proof.
  intros Hwf. destruct (get_random_chunk_spec t cur) as ([cw ch] & Hdraw & _).
  exists (cw, ch). unfold Zen3.choose. rewrite Hdraw. simpl.
  destruct (find_best_position_spec t (S cur) g cw ch Hwf) as (res & cur1 & -> & Hspec).
  simpl. destruct res as [[r c]|].
  - destruct Hspec as (Hin & Hfree & _).
    exists (Some (r, c, cw, ch)), cur1. split; [reflexivity|]. split; [reflexivity|].
    split; [exact Hin|]. split; [exact Hfree|]. left.
    split; [by exists r, c | reflexivity].
  - destruct Hspec as [_ Hnone].
    destruct (try_fallbacks_spec t g Zen3.fallback_chunks cur1 Hwf)
      as (res & cur' & Hres & Hspec).
    exists res, cur'. split; [reflexivity|]. split; [exact Hres|].
    destruct res as [[[[r c] w] h]|].
    + destruct Hspec as (Hin & Hfree & Hfirst).
      split; [exact Hin|]. split; [exact Hfree|]. right. split; [exact Hnone | exact Hfirst].
    + split; [exact Hnone | exact Hspec].
Qed.

(** *** The body and the loop *)

Lemma fit_with_crop_no_index (img : image) (x y w h : Z) :
  no_index_error (Zen3.fit_with_crop img x y w h).
Proof.
  unfold Zen3.fit_with_crop.
  apply no_index_error_bind; [auto with no_index | intros aspect_img _].
  apply no_index_error_bind; [auto with no_index | intros aspect_chunk _].
  apply no_index_error_bind.
  - destruct (float_gt _ _); no_index_chain.
  - intros [[[nw nh] ox] oy] _. destruct (_ || _); discriminate.
Qed.

Lemma zen_wf (images : list image) (cw ch : Z) (s : Zen3.state) :
  zen_inv images cw ch s → grid_wf Zen3.GRID_ROWS Zen3.GRID_COLS (Zen3.grid_of s).
Proof. intros [[H _] _]. exact H. Qed.

Lemma zen_place_spec (images : list image) (cw ch : Z) (s : Zen3.state) (cur : nat)
  (chunk_w chunk_h row col : Z) :
  zen_inv images cw ch s →
  Zen3.image_idx s < Z.of_nat (length images) →
  0 ≤ row → 0 ≤ col →
  rect_free Zen3.GRID_ROWS Zen3.GRID_COLS (Zen3.grid_of s) chunk_w chunk_h row col →
  no_index_error (Zen3.place images cw ch s cur chunk_w chunk_h row col) ∧
  ∀ s', Zen3.place images cw ch s cur chunk_w chunk_h row col = Ok s' →
    zen_inv images cw ch s' ∧
    grid_le (Zen3.grid_of s) (Zen3.grid_of s') ∧
    Zen3.image_idx s' = Zen3.image_idx s + 1 ∧
    Zen3.placement_attempts s' = Zen3.placement_attempts s + 1 ∧
    Zen3.cursor s' = cur ∧
    ∃ p, Zen3.canvas_of s' = Zen3.canvas_of s ++ [p] ∧
         p_row p = row ∧ p_col p = col ∧ p_chunk_w p = chunk_w ∧ p_chunk_h p = chunk_h.
Proof.
  intros (Hinv & Hidx & Hle & Hqueue & Hgeo) Hlt Hrow Hcol Hfree.
  unfold Zen3.place.
  destruct (getitem_in_range images (Zen3.image_idx s)) as [img Himg]; [lia|].
  rewrite Himg. simpl.
  match goal with |- context [ Zen3.fit_with_crop ?a ?b ?c ?d ?e ] =>
    pose proof (fit_with_crop_no_index a b c d e) as Hfit;
    destruct (Zen3.fit_with_crop a b c d e) as [[[[[nw nh] crop] ox] oy]|e0]
  end; simpl; [| split; [exact (no_index_error_Raise e0 Hfit) | discriminate] ].
  match goal with |- context [ Paste ?a ?b ?c ?d ?e ?f ?g ?h ?i ?j ?k ?l ?m ?n ?o ] =>
    set (p := Paste a b c d e f g h i j k l m n o) end.
  destruct (canvas_inv_occupy _ _ _ _ p Hinv Hrow Hcol Hfree) as (g' & Hocc & Hinv' & Hgle).
  simpl in Hocc. rewrite Hocc. simpl. split; [discriminate|].
  intros s' [= <-]. unfold zen_inv. simpl.
  split; [|split; [exact Hgle|split; [reflexivity|split; [reflexivity|split; [reflexivity|]]]]].
  - split; [exact Hinv'|]. split; [rewrite length_app; simpl; lia|].
    split; [lia|]. split.
    + intros k q Hk. apply lookup_app_Some in Hk as [Hk|[Hk1 Hk2]]; [by apply Hqueue|].
      apply list_lookup_singleton_Some in Hk2 as [Hk2 <-]. simpl.
      apply getitem_Ok in Himg as [_ Himg].
      replace k with (Z.to_nat (Zen3.image_idx s)) by lia.
      split; [lia | exact Himg].
    + apply Forall_app. split; [exact Hgeo|]. apply Forall_singleton.
      repeat split.
  - exists p. repeat split.
Qed.

(** One turn of the loop, entered with an image left. *)
Lemma zen_iteration_spec (t : tape) (images : list image) (cw ch : Z) (s : Zen3.state) :
  zen_inv images cw ch s →
  Zen3.image_idx s < Z.of_nat (length images) →
  no_index_error (Zen3.iteration t images cw ch s) ∧
  ∀ s', Zen3.iteration t images cw ch s = Ok s' →
    zen_inv images cw ch s' ∧
    grid_le (Zen3.grid_of s) (Zen3.grid_of s') ∧
    Zen3.placement_attempts s' = Zen3.placement_attempts s + 1 ∧
    ∃ added, Zen3.canvas_of s' = Zen3.canvas_of s ++ added.
Proof.
  intros Hinv Hlt. unfold Zen3.iteration.
  destruct (choose_spec t (Zen3.cursor s) (Zen3.grid_of s) (zen_wf _ _ _ _ Hinv))
    as (drawn & res & cur' & _ & -> & Hspec). simpl.
  destruct res as [[[[r c] w] h]|].
  - destruct Hspec as ([Hr Hc] & Hfree & _).
    destruct (zen_place_spec images cw ch s cur' w h r c Hinv Hlt
                ltac:(lia) ltac:(lia) Hfree) as [Hno Hplace].
    split; [exact Hno|]. intros s' Hs'.
    destruct (Hplace s' Hs') as (Hinv' & Hle & _ & Hatt & _ & p & Hcv & _).
    split; [exact Hinv'|]. split; [exact Hle|]. split; [exact Hatt|].
    exists [p]. exact Hcv.
  - split; [discriminate|]. intros s' [= <-]. simpl.
    split; [exact Hinv|]. split; [apply grid_le_refl|]. split; [reflexivity|].
    exists []. by rewrite app_nil_r.
Qed.

Lemma zen_iteration_attempts (t : tape) (images : list image) (cw ch : Z)
  (s s' : Zen3.state) :
  Zen3.iteration t images cw ch s = Ok s' →
  Zen3.placement_attempts s' = Zen3.placement_attempts s + 1.
Proof.
  unfold Zen3.iteration.
  destruct (Zen3.choose _ _ _) as [[[[[[r c] w] h]|] cur']|e]; simpl; [| |discriminate].
  - unfold Zen3.place. intros H.
    repeat (apply rbind_Ok in H as (? & _ & H)).
    repeat match type of H with (let '(_, _) := ?x in _) = _ => destruct x end.
    repeat (apply rbind_Ok in H as (? & _ & H)).
    by injection H as <-.
  - by intros [= <-].
Qed.

(** The loop stops within the turns that the attempt cap leaves. *)
Lemma zen_while_loop_terminates (t : tape) (images : list image) (cw ch : Z)
  (fuel : nat) (s : Zen3.state) :
  Z.of_nat (length images) * 3 - Zen3.placement_attempts s ≤ Z.of_nat fuel →
  ∃ r, Zen3.while_loop t images cw ch fuel s = Some r.
Proof.
  revert s. induction fuel as [|fuel IH]; intros s Hfuel; simpl.
  - unfold Zen3.guard.
    destruct (Z.ltb_spec (Zen3.placement_attempts s) (Z.of_nat (length images) * 3));
      [lia|]. rewrite andb_false_r. eauto.
  - destruct (Zen3.guard images s); [|eauto].
    destruct (Zen3.iteration t images cw ch s) as [s'|e] eqn:E; [|eauto].
    apply IH. apply zen_iteration_attempts in E. lia.
Qed.

(** The loop, from any state it can be in and for any number of turns. *)
Lemma zen_while_loop_spec (t : tape) (images : list image) (cw ch : Z)
  (fuel : nat) (s : Zen3.state) (r : result Zen3.state) :
  zen_inv images cw ch s →
  Zen3.while_loop t images cw ch fuel s = Some r →
  no_index_error r ∧
  ∀ s', r = Ok s' →
    zen_inv images cw ch s' ∧
    grid_le (Zen3.grid_of s) (Zen3.grid_of s') ∧
    (∃ added, Zen3.canvas_of s' = Zen3.canvas_of s ++ added) ∧
    Zen3.placement_attempts s' ≤
      Z.max (Zen3.placement_attempts s) (Z.of_nat (length images) * 3).
Proof.
  revert s. induction fuel as [|fuel IH]; intros s Hinv; simpl.
  - destruct (Zen3.guard images s); [discriminate|]. intros [= <-].
    split; [discriminate|]. intros s' [= <-].
    split; [exact Hinv|]. split; [apply grid_le_refl|].
    split; [exists []; by rewrite app_nil_r | lia].
  - destruct (Zen3.guard images s) eqn:G.
    + apply andb_true_iff in G as [G1%Z.ltb_lt G2%Z.ltb_lt].
      destruct (zen_iteration_spec t images cw ch s Hinv G1) as [Hno Hspec].
      destruct (Zen3.iteration t images cw ch s) as [s1|e].
      * destruct (Hspec s1 eq_refl) as (Hinv1 & Hle1 & Hatt1 & added1 & Hcv1).
        intros Hloop. destruct (IH s1 Hinv1 Hloop) as [Hno' Hspec'].
        split; [exact Hno'|]. intros s' Hs'.
        destruct (Hspec' s' Hs') as (Hinv' & Hle' & [added Hcv'] & Hatt').
        split; [exact Hinv'|]. split; [by eapply grid_le_trans|].
        split; [exists (added1 ++ added); by rewrite Hcv', Hcv1, app_assoc | lia].
      * intros [= <-]. split; [exact Hno | discriminate].
    + intros [= <-]. split; [discriminate|]. intros s' [= <-].
      split; [exact Hinv|]. split; [apply grid_le_refl|].
      split; [exists []; by rewrite app_nil_r | lia].
Qed.

Lemma zen_inv_initial (images : list image) (cw ch : Z) (cur : nat) :
  zen_inv images cw ch (Zen3.initial cur).
Proof.
  split; [by apply canvas_inv_initial|].
  split; [reflexivity|]. split; [simpl; lia|].
  split; [intros k p H; simpl in H; rewrite lookup_nil in H; discriminate | constructor].
Qed.

(** ** The shuffle and the store *)

Lemma swap_Permutation {A : Type} (l : list A) (i j : nat) : swap l i j ≡ₚ l.
Proof.
  unfold swap. destruct (l !! i) as [a|] eqn:Hi; [|reflexivity].
  destruct (l !! j) as [b|] eqn:Hj; [|reflexivity].
  by apply Permutation_insert_swap.
Qed.

Lemma shuffle_from_Permutation {A : Type} (t : tape) (n cur : nat) (l : list A) :
  (shuffle_from t cur n l).1 ≡ₚ l.
Proof.
  revert cur l. induction n as [|n IH]; intros cur l; simpl; [reflexivity|].
  rewrite IH. apply swap_Permutation.
Qed.

Lemma shuffle_Permutation {A : Type} (t : tape) (cur : nat) (l : list A) :
  (shuffle t cur l).1 ≡ₚ l.
Proof. apply shuffle_from_Permutation. Qed.

Lemma contents_insert (h : store) (l : loc) (v : list image) :
  contents (<[l := v]> h) l = v.
Proof. unfold contents. by rewrite lookup_insert_eq. Qed.

Lemma contents_insert_ne (h : store) (l l' : loc) (v : list image) :
  l ≠ l' → contents (<[l := v]> h) l' = contents h l'.
Proof. intros H. unfold contents. by rewrite lookup_insert_ne. Qed.

(** The last place of the shuffled list holds the element that the first
    draw selects; the later swaps are all below it. *)
Lemma swap_lookup_high {A : Type} (l : list A) (i j k : nat) :
  (i < k)%nat → (j < k)%nat → swap l i j !! k = l !! k.
Proof.
  intros Hi Hj. unfold swap.
  destruct (l !! i) as [a|]; [|reflexivity].
  destruct (l !! j) as [b|]; [|reflexivity].
  rewrite !list_lookup_insert_ne by lia. reflexivity.
Qed.

Lemma shuffle_from_lookup_high {A : Type} (t : tape) (n cur : nat) (l : list A) (k : nat) :
  (n < k)%nat → (shuffle_from t cur n l).1 !! k = l !! k.
Proof.
  revert cur l. induction n as [|n IH]; intros cur l Hk; simpl; [reflexivity|].
  rewrite IH by lia. apply swap_lookup_high; [lia|].
  unfold randbelow. pose proof (Nat.mod_upper_bound (t cur) (S (S n))). lia.
Qed.

Lemma swap_lookup_first {A : Type} (l : list A) (i j : nat) :
  (i < length l)%nat → (j < length l)%nat → swap l i j !! i = l !! j.
Proof.
  intros Hi Hj. unfold swap.
  destruct (lookup_lt_is_Some_2 l i Hi) as [a Ha].
  destruct (lookup_lt_is_Some_2 l j Hj) as [b Hb].
  rewrite Ha, Hb. destruct (decide (i = j)) as [->|Hne].
  - rewrite list_lookup_insert_eq by (rewrite length_insert; lia). congruence.
  - rewrite list_lookup_insert_ne by lia.
    rewrite list_lookup_insert_eq by lia. reflexivity.
Qed.

Lemma shuffle_last {A : Type} (t : tape) (cur : nat) (l : list A) :
  (shuffle t cur l).1 !! Nat.pred (length l) = l !! randbelow t cur (length l).
Proof.
  unfold shuffle. destruct (Nat.pred (length l)) as [|n] eqn:E.
  - destruct l as [|a [|b l]]; [by rewrite !lookup_nil | | simpl in E; lia].
    unfold randbelow. cbn [length shuffle_from fst]. by rewrite Nat.mod_1_r.
  - cbn [shuffle_from]. rewrite shuffle_from_lookup_high by lia.
    replace (S (S n)) with (length l) by lia.
    apply swap_lookup_first; [lia|].
    unfold randbelow. pose proof (Nat.mod_upper_bound (t cur) (length l)). lia.
Qed.

Lemma image_new_Ok (sw sh : Z) : 0 ≤ sw → 0 ≤ sh → image_new sw sh = Ok tt.
Proof.
  intros Hw Hh. unfold image_new.
  destruct (Z.ltb_spec sw 0); [lia|]. destruct (Z.ltb_spec sh 0); [lia|]. reflexivity.
Qed.

Lemma image_new_Raise (sw sh : Z) : sw < 0 ∨ sh < 0 → image_new sw sh = Raise ValueError.
Proof.
  intros H. unfold image_new.
  destruct (Z.ltb_spec sw 0); [reflexivity|]. destruct (Z.ltb_spec sh 0); [reflexivity|]. lia.
Qed.

Lemma image_new_cases (sw sh : Z) :
  (0 ≤ sw ∧ 0 ≤ sh ∧ image_new sw sh = Ok tt) ∨
  ((sw < 0 ∨ sh < 0) ∧ image_new sw sh = Raise ValueError).
Proof.
  destruct (decide (0 ≤ sw ∧ 0 ≤ sh)) as [[Hw Hh]|Hn].
  - left. split; [exact Hw|]. split; [exact Hh | by apply image_new_Ok].
  - right. assert (H : sw < 0 ∨ sh < 0) by lia. split; [exact H | by apply image_new_Raise].
Qed.

(** Mode A leaves the caller's list shuffled when the canvas could be made,
    and as it was when not; every other list is as it was. *)
Lemma chaos_store (t : tape) (h : store) (images : loc) (sw sh : Z) :
  (0 ≤ sw → 0 ≤ sh →
   contents (Chaos.create_chunk_grid_layout t h images sw sh).2 images =
     (shuffle t 0 (contents h images)).1) ∧
  (contents h images ≠ [] → sw < 0 ∨ sh < 0 →
   Chaos.create_chunk_grid_layout t h images sw sh = (Raise ValueError, h)) ∧
  ∀ l, l ≠ images →
       (Chaos.create_chunk_grid_layout t h images sw sh).2 !! l = h !! l.
Proof.
  unfold Chaos.create_chunk_grid_layout.
  destruct (contents h images) as [|img imgs] eqn:E.
  - split; [intros _ _; exact E|]. split; [done | reflexivity].
  - destruct (image_new_cases sw sh) as [(Hw & Hh & ->)|[Hneg ->]].
    + split; [intros _ _; apply contents_insert|].
      split; [intros _ ?; lia | intros l Hl; by apply lookup_insert_ne].
    + split; [intros ? ?; lia|]. split; [reflexivity | reflexivity].
Qed.

(** Mode B leaves every list of the store as it was: it writes to the new
    list only. *)
Lemma zen_store (t : tape) (h : store) (images : loc) (sw sh : Z) (fuel : nat) (l : loc) :
  is_Some (h !! l) →
  (Zen3.create_freeflow_layout t h images sw sh fuel).2 !! l = h !! l.
Proof.
  intros Hl. unfold Zen3.create_freeflow_layout.
  destruct (contents h images) as [|img imgs] eqn:E; simpl; [reflexivity|].
  destruct (image_new sw sh); [|reflexivity].
  assert (Hfresh : fresh (dom h) ≠ l).
  { intros <-. apply (is_fresh (dom h)). by apply elem_of_dom. }
  cbn [snd]. rewrite !lookup_insert_ne by exact Hfresh. reflexivity.
Qed.

(** ** Runs *)

Lemma chaos_steps_trans (images : list image) (cw ch : Z) (s1 s2 s3 : Chaos.state) :
  chaos_steps images cw ch s1 s2 → chaos_steps images cw ch s2 s3 →
  chaos_steps images cw ch s1 s3.
Proof.
  induction 1 as [|s s1 s2 chunk Hatt _ IH]; intros H; [exact H|].
  eapply chaos_steps_placed; [exact Hatt | by apply IH].
Qed.

(** The loop of Mode A goes through states of the run. *)
Lemma chaos_chunk_loop_steps (images : list image) (cw ch : Z) (chunks : list (Z * Z))
  (s s' : Chaos.state) :
  Chaos.chunk_loop images cw ch chunks s = Ok s' → chaos_steps images cw ch s s'.
Proof.
  revert s. induction chunks as [|chunk rest IH]; intros s; simpl.
  - intros [= <-]. constructor.
  - destruct (Chaos.attempt images cw ch s chunk) as [[|s1|]|e] eqn:E; simpl.
    + apply IH.
    + intros H. eapply chaos_steps_placed; [exact E | by apply IH].
    + intros [= <-]. constructor.
    + discriminate.
Qed.

Lemma chaos_steps_inv (images : list image) (cw ch : Z) (s s' : Chaos.state) :
  chaos_steps images cw ch s s' → chaos_inv images cw ch s →
  chaos_inv images cw ch s' ∧ grid_le (Chaos.grid_of s) (Chaos.grid_of s').
Proof.
  induction 1 as [s|s s1 s2 chunk Hatt _ IH]; intros Hinv.
  - split; [exact Hinv | apply grid_le_refl].
  - destruct (chaos_attempt_spec images cw ch s chunk Hinv) as [_ Hspec].
    destruct (Hspec _ Hatt) as (Hinv1 & Hle1 & _).
    destruct (IH Hinv1) as [Hinv2 Hle2].
    split; [exact Hinv2 | by eapply grid_le_trans].
Qed.

(** The canvas that Mode A returns is that of the state its loop ends in,
    run on the shuffled list and on the catalog repeated 100 times. *)
Lemma chaos_returned_canvas (t : tape) (h : store) (images : loc) (sw sh : Z)
  (cv : canvas) :
  (Chaos.create_chunk_grid_layout t h images sw sh).1 = Ok (Some cv) →
  ∃ s, Chaos.layout (shuffle t 0 (contents h images)).1 sw sh
         (repeat_list Chaos.CHUNKS 100) = Ok s ∧
       Chaos.canvas_of s = cv.
Proof.
  unfold Chaos.create_chunk_grid_layout.
  destruct (contents h images) as [|img imgs] eqn:E; [discriminate|].
  destruct (image_new sw sh); [|discriminate].
  cbn [fst]. rewrite contents_insert.
  destruct (Chaos.layout _ _ _ _) as [s|e]; simpl; [|discriminate].
  intros [= <-]. by exists s.
Qed.

Lemma zen_steps_trans (t : tape) (images : list image) (cw ch : Z)
  (s1 s2 s3 : Zen3.state) :
  zen_steps t images cw ch s1 s2 → zen_steps t images cw ch s2 s3 →
  zen_steps t images cw ch s1 s3.
Proof.
  induction 1 as [|s s1 s2 G Hit _ IH]; intros H; [exact H|].
  eapply zen_steps_turn; [exact G | exact Hit | by apply IH].
Qed.

(** The loop of Mode B goes through states of the run. *)
Lemma zen_while_loop_steps (t : tape) (images : list image) (cw ch : Z) (fuel : nat)
  (s s' : Zen3.state) :
  Zen3.while_loop t images cw ch fuel s = Some (Ok s') → zen_steps t images cw ch s s'.
Proof.
  revert s. induction fuel as [|fuel IH]; intros s; simpl.
  - destruct (Zen3.guard images s); [discriminate|]. intros [= <-]. constructor.
  - destruct (Zen3.guard images s) eqn:G; [|intros [= <-]; constructor].
    destruct (Zen3.iteration t images cw ch s) as [s1|e] eqn:E; [|discriminate].
    intros H. eapply zen_steps_turn; [exact G | exact E | by apply IH].
Qed.

Lemma zen_steps_inv (t : tape) (images : list image) (cw ch : Z) (s s' : Zen3.state) :
  zen_steps t images cw ch s s' → zen_inv images cw ch s →
  zen_inv images cw ch s' ∧ grid_le (Zen3.grid_of s) (Zen3.grid_of s').
Proof.
  induction 1 as [s|s s1 s2 G Hit _ IH]; intros Hinv.
  - split; [exact Hinv | apply grid_le_refl].
  - apply andb_true_iff in G as [G1%Z.ltb_lt _].
    destruct (zen_iteration_spec t images cw ch s Hinv G1) as [_ Hspec].
    destruct (Hspec _ Hit) as (Hinv1 & Hle1 & _).
    destruct (IH Hinv1) as [Hinv2 Hle2].
    split; [exact Hinv2 | by eapply grid_le_trans].
Qed.

(** The canvas that Mode B returns is that of the state its loop ends in,
    run on the shuffled copy. *)
Lemma zen_returned_canvas (t : tape) (h : store) (images : loc) (sw sh : Z) (fuel : nat)
  (cv : canvas) :
  (Zen3.create_freeflow_layout t h images sw sh fuel).1 = Some (Ok (Some cv)) →
  ∃ s, Zen3.layout t (shuffle t 0 (contents h images)) sw sh fuel = Some (Ok s) ∧
       Zen3.canvas_of s = cv.
Proof.
  unfold Zen3.create_freeflow_layout.
  destruct (contents h images) as [|img imgs] eqn:E; [discriminate|].
  destruct (image_new sw sh); [|discriminate].
  cbn [fst]. rewrite !contents_insert.
  replace (((shuffle t 0 (img :: imgs)).1, (shuffle t 0 (img :: imgs)).2))
    with (shuffle t 0 (img :: imgs)) by (by destruct (shuffle t 0 (img :: imgs))).
  destruct (Zen3.layout _ _ _ _ _) as [[s|e]|]; simpl; [|discriminate..].
  intros [= <-]. by exists s.
Qed.

(** ** The fitted image *)

(** Whatever size the scaling yields, Mode B writes inside the target
    rectangle, and writes all of it when it crops. *)
Lemma fit_with_crop_inside_target (img : image) (x y w h : Z)
  (nw nh : Z) (crop : option (Z * Z * Z * Z)) (ox oy : Z) :
  Zen3.fit_with_crop img x y w h = Ok (nw, nh, crop, ox, oy) →
  x ≤ ox ∧ y ≤ oy ∧
  match crop with
  | Some (x0, y0, x1, y1) =>
      ox = x ∧ oy = y ∧ x1 - x0 = w ∧ y1 - y0 = h
  | None => ox + nw ≤ x + w ∧ oy + nh ≤ y + h
  end.
Proof.
  unfold Zen3.fit_with_crop. intros H.
  apply rbind_Ok in H as (aspect_img & _ & H).
  apply rbind_Ok in H as (aspect_chunk & _ & H).
  apply rbind_Ok in H as ([[[nw' nh'] ox'] oy'] & Hsize & H).
  assert (Hoff : (nh' = h ∧ ox' = x - (nw' - w) / 2 ∧ oy' = y) ∨
                 (nw' = w ∧ ox' = x ∧ oy' = y - (nh' - h) / 2)).
  { destruct (float_gt aspect_img aspect_chunk).
    - apply rbind_Ok in Hsize as (f & _ & Hsize).
      apply rbind_Ok in Hsize as (v & _ & [= <- <- <- <-]). left. auto.
    - apply rbind_Ok in Hsize as (f & _ & Hsize).
      apply rbind_Ok in Hsize as (v & _ & [= <- <- <- <-]). right. auto. }
  destruct (Z.gtb_spec nw' w) as [Hw|Hw]; simpl in H.
  { injection H as <- <- <- <- <-. lia. }
  destruct (Z.gtb_spec nh' h) as [Hh|Hh]; simpl in H.
  { injection H as <- <- <- <- <-. lia. }
  injection H as <- <- <- <- <-.
  destruct Hoff as [(Hn & Hx & Hy)|(Hn & Hx & Hy)]; subst; cbv beta iota;
    repeat split; Z.div_mod_to_equations; lia.
Qed.

(** Mode A centres the resized image on the target rectangle: on each
    axis the part beyond the rectangle on the near side and the part beyond
    it on the far side differ by one pixel at most. *)
Lemma chaos_place_centered (images : list image) (cw ch : Z) (s s' : Chaos.state)
  (chunk_w chunk_h row col : Z) :
  Chaos.place images cw ch s chunk_w chunk_h row col = Ok s' →
  ∃ p, Chaos.canvas_of s' = Chaos.canvas_of s ++ [p] ∧
       0 ≤ (p_x p - p_offset_x p)
             - (p_offset_x p + p_new_width p - (p_x p + p_w p)) ≤ 1 ∧
       0 ≤ (p_y p - p_offset_y p)
             - (p_offset_y p + p_new_height p - (p_y p + p_h p)) ≤ 1 ∧
       (p_new_width p = p_w p ∨ p_new_height p = p_h p).
Proof.
  unfold Chaos.place. intros H.
  apply rbind_Ok in H as (img & _ & H).
  apply rbind_Ok in H as ([nw nh] & Hsize & H).
  apply rbind_Ok in H as (g & _ & [= <-]).
  eexists. split; [reflexivity|]. simpl.
  split; [Z.div_mod_to_equations; lia|]. split; [Z.div_mod_to_equations; lia|].
  unfold Chaos.scaled_size in Hsize.
  apply rbind_Ok in Hsize as (aspect_img & _ & Hsize).
  apply rbind_Ok in Hsize as (aspect_chunk & _ & Hsize).
  destruct (float_gt aspect_img aspect_chunk).
  - apply rbind_Ok in Hsize as (f & _ & Hsize).
    apply rbind_Ok in Hsize as (v & _ & [= <- <-]). by right.
  - apply rbind_Ok in Hsize as (f & _ & Hsize).
    apply rbind_Ok in Hsize as (v & _ & [= <- <-]). by left.
Qed.

(** The body of Mode B adds one paste, of the shape and at the anchor it is
    given, and takes one image. *)
Lemma zen_place_shape (images : list image) (cw ch : Z) (s s' : Zen3.state) (cur : nat)
  (chunk_w chunk_h row col : Z) :
  Zen3.place images cw ch s cur chunk_w chunk_h row col = Ok s' →
  Zen3.image_idx s' = Zen3.image_idx s + 1 ∧
  ∃ p, Zen3.canvas_of s' = Zen3.canvas_of s ++ [p] ∧
       (p_row p, p_col p, p_chunk_w p, p_chunk_h p) = (row, col, chunk_w, chunk_h).
Proof.
  unfold Zen3.place. intros H.
  apply rbind_Ok in H as (img & _ & H).
  apply rbind_Ok in H as ([[[[nw nh] crop] ox] oy] & _ & H).
  apply rbind_Ok in H as (g & _ & [= <-]).
  split; [reflexivity|]. eexists. split; reflexivity.
Qed.

(** The pastes of a canvas in queue order are of distinct images. *)
Lemma queue_order_NoDup (images : list image) (cv : canvas) :
  queue_order images cv → NoDup (p_index <$> cv).
Proof.
  intros Hq. apply NoDup_alt. intros i j x Hi Hj.
  apply list_lookup_fmap_Some in Hi as (p & -> & Hp).
  apply list_lookup_fmap_Some in Hj as (q & Heq & Hq').
  destruct (Hq i p Hp) as [Hip _]. destruct (Hq j q Hq') as [Hjq _]. lia.
Qed.

(** ** The rectangle of a placement *)

(** The body of Mode A adds one paste, with the anchor and the shape it is
    given and the pixel rectangle of the formula. *)
Lemma chaos_place_rectangle (images : list image) (cw ch : Z) (s s' : Chaos.state)
  (chunk_w chunk_h row col : Z) :
  Chaos.place images cw ch s chunk_w chunk_h row col = Ok s' →
  ∃ p, Chaos.canvas_of s' = Chaos.canvas_of s ++ [p] ∧
       (p_row p, p_col p, p_chunk_w p, p_chunk_h p) = (row, col, chunk_w, chunk_h) ∧
       p_x p = Chaos.OUTER_PADDING + col * (cw + Chaos.INNER_PADDING) ∧
       p_y p = Chaos.OUTER_PADDING + row * (ch + Chaos.INNER_PADDING) ∧
       p_w p = chunk_w * cw + (chunk_w - 1) * Chaos.INNER_PADDING ∧
       p_h p = chunk_h * ch + (chunk_h - 1) * Chaos.INNER_PADDING.
Proof.
  unfold Chaos.place. intros H.
  apply rbind_Ok in H as (img & _ & H).
  apply rbind_Ok in H as ([nw nh] & _ & H).
  apply rbind_Ok in H as (g & _ & [= <-]).
  eexists. split; [reflexivity|]. repeat split.
Qed.

(** The same for the body of Mode B. *)
Lemma zen_place_rectangle (images : list image) (cw ch : Z) (s s' : Zen3.state)
  (cur : nat) (chunk_w chunk_h row col : Z) :
  Zen3.place images cw ch s cur chunk_w chunk_h row col = Ok s' →
  ∃ p, Zen3.canvas_of s' = Zen3.canvas_of s ++ [p] ∧
       (p_row p, p_col p, p_chunk_w p, p_chunk_h p) = (row, col, chunk_w, chunk_h) ∧
       p_x p = Zen3.OUTER_PADDING + col * (cw + Zen3.INNER_PADDING) ∧
       p_y p = Zen3.OUTER_PADDING + row * (ch + Zen3.INNER_PADDING) ∧
       p_w p = chunk_w * cw + (chunk_w - 1) * Zen3.INNER_PADDING ∧
       p_h p = chunk_h * ch + (chunk_h - 1) * Zen3.INNER_PADDING.
Proof.
  unfold Zen3.place. intros H.
  apply rbind_Ok in H as (img & _ & H).
  apply rbind_Ok in H as ([[[[nw nh] crop] ox] oy] & _ & H).
  apply rbind_Ok in H as (g & _ & [= <-]).
  eexists. split; [reflexivity|]. repeat split.
Qed.

(** ** The end of the run of Mode A *)



(** A call of Mode A that returns a canvas was given a size that is not
    negative. *)
Lemma chaos_returned_size (t : tape) (h : store) (images : loc) (sw sh : Z)
  (cv : canvas) :
  (Chaos.create_chunk_grid_layout t h images sw sh).1 = Ok (Some cv) →
  0 ≤ sw ∧ 0 ≤ sh.
Proof.
  unfold Chaos.create_chunk_grid_layout.
  destruct (contents h images) as [|img imgs]; [discriminate|].
  destruct (image_new_cases sw sh) as [(Hw & Hh & ->)|[_ ->]]; [auto | discriminate].
Qed.

(** * The claims *)

(** C1.  In every run of either mode, the cell rectangles of two distinct
    pastes do not overlap, and a cell that is occupied at some point of the
    run is occupied at every later point.  The states of a run are those
    the loop reaches from the initial state; the loop of each layout
    function, and the canvas it returns, are among them. *)
Theorem placed_rectangles_never_overlap :
  (∀ images cw ch s s',
     chaos_steps images cw ch Chaos.initial s →
     chaos_steps images cw ch s s' →
     no_overlap (Chaos.canvas_of s') ∧
     grid_le (Chaos.grid_of s) (Chaos.grid_of s')) ∧
  (∀ t h images sw sh cv,
     (Chaos.create_chunk_grid_layout t h images sw sh).1 = Ok (Some cv) →
     ∃ s, chaos_steps (shuffle t 0 (contents h images)).1
            (Chaos.cell_width sw) (Chaos.cell_height sh) Chaos.initial s ∧
          Chaos.canvas_of s = cv) ∧
  (∀ t images cw ch cur s s',
     zen_steps t images cw ch (Zen3.initial cur) s →
     zen_steps t images cw ch s s' →
     no_overlap (Zen3.canvas_of s') ∧
     grid_le (Zen3.grid_of s) (Zen3.grid_of s')) ∧
  (∀ t h images sw sh fuel cv,
     (Zen3.create_freeflow_layout t h images sw sh fuel).1 = Some (Ok (Some cv)) →
     ∃ s, zen_steps t (shuffle t 0 (contents h images)).1
            (Zen3.cell_width sw) (Zen3.cell_height sh)
            (Zen3.initial (shuffle t 0 (contents h images)).2) s ∧
          Zen3.canvas_of s = cv).
Proof.
  split; [|split; [|split]].
  - intros images cw ch s s' H1 H2.
    destruct (chaos_steps_inv _ _ _ _ _ H1 (chaos_inv_initial images cw ch)) as [Hinv _].
    destruct (chaos_steps_inv _ _ _ _ _ H2 Hinv) as [Hinv' Hle].
    split; [|exact Hle]. destruct Hinv' as [(_ & _ & _ & Hdisj) _]. exact Hdisj.
  - intros t h images sw sh cv Hrun.
    destruct (chaos_returned_canvas _ _ _ _ _ _ Hrun) as (s & Hs & Hcv).
    exists s. split; [|exact Hcv]. by eapply chaos_chunk_loop_steps.
  - intros t images cw ch cur s s' H1 H2.
    destruct (zen_steps_inv _ _ _ _ _ _ H1 (zen_inv_initial images cw ch cur)) as [Hinv _].
    destruct (zen_steps_inv _ _ _ _ _ _ H2 Hinv) as [Hinv' Hle].
    split; [|exact Hle]. destruct Hinv' as [(_ & _ & _ & Hdisj) _]. exact Hdisj.
  - intros t h images sw sh fuel cv Hrun.
    destruct (zen_returned_canvas _ _ _ _ _ _ _ Hrun) as (s & Hs & Hcv).
    exists s. split; [|exact Hcv]. by eapply zen_while_loop_steps.
Qed.

Lemma placed_rectangles_never_overlap_witness :
  (∃ cv, (Chaos.create_chunk_grid_layout tape_20 store_four 0%nat 5120 1440).1
           = Ok (Some cv) ∧ no_overlap cv) ∧
  (∃ cv, (Zen3.create_freeflow_layout tape_20 store_one 0%nat 2560 1080 3).1
           = Some (Ok (Some cv)) ∧ no_overlap cv).
Proof.
  destruct placed_rectangles_never_overlap as (A1 & A2 & B1 & B2). split.
  - eexists. split; [vm_compute; reflexivity|].
    destruct (A2 tape_20 store_four 0%nat 5120 1440 _ ltac:(vm_compute; reflexivity))
      as (s & Hs & <-).
    exact (proj1 (A1 _ _ _ s s Hs (chaos_steps_refl _ _ _ s))).
  - eexists. split; [vm_compute; reflexivity|].
    destruct (B2 tape_20 store_one 0%nat 2560 1080 3%nat _ ltac:(vm_compute; reflexivity))
      as (s & Hs & <-).
    exact (proj1 (B1 _ _ _ _ _ s s Hs (zen_steps_refl _ _ _ _ s))).
Defined.

(** C2.  Every rectangle placed in either mode lies inside the grid, and no
    run ends in an index fault: every index used on the grid (and on the
    image queue and the catalog) is one of the list it is used on.  A read
    of the grid that does not fault is a read of a cell of
    [0, rows) x [0, cols). *)
Theorem placements_within_grid_bounds :
  (∀ images cw ch s p,
     chaos_steps images cw ch Chaos.initial s → p ∈ Chaos.canvas_of s →
     rect_in_bounds Chaos.GRID_ROWS Chaos.GRID_COLS
       (p_row p) (p_col p) (p_chunk_w p) (p_chunk_h p)) ∧
  (∀ images sw sh chunks, no_index_error (Chaos.layout images sw sh chunks)) ∧
  (∀ t images cw ch cur s p,
     zen_steps t images cw ch (Zen3.initial cur) s → p ∈ Zen3.canvas_of s →
     rect_in_bounds Zen3.GRID_ROWS Zen3.GRID_COLS
       (p_row p) (p_col p) (p_chunk_w p) (p_chunk_h p)) ∧
  (∀ t shuffled sw sh fuel r,
     Zen3.layout t shuffled sw sh fuel = Some r → no_index_error r) ∧
  (∀ rows cols g r c b,
     grid_wf rows cols g → grid_get g r c = Ok b → in_grid rows cols r c).
Proof.
  split; [|split; [|split; [|split]]].
  - intros images cw ch s p H Hp.
    destruct (chaos_steps_inv _ _ _ _ _ H (chaos_inv_initial images cw ch))
      as [[(_ & Hb & _) _] _]. by apply Hb.
  - intros images sw sh chunks.
    apply chaos_chunk_loop_spec, chaos_inv_initial.
  - intros t images cw ch cur s p H Hp.
    destruct (zen_steps_inv _ _ _ _ _ _ H (zen_inv_initial images cw ch cur))
      as [[(_ & Hb & _) _] _]. by apply Hb.
  - intros t shuffled sw sh fuel r H.
    eapply zen_while_loop_spec; [apply zen_inv_initial | exact H].
  - intros rows cols g r c b. apply grid_get_inside.
Qed.

Lemma placements_within_grid_bounds_witness :
  rect_in_bounds Chaos.GRID_ROWS Chaos.GRID_COLS 0 0 6 3 ∧
  in_grid Chaos.GRID_ROWS Chaos.GRID_COLS 5 23.
Proof.
  destruct placements_within_grid_bounds as (A1 & _ & _ & _ & G). split.
  - assert (∃ s p, Chaos.attempt [Image 100 100] 199 220 Chaos.initial (6, 3)
                     = Ok (Chaos.Placed s) ∧
                   p ∈ Chaos.canvas_of s ∧
                   (p_row p, p_col p, p_chunk_w p, p_chunk_h p) = (0, 0, 6, 3))
      as (s & p & Hatt & Hp & Heq).
    { eexists. eexists. split; [vm_compute; reflexivity|].
      split; [apply list_elem_of_singleton; reflexivity | reflexivity]. }
    injection Heq as E1 E2 E3 E4.
    assert (Hsteps : chaos_steps [Image 100 100] 199 220 Chaos.initial s)
      by (eapply chaos_steps_placed; [exact Hatt | constructor]).
    pose proof (A1 [Image 100 100] 199 220 s p Hsteps Hp) as H.
    rewrite E1, E2, E3, E4 in H. exact H.
  - apply (G Chaos.GRID_ROWS Chaos.GRID_COLS
             (new_grid Chaos.GRID_ROWS Chaos.GRID_COLS) 5 23 false).
    + split; [vm_compute; reflexivity|]. vm_compute. repeat constructor.
    + vm_compute. reflexivity.
Defined.

(** C3.  The loop of Mode B stops within [3 * len(images)] turns, whatever
    the tape, the images, the cell sizes and the catalog draws: run for
    that many turns or more, it has ended, by its condition or by an
    exception, and the attempt counter of the state it ends in is at most
    [3 * len(images)].  The layout function returns likewise. *)
Theorem mode_b_terminates_within_attempt_cap :
  ∀ (t : tape) (h : store) (images : loc) (shuffled : list image * nat)
    (sw sh : Z) (extra : nat),
    (∃ r, Zen3.layout t shuffled sw sh (3 * length shuffled.1 + extra) = Some r ∧
          ∀ s, r = Ok s →
               Zen3.placement_attempts s ≤ 3 * Z.of_nat (length shuffled.1)) ∧
    (∃ r, (Zen3.create_freeflow_layout t h images sw sh
             (3 * length (contents h images) + extra)).1 = Some r).
Proof.
  intros t h images shuffled sw sh extra.
  assert (Hterm : ∀ sh0 : list image * nat,
    ∃ r, Zen3.layout t sh0 sw sh (3 * length sh0.1 + extra) = Some r).
  { intros sh0. apply zen_while_loop_terminates. simpl. lia. }
  split.
  - destruct (Hterm shuffled) as [r Hr]. exists r. split; [exact Hr|].
    intros s ->.
    destruct (zen_while_loop_spec _ _ _ _ _ _ _
                (zen_inv_initial shuffled.1 (Zen3.cell_width sw) (Zen3.cell_height sh)
                   shuffled.2) Hr) as [_ Hspec].
    destruct (Hspec s eq_refl) as (_ & _ & _ & Hatt). simpl in Hatt. lia.
  - unfold Zen3.create_freeflow_layout.
    destruct (contents h images) as [|img imgs] eqn:E; [eauto|].
    destruct (image_new sw sh); [|eauto].
    cbn [fst]. rewrite !contents_insert.
    set (l := img :: imgs).
    destruct (Hterm ((shuffle t 0 l).1, (shuffle t 0 l).2)) as [r Hr].
    cbn [fst] in Hr.
    assert (Hlen : length (shuffle t 0 l).1 = length l)
      by (apply Permutation_length, shuffle_Permutation).
    rewrite Hlen in Hr. rewrite Hr. eauto.
Qed.

(** C4.  The scan of Mode A returns the first anchor of the grid, in
    row-major order, at which the rectangle of the shape is inside the grid
    and free, and no anchor exactly when there is none; the loops of Mode A
    run their body at that anchor; and on the empty grid of 6 by 24 the
    shape of 2 by 1 cells is anchored at [(0, 0)]. *)
Theorem deterministic_policy_first_anchor :
  (∀ g chunk_w chunk_h,
     grid_wf Chaos.GRID_ROWS Chaos.GRID_COLS g →
     ∃ res, first_fit Chaos.GRID_ROWS Chaos.GRID_COLS g chunk_w chunk_h = Ok res ∧
       match res with
       | Some (r, c) =>
           in_grid Chaos.GRID_ROWS Chaos.GRID_COLS r c ∧
           rect_free Chaos.GRID_ROWS Chaos.GRID_COLS g chunk_w chunk_h r c ∧
           ∀ r' c', in_grid Chaos.GRID_ROWS Chaos.GRID_COLS r' c' →
                    row_major_lt r' c' r c →
                    ¬ rect_free Chaos.GRID_ROWS Chaos.GRID_COLS g chunk_w chunk_h r' c'
       | None =>
           ∀ r' c', in_grid Chaos.GRID_ROWS Chaos.GRID_COLS r' c' →
                    ¬ rect_free Chaos.GRID_ROWS Chaos.GRID_COLS g chunk_w chunk_h r' c'
       end) ∧
  (∀ images cw ch s chunk,
     Chaos.attempt images cw ch s chunk =
     let! found := first_fit Chaos.GRID_ROWS Chaos.GRID_COLS (Chaos.grid_of s)
                     chunk.1 chunk.2 in
     match found with
     | None => Ok Chaos.NotPlaced
     | Some (r, c) =>
         if Chaos.image_idx s >=? Z.of_nat (length images) then Ok Chaos.Returned
         else let! s' := Chaos.place images cw ch s chunk.1 chunk.2 r c in
              Ok (Chaos.Placed s')
     end) ∧
  first_fit 6 24 (new_grid 6 24) 2 1 = Ok (Some (0, 0)).
Proof.
  split; [|split].
  - intros g chunk_w chunk_h Hwf. by apply first_fit_spec.
  - apply chaos_attempt_first_fit.
  - vm_compute. reflexivity.
Qed.

Lemma deterministic_policy_first_anchor_witness :
  ∃ res, first_fit Chaos.GRID_ROWS Chaos.GRID_COLS
           (new_grid Chaos.GRID_ROWS Chaos.GRID_COLS) 4 3 = Ok res ∧
    match res with
    | Some (r, c) =>
        in_grid Chaos.GRID_ROWS Chaos.GRID_COLS r c ∧
        rect_free Chaos.GRID_ROWS Chaos.GRID_COLS
          (new_grid Chaos.GRID_ROWS Chaos.GRID_COLS) 4 3 r c ∧
        ∀ r' c', in_grid Chaos.GRID_ROWS Chaos.GRID_COLS r' c' →
                 row_major_lt r' c' r c →
                 ¬ rect_free Chaos.GRID_ROWS Chaos.GRID_COLS
                     (new_grid Chaos.GRID_ROWS Chaos.GRID_COLS) 4 3 r' c'
    | None =>
        ∀ r' c', in_grid Chaos.GRID_ROWS Chaos.GRID_COLS r' c' →
                 ¬ rect_free Chaos.GRID_ROWS Chaos.GRID_COLS
                     (new_grid Chaos.GRID_ROWS Chaos.GRID_COLS) 4 3 r' c'
    end.
Proof.
  apply (proj1 deterministic_policy_first_anchor).
  split; [vm_compute; reflexivity|]. vm_compute. repeat constructor.
Defined.

(** C5.  Mode B, on a screen of 2560 by 1080 pixels, with one image of 87
    by 62 pixels and a first draw that selects the chunk of 2 by 1 cells:
    the target rectangle is 174 by 124 pixels, the image has its aspect
    ratio, and [int(w / aspect_img)] is 123: the quotient of the two floats
    is just below 124.  The image is pasted uncropped, 174 by 123 pixels,
    one row short of its rectangle. *)
Theorem fit_with_crop_one_row_short :
  Zen3.fit_with_crop (Image 87 62) 20 20 174 124 = Ok (174, 123, None, 20, 21) ∧
  ∃ p, (Zen3.create_freeflow_layout tape_20 store_one 0%nat 2560 1080 3).1
         = Some (Ok (Some [p])) ∧
       p_image p = Image 87 62 ∧
       (p_chunk_w p, p_chunk_h p) = (2, 1) ∧
       (p_w p, p_h p) = (174, 124) ∧
       (pasted_width p, pasted_height p) = (174, 123).
Proof.
  split; [vm_compute; reflexivity|].
  eexists. split; [vm_compute; reflexivity|]. repeat split.
Qed.

(** C6.  Mode A, on a screen of 5120 by 1440 pixels, with four images of
    205 by 342 pixels: the fourth image goes to the chunk of 2 by 3 cells,
    whose rectangle is 410 by 684 pixels and has the aspect ratio of the
    image, and [int(w / aspect_img)] is 683.  The image is resized to 410
    by 683 pixels: it matches the rectangle in width and is smaller than
    the rectangle in height. *)
Theorem scale_to_cover_one_row_short :
  Chaos.scaled_size (Image 205 342) 410 684 = Ok (410, 683) ∧
  ∃ cv p, (Chaos.create_chunk_grid_layout tape_20 store_four 0%nat 5120 1440).1
            = Ok (Some cv) ∧
          cv !! 3%nat = Some p ∧
          p_image p = Image 205 342 ∧
          (p_chunk_w p, p_chunk_h p) = (2, 3) ∧
          (p_w p, p_h p) = (410, 684) ∧
          (p_new_width p, p_new_height p) = (410, 683).
Proof.
  split; [vm_compute; reflexivity|].
  eexists. eexists. split; [vm_compute; reflexivity|]. repeat split.
Qed.

(** C7.  In both modes the body run for a placement adds one paste, for
    the anchor and the shape of the placement, whose pixel rectangle is
    [outer + index * (cell + inner)] for its origin and
    [cells * cell + (cells - 1) * inner] for its size, on each axis, where
    the cell size is [(screen - 2 * outer - (n - 1) * inner) // n] for the
    [n] cells of the grid on that axis, computed once from the screen.  In
    the state a run ends in there is one paste for each image placed, and
    every paste has the rectangle of the formula for its own anchor and
    shape. *)
Theorem pixel_geometry_follows_formula :
  (∀ images sw sh (s s' : Chaos.state) chunk_w chunk_h row col,
     Chaos.place images (Chaos.cell_width sw) (Chaos.cell_height sh) s
       chunk_w chunk_h row col = Ok s' →
     ∃ p, Chaos.canvas_of s' = Chaos.canvas_of s ++ [p] ∧
          (p_row p, p_col p, p_chunk_w p, p_chunk_h p) = (row, col, chunk_w, chunk_h) ∧
          p_x p = Chaos.OUTER_PADDING + col *
                    (cell_size sw Chaos.GRID_COLS Chaos.OUTER_PADDING Chaos.INNER_PADDING
                     + Chaos.INNER_PADDING) ∧
          p_y p = Chaos.OUTER_PADDING + row *
                    (cell_size sh Chaos.GRID_ROWS Chaos.OUTER_PADDING Chaos.INNER_PADDING
                     + Chaos.INNER_PADDING) ∧
          p_w p = chunk_w *
                    cell_size sw Chaos.GRID_COLS Chaos.OUTER_PADDING Chaos.INNER_PADDING
                  + (chunk_w - 1) * Chaos.INNER_PADDING ∧
          p_h p = chunk_h *
                    cell_size sh Chaos.GRID_ROWS Chaos.OUTER_PADDING Chaos.INNER_PADDING
                  + (chunk_h - 1) * Chaos.INNER_PADDING) ∧
  (∀ images sw sh (s s' : Zen3.state) cur chunk_w chunk_h row col,
     Zen3.place images (Zen3.cell_width sw) (Zen3.cell_height sh) s cur
       chunk_w chunk_h row col = Ok s' →
     ∃ p, Zen3.canvas_of s' = Zen3.canvas_of s ++ [p] ∧
          (p_row p, p_col p, p_chunk_w p, p_chunk_h p) = (row, col, chunk_w, chunk_h) ∧
          p_x p = Zen3.OUTER_PADDING + col *
                    (cell_size sw Zen3.GRID_COLS Zen3.OUTER_PADDING Zen3.INNER_PADDING
                     + Zen3.INNER_PADDING) ∧
          p_y p = Zen3.OUTER_PADDING + row *
                    (cell_size sh Zen3.GRID_ROWS Zen3.OUTER_PADDING Zen3.INNER_PADDING
                     + Zen3.INNER_PADDING) ∧
          p_w p = chunk_w *
                    cell_size sw Zen3.GRID_COLS Zen3.OUTER_PADDING Zen3.INNER_PADDING
                  + (chunk_w - 1) * Zen3.INNER_PADDING ∧
          p_h p = chunk_h *
                    cell_size sh Zen3.GRID_ROWS Zen3.OUTER_PADDING Zen3.INNER_PADDING
                  + (chunk_h - 1) * Zen3.INNER_PADDING) ∧
  (∀ images sw sh chunks s,
     Chaos.layout images sw sh chunks = Ok s →
     Z.of_nat (length (Chaos.canvas_of s)) = Chaos.image_idx s ∧
     Forall (geometry_ok Chaos.OUTER_PADDING Chaos.INNER_PADDING
               (cell_size sw Chaos.GRID_COLS Chaos.OUTER_PADDING Chaos.INNER_PADDING)
               (cell_size sh Chaos.GRID_ROWS Chaos.OUTER_PADDING Chaos.INNER_PADDING))
       (Chaos.canvas_of s)) ∧
  (∀ t shuffled sw sh fuel s,
     Zen3.layout t shuffled sw sh fuel = Some (Ok s) →
     Z.of_nat (length (Zen3.canvas_of s)) = Zen3.image_idx s ∧
     Forall (geometry_ok Zen3.OUTER_PADDING Zen3.INNER_PADDING
               (cell_size sw Zen3.GRID_COLS Zen3.OUTER_PADDING Zen3.INNER_PADDING)
               (cell_size sh Zen3.GRID_ROWS Zen3.OUTER_PADDING Zen3.INNER_PADDING))
       (Zen3.canvas_of s)).
Proof.
  split; [|split; [|split]].
  - intros images sw sh s s' chunk_w chunk_h row col H.
    exact (chaos_place_rectangle _ _ _ _ _ _ _ _ _ H).
  - intros images sw sh s s' cur chunk_w chunk_h row col H.
    exact (zen_place_rectangle _ _ _ _ _ _ _ _ _ _ H).
  - intros images sw sh chunks s Hrun.
    destruct (chaos_chunk_loop_spec images (Chaos.cell_width sw) (Chaos.cell_height sh)
                chunks Chaos.initial (chaos_inv_initial _ _ _)) as [_ Hspec].
    destruct (Hspec s Hrun) as ((_ & Hidx & _ & _ & Hgeo) & _).
    split; [by rewrite Hidx | exact Hgeo].
  - intros t shuffled sw sh fuel s Hrun.
    destruct (zen_while_loop_spec _ _ _ _ _ _ _
                (zen_inv_initial shuffled.1 (Zen3.cell_width sw) (Zen3.cell_height sh)
                   shuffled.2) Hrun) as [_ Hspec].
    destruct (Hspec s eq_refl) as ((_ & Hidx & _ & _ & Hgeo) & _).
    split; [by rewrite Hidx | exact Hgeo].
Qed.

Lemma pixel_geometry_follows_formula_witness :
  (∃ s' p, Chaos.place [Image 100 100] (Chaos.cell_width 5120) (Chaos.cell_height 1440)
             Chaos.initial 4 3 2 5 = Ok s' ∧
           Chaos.canvas_of s' = [] ++ [p] ∧
           (p_row p, p_col p, p_chunk_w p, p_chunk_h p) = (2, 5, 4, 3) ∧
           (p_x p, p_y p, p_w p, p_h p) = (1085, 494, 832, 684)) ∧
  (∃ s' p, Zen3.place [Image 87 62] (Zen3.cell_width 2560) (Zen3.cell_height 1080)
             (Zen3.initial 0) 1 2 1 3 4 = Ok s' ∧
           Zen3.canvas_of s' = [] ++ [p] ∧
           (p_row p, p_col p, p_chunk_w p, p_chunk_h p) = (3, 4, 2, 1) ∧
           (p_x p, p_y p, p_w p, p_h p) = (380, 410, 174, 124)) ∧
  (∃ s, Chaos.layout [Image 100 100] 5120 1440 [(6, 3)] = Ok s ∧
        Z.of_nat (length (Chaos.canvas_of s)) = 1 ∧
        Forall (geometry_ok 30 12 199 220) (Chaos.canvas_of s)) ∧
  (∃ s, Zen3.layout tape_20 ([Image 87 62], O) 2560 1080 3 = Some (Ok s) ∧
        Z.of_nat (length (Zen3.canvas_of s)) = 1 ∧
        Forall (geometry_ok 20 6 84 124) (Zen3.canvas_of s)).
Proof.
  destruct pixel_geometry_follows_formula as (A & B & C & D).
  split; [|split; [|split]].
  - eexists.
    match goal with |- ∃ p, ?run = Ok ?s ∧ _ =>
      assert (Hrun : run = Ok s) by (vm_compute; reflexivity)
    end.
    destruct (A _ _ _ _ _ _ _ _ _ Hrun) as (p & Hcv & Hanchor & Hx & Hy & Hw & Hh).
    exists p. split; [exact Hrun|]. split; [exact Hcv|]. split; [exact Hanchor|].
    rewrite Hx, Hy, Hw, Hh. vm_compute. reflexivity.
  - eexists.
    match goal with |- ∃ p, ?run = Ok ?s ∧ _ =>
      assert (Hrun : run = Ok s) by (vm_compute; reflexivity)
    end.
    destruct (B _ _ _ _ _ _ _ _ _ _ Hrun) as (p & Hcv & Hanchor & Hx & Hy & Hw & Hh).
    exists p. split; [exact Hrun|]. split; [exact Hcv|]. split; [exact Hanchor|].
    rewrite Hx, Hy, Hw, Hh. vm_compute. reflexivity.
  - eexists. split; [vm_compute; reflexivity|].
    match goal with |- Z.of_nat (length (Chaos.canvas_of ?s)) = _ ∧ _ =>
      destruct (C [Image 100 100] 5120 1440 [(6, 3)] s ltac:(vm_compute; reflexivity))
        as [Hlen Hgeo]
    end.
    split; [rewrite Hlen; reflexivity | exact Hgeo].
  - eexists. split; [vm_compute; reflexivity|].
    match goal with |- Z.of_nat (length (Zen3.canvas_of ?s)) = _ ∧ _ =>
      destruct (D tape_20 ([Image 87 62], O) 2560 1080 3%nat s ltac:(vm_compute; reflexivity))
        as [Hlen Hgeo]
    end.
    split; [rewrite Hlen; reflexivity | exact Hgeo].
Defined.

(** C8.  One turn of the loop of Mode B, on a grid of the right shape.
    When the chunk drawn has no placement, the position is that of the
    first of the fallbacks 2 by 1, 1 by 2, 1 by 1 that has one, and the
    turn, if it raises nothing, pastes one image in that shape at that
    position.  When no fallback has a placement either, the turn changes
    neither the grid nor the image index nor the canvas, counts one
    attempt, and the loop goes on with its next turn. *)
Theorem mode_b_fallback_order :
  ∀ (t : tape) (images : list image) (cw ch : Z) (s : Zen3.state),
    grid_wf Zen3.GRID_ROWS Zen3.GRID_COLS (Zen3.grid_of s) →
    Zen3.fallback_chunks = [(2, 1); (1, 2); (1, 1)] ∧
    ∃ drawn res cur',
      Zen3.get_random_chunk t (Zen3.cursor s) = Ok (drawn, S (Zen3.cursor s)) ∧
      Zen3.choose t (Zen3.cursor s) (Zen3.grid_of s) = Ok (res, cur') ∧
      (¬ has_placement (Zen3.grid_of s) drawn →
       match res with
       | Some (r, c, w, h) =>
           first_with_placement (Zen3.grid_of s) Zen3.fallback_chunks (w, h) ∧
           in_grid Zen3.GRID_ROWS Zen3.GRID_COLS r c ∧
           rect_free Zen3.GRID_ROWS Zen3.GRID_COLS (Zen3.grid_of s) w h r c ∧
           ∀ s', Zen3.iteration t images cw ch s = Ok s' →
                 Zen3.image_idx s' = Zen3.image_idx s + 1 ∧
                 ∃ p, Zen3.canvas_of s' = Zen3.canvas_of s ++ [p] ∧
                      (p_row p, p_col p, p_chunk_w p, p_chunk_h p) = (r, c, w, h)
       | None =>
           (∀ f, f ∈ Zen3.fallback_chunks → ¬ has_placement (Zen3.grid_of s) f) ∧
           Zen3.iteration t images cw ch s =
             Ok (Zen3.State (Zen3.grid_of s) (Zen3.image_idx s)
                   (Zen3.placement_attempts s + 1) (Zen3.canvas_of s) cur') ∧
           ∀ fuel, Zen3.guard images s = true →
                   Zen3.while_loop t images cw ch (S fuel) s =
                   Zen3.while_loop t images cw ch fuel
                     (Zen3.State (Zen3.grid_of s) (Zen3.image_idx s)
                        (Zen3.placement_attempts s + 1) (Zen3.canvas_of s) cur')
       end).
Proof.
  intros t images cw ch s Hwf. split; [reflexivity|].
  destruct (choose_spec t (Zen3.cursor s) (Zen3.grid_of s) Hwf)
    as (drawn & res & cur' & Hdraw & Hchoose & Hspec).
  exists drawn, res, cur'. split; [exact Hdraw|]. split; [exact Hchoose|].
  intros Hnone. destruct res as [[[[r c] w] h]|].
  - destruct Hspec as (Hin & Hfree & [[Hhas _]|[_ (before & after & Hsplit & Hbefore)]]);
      [contradiction|].
    split; [|split; [exact Hin|split; [exact Hfree|]]].
    + exists before, after. split; [exact Hsplit|]. split; [exact Hbefore|].
      by exists r, c.
    + intros s'. unfold Zen3.iteration. rewrite Hchoose. simpl.
      apply zen_place_shape.
  - destruct Hspec as [_ Hfall]. split; [exact Hfall|].
    assert (Hit : Zen3.iteration t images cw ch s =
                  Ok (Zen3.State (Zen3.grid_of s) (Zen3.image_idx s)
                        (Zen3.placement_attempts s + 1) (Zen3.canvas_of s) cur'))
      by (unfold Zen3.iteration; rewrite Hchoose; reflexivity).
    split; [exact Hit|]. intros fuel G. simpl. rewrite G, Hit. reflexivity.
Qed.

Lemma mode_b_fallback_order_witness :
  Zen3.fallback_chunks = [(2, 1); (1, 2); (1, 1)] ∧
  ∃ drawn res cur',
    Zen3.get_random_chunk tape_20 0 = Ok (drawn, 1%nat) ∧
    Zen3.choose tape_20 0 nearly_full_grid = Ok (res, cur') ∧
    (¬ has_placement nearly_full_grid drawn →
     match res with
     | Some (r, c, w, h) =>
         first_with_placement nearly_full_grid Zen3.fallback_chunks (w, h) ∧
         in_grid Zen3.GRID_ROWS Zen3.GRID_COLS r c ∧
         rect_free Zen3.GRID_ROWS Zen3.GRID_COLS nearly_full_grid w h r c ∧
         ∀ s', Zen3.iteration tape_20 [Image 87 62] 84 124
                 (Zen3.State nearly_full_grid 0 0 [] 0) = Ok s' →
               Zen3.image_idx s' = 0 + 1 ∧
               ∃ p, Zen3.canvas_of s' = [] ++ [p] ∧
                    (p_row p, p_col p, p_chunk_w p, p_chunk_h p) = (r, c, w, h)
     | None =>
         (∀ f, f ∈ Zen3.fallback_chunks → ¬ has_placement nearly_full_grid f) ∧
         Zen3.iteration tape_20 [Image 87 62] 84 124
           (Zen3.State nearly_full_grid 0 0 [] 0) =
           Ok (Zen3.State nearly_full_grid 0 (0 + 1) [] cur') ∧
         ∀ fuel, Zen3.guard [Image 87 62] (Zen3.State nearly_full_grid 0 0 [] 0) = true →
                 Zen3.while_loop tape_20 [Image 87 62] 84 124 (S fuel)
                   (Zen3.State nearly_full_grid 0 0 [] 0) =
                 Zen3.while_loop tape_20 [Image 87 62] 84 124 fuel
                   (Zen3.State nearly_full_grid 0 (0 + 1) [] cur')
     end).
Proof.
  apply (mode_b_fallback_order tape_20 [Image 87 62] 84 124
           (Zen3.State nearly_full_grid 0 0 [] 0)).
  split; [vm_compute; reflexivity|]. vm_compute. repeat constructor.
Defined.

(** The fallbacks at work: on the grid that is full but for its last cell,
    the chunk drawn, 2 by 1, and the fallbacks 2 by 1 and 1 by 2 have no
    placement, and the fallback 1 by 1 is placed on the last cell; on the
    full grid nothing is chosen. *)
Example fallback_reaches_last_shape :
  Zen3.choose tape_20 0 nearly_full_grid = Ok (Some (7, 27, 1, 1), 2%nat) ∧
  Zen3.choose tape_20 0 (replicate 8 (replicate 28 true)) = Ok (None, 1%nat).
Proof. split; vm_compute; reflexivity. Qed.

(** An image of aspect ratio 2:1 in a square rectangle, in Mode B: the
    crop keeps the middle of the resized image, and of an odd excess the
    right side loses one pixel more than the left. *)
Example two_to_one_in_square :
  Zen3.fit_with_crop (Image 200 100) 20 20 100 100
    = Ok (200, 100, Some (50, 0, 150, 100), 20, 20) ∧
  Zen3.fit_with_crop (Image 2 1) 20 20 101 101
    = Ok (202, 101, Some (50, 0, 151, 101), 20, 20).
Proof. split; vm_compute; reflexivity. Qed.

(** The catalog is cycled: in the run of Mode A on thirty images, the
    entry 17 of the chunk sequence, the shape 4 by 3, finds no anchor and
    is passed over, and the entry 25 is the same shape again. *)
Example shape_recurs_with_catalog :
  retried_after_failure thirty_squares 5120 1440 (repeat_list Chaos.CHUNKS 100) 17 25.
Proof.
  exists (4, 3). eexists. eexists. eexists.
  split; [lia|]. split; [reflexivity|]. split; [reflexivity|].
  split; [vm_compute; reflexivity|]. split; [vm_compute; reflexivity|].
  split; [vm_compute; reflexivity|]. split; [vm_compute; reflexivity|].
  split; [vm_compute; reflexivity|]. vm_compute. reflexivity.
Qed.




(** C10.  Mode A shuffles the list it is given.  When the call returns a
    canvas, the caller's list holds the shuffled sequence, a permutation
    of what it held, and the pastes of the canvas are the first images of
    the list as it is now, in its order.  The shuffle does reorder: the
    last place of the shuffled list holds the element that the first draw
    selects.  (The canvas is made before the shuffle: for a negative screen
    size the call raises [ValueError] and the list is as it was.)  Mode B
    shuffles a copy: after the call, whatever its result, the caller's
    list is as it was, while the pastes of the canvas follow the shuffled
    copy. *)
Theorem image_list_shuffled_in_place_or_copied :
  ∀ (t : tape) (h : store) (images : loc) (sw sh : Z) (fuel : nat),
    (∀ cv, (Chaos.create_chunk_grid_layout t h images sw sh).1 = Ok (Some cv) →
       contents (Chaos.create_chunk_grid_layout t h images sw sh).2 images
         = (shuffle t 0 (contents h images)).1 ∧
       contents (Chaos.create_chunk_grid_layout t h images sw sh).2 images
         ≡ₚ contents h images ∧
       queue_order (contents (Chaos.create_chunk_grid_layout t h images sw sh).2 images)
         cv) ∧
    (contents h images ≠ [] → sw < 0 ∨ sh < 0 →
     Chaos.create_chunk_grid_layout t h images sw sh = (Raise ValueError, h)) ∧
    (shuffle t 0 (contents h images)).1 !! Nat.pred (length (contents h images))
      = contents h images !! randbelow t 0 (length (contents h images)) ∧
    (Zen3.create_freeflow_layout t h images sw sh fuel).2 !! images = h !! images ∧
    contents (Zen3.create_freeflow_layout t h images sw sh fuel).2 images
      = contents h images ∧
    (∀ cv, (Zen3.create_freeflow_layout t h images sw sh fuel).1 = Some (Ok (Some cv)) →
       queue_order (shuffle t 0 (contents h images)).1 cv).
Proof.
  intros t h images sw sh fuel.
  destruct (chaos_store t h images sw sh) as (Hshuf & Hneg & _).
  assert (Hzen : (Zen3.create_freeflow_layout t h images sw sh fuel).2 !! images
                 = h !! images).
  { destruct (h !! images) as [l|] eqn:E;
      [rewrite <- E; apply zen_store; rewrite E; eauto|].
    unfold Zen3.create_freeflow_layout, contents. rewrite E. simpl. exact E. }
  split; [|split; [exact Hneg|split; [apply shuffle_last|split; [exact Hzen|split]]]].
  - intros cv Hrun.
    destruct (chaos_returned_size _ _ _ _ _ _ Hrun) as [Hw Hh].
    rewrite (Hshuf Hw Hh). split; [reflexivity|].
    split; [apply shuffle_Permutation|].
    destruct (chaos_returned_canvas _ _ _ _ _ _ Hrun) as (s & Hs & <-).
    destruct (chaos_chunk_loop_spec (shuffle t 0 (contents h images)).1
                (Chaos.cell_width sw) (Chaos.cell_height sh)
                (repeat_list Chaos.CHUNKS 100) Chaos.initial (chaos_inv_initial _ _ _))
      as [_ Hspec].
    destruct (Hspec s Hs) as ((_ & _ & _ & Hqueue & _) & _). exact Hqueue.
  - unfold contents. by rewrite Hzen.
  - intros cv Hrun.
    destruct (zen_returned_canvas _ _ _ _ _ _ _ Hrun) as (s & Hs & <-).
    destruct (zen_while_loop_spec _ _ _ _ _ _ _
                (zen_inv_initial (shuffle t 0 (contents h images)).1
                   (Zen3.cell_width sw) (Zen3.cell_height sh)
                   (shuffle t 0 (contents h images)).2) Hs) as [_ Hspec].
    destruct (Hspec s eq_refl) as ((_ & _ & _ & Hqueue & _) & _). exact Hqueue.
Qed.

(** On a list of three images, with a first draw of 20 (20 mod 3 is 2, the
    last place, which stays) and then 0: Mode A leaves the caller's list
    in another order, Mode B leaves it as it was and places the images in
    the order of its shuffled copy. *)
Lemma image_list_shuffled_in_place_or_copied_witness :
  ∃ cv cv',
    (Chaos.create_chunk_grid_layout tape_20 store_three 0%nat 5120 1440).1
      = Ok (Some cv) ∧
    contents (Chaos.create_chunk_grid_layout tape_20 store_three 0%nat 5120 1440).2 0%nat
      = [Image 2 2; Image 1 1; Image 3 3] ∧
    p_image <$> cv = [Image 2 2; Image 1 1; Image 3 3] ∧
    (Zen3.create_freeflow_layout tape_20 store_three 0%nat 5120 1440 9).1
      = Some (Ok (Some cv')) ∧
    contents (Zen3.create_freeflow_layout tape_20 store_three 0%nat 5120 1440 9).2 0%nat
      = [Image 1 1; Image 2 2; Image 3 3] ∧
    queue_order [Image 2 2; Image 1 1; Image 3 3] cv'.
Proof.
  destruct (image_list_shuffled_in_place_or_copied tape_20 store_three 0%nat 5120 1440 9)
    as (A & _ & _ & _ & B & C).
  eexists. eexists.
  match goal with |- ?runA = Ok (Some ?cv) ∧ _ ∧ _ ∧ ?runB = Some (Ok (Some ?cv')) ∧ _ =>
    assert (HrunA : runA = Ok (Some cv)) by (vm_compute; reflexivity);
    assert (HrunB : runB = Some (Ok (Some cv'))) by (vm_compute; reflexivity)
  end.
  destruct (A _ HrunA) as (Hstore & _ & _).
  split; [exact HrunA|]. split; [rewrite Hstore; vm_compute; reflexivity|].
  split; [vm_compute; reflexivity|]. split; [exact HrunB|].
  split; [rewrite B; vm_compute; reflexivity|].
  exact (C _ HrunB).
Defined.

(** * Further properties of the code *)

(** ** [fits] and [occupy] *)

(** X1.  On a grid of the right shape and at an anchor that is not
    negative, [fits] raises nothing and answers [True] exactly when the
    rectangle lies inside the grid and all its cells are free. *)
Theorem fits_decides_free_rectangle (rows cols : Z) (g : grid)
  (chunk_w chunk_h row col : Z) :
  grid_wf rows cols g → 0 ≤ row → 0 ≤ col →
  (fits rows cols g chunk_w chunk_h row col = Ok true ↔
     rect_free rows cols g chunk_w chunk_h row col) ∧
  (fits rows cols g chunk_w chunk_h row col = Ok false ↔
     ¬ rect_free rows cols g chunk_w chunk_h row col).
Proof.
  intros Hwf Hrow Hcol.
  destruct (fits_spec rows cols g chunk_w chunk_h row col Hwf Hrow Hcol)
    as (b & Hb & Hiff).
  rewrite Hb. destruct b.
  - split.
    + split; [intros _; by apply Hiff | reflexivity].
    + split; [discriminate|]. intros Hn. exfalso. apply Hn. by apply Hiff.
  - split.
    + split; [discriminate|]. intros Hfree. apply Hiff in Hfree. discriminate.
    + split; [|reflexivity]. intros _ Hfree. apply Hiff in Hfree. discriminate.
Qed.

Lemma fits_decides_free_rectangle_witness :
  (fits 6 24 (new_grid 6 24) 6 3 3 18 = Ok true ↔
     rect_free 6 24 (new_grid 6 24) 6 3 3 18) ∧
  (fits 6 24 (new_grid 6 24) 6 3 3 18 = Ok false ↔
     ¬ rect_free 6 24 (new_grid 6 24) 6 3 3 18).
Proof.
  apply (fits_decides_free_rectangle 6 24 (new_grid 6 24) 6 3 3 18); [|lia|lia].
  split; [vm_compute; reflexivity|]. vm_compute. repeat constructor.
Defined.

(** X2.  [occupy] on a rectangle inside the grid raises nothing, occupies
    the cells of the rectangle and changes no other cell.  After it, a
    rectangle that shares a cell with it does not fit, and a rectangle that
    shares none fits exactly when it did before. *)
Theorem occupy_marks_exactly_the_rectangle (rows cols : Z) (g : grid)
  (chunk_w chunk_h row col : Z) :
  grid_wf rows cols g →
  rect_in_bounds rows cols row col chunk_w chunk_h →
  ∃ g', occupy g chunk_w chunk_h row col = Ok g' ∧
    grid_wf rows cols g' ∧
    (∀ r c, grid_get g' r c =
            if in_rect row col chunk_w chunk_h r c then Ok true else grid_get g r c) ∧
    (∀ w2 h2 row2 col2, 0 ≤ row2 → 0 ≤ col2 →
       (∃ r c, in_rect row col chunk_w chunk_h r c = true ∧
               in_rect row2 col2 w2 h2 r c = true) →
       fits rows cols g' w2 h2 row2 col2 = Ok false) ∧
    (∀ w2 h2 row2 col2, 0 ≤ row2 → 0 ≤ col2 →
       (∀ r c, in_rect row col chunk_w chunk_h r c = true →
               in_rect row2 col2 w2 h2 r c = true → False) →
       fits rows cols g' w2 h2 row2 col2 = fits rows cols g w2 h2 row2 col2).
Proof.
  intros Hwf Hin.
  destruct (occupy_spec rows cols g chunk_w chunk_h row col Hwf Hin)
    as (g' & Hocc & Hwf' & Hget).
  exists g'. split; [exact Hocc|]. split; [exact Hwf'|]. split; [exact Hget|]. split.
  - intros w2 h2 row2 col2 Hrow2 Hcol2 (r & c & H1 & H2).
    destruct (fits_spec rows cols g' w2 h2 row2 col2 Hwf' Hrow2 Hcol2) as (b & Hb & Hiff).
    rewrite Hb. destruct b; [|reflexivity].
    destruct (proj1 Hiff eq_refl) as (_ & _ & Hfree).
    specialize (Hfree r c H2). unfold free in Hfree. rewrite Hget, H1 in Hfree.
    discriminate.
  - intros w2 h2 row2 col2 Hrow2 Hcol2 Hdisj.
    destruct (fits_spec rows cols g' w2 h2 row2 col2 Hwf' Hrow2 Hcol2) as (b' & Hb' & Hiff').
    destruct (fits_spec rows cols g w2 h2 row2 col2 Hwf Hrow2 Hcol2) as (b & Hb & Hiff).
    rewrite Hb', Hb. f_equal.
    assert (Hsame : rect_free rows cols g' w2 h2 row2 col2 ↔
                    rect_free rows cols g w2 h2 row2 col2).
    { unfold rect_free, free. split; intros (Hh & Hw & Hfree);
        (split; [exact Hh|]; split; [exact Hw|]); intros r c Hrc;
        specialize (Hfree r c Hrc).
      - rewrite Hget in Hfree.
        destruct (in_rect row col chunk_w chunk_h r c) eqn:E; [|exact Hfree].
        exfalso. by apply (Hdisj r c).
      - rewrite Hget.
        destruct (in_rect row col chunk_w chunk_h r c) eqn:E; [|exact Hfree].
        exfalso. by apply (Hdisj r c). }
    destruct b', b; try reflexivity.
    + assert (false = true) as [=]. apply Hiff, Hsame, Hiff'. reflexivity.
    + assert (false = true) as [=]. apply Hiff', Hsame, Hiff. reflexivity.
Qed.

Lemma occupy_marks_exactly_the_rectangle_witness :
  ∃ g', occupy (new_grid 8 28) 4 2 0 0 = Ok g' ∧
        fits 8 28 g' 3 3 1 3 = Ok false ∧
        fits 8 28 g' 3 3 2 3 = fits 8 28 (new_grid 8 28) 3 3 2 3.
Proof.
  destruct (occupy_marks_exactly_the_rectangle 8 28 (new_grid 8 28) 4 2 0 0)
    as (g' & Hocc & _ & _ & Hover & Hdisj).
  - split; [vm_compute; reflexivity|]. vm_compute. repeat constructor.
  - unfold rect_in_bounds. lia.
  - exists g'. split; [exact Hocc|]. split.
    + apply Hover; [lia | lia |]. exists 1, 3. split; reflexivity.
    + apply Hdisj; [lia | lia |].
      intros r c [H1 _]%in_rect_spec [H2 _]%in_rect_spec. lia.
Defined.

Lemma setitem_out_of_range {A : Type} (l : list A) (i : Z) (v : A) :
  Z.of_nat (length l) ≤ i → setitem l i v = Raise IndexError.
Proof.
  intros H. unfold setitem. rewrite decide_True by lia.
  rewrite decide_False by lia. reflexivity.
Qed.

Lemma getitem_out_of_range {A : Type} (l : list A) (i : Z) :
  Z.of_nat (length l) ≤ i → getitem l i = Raise IndexError.
Proof.
  intros H. unfold getitem. rewrite decide_True by lia.
  rewrite lookup_ge_None_2 by lia. reflexivity.
Qed.

Lemma grid_set_out_of_range (rows cols : Z) (g : grid) (r c : Z) (v : bool) :
  grid_wf rows cols g → 0 ≤ r → 0 ≤ c → rows ≤ r ∨ cols ≤ c →
  grid_set g r c v = Raise IndexError.
Proof.
  intros Hwf Hr Hc Hout. unfold grid_set. pose proof Hwf as [Hrows _].
  destruct (decide (r < rows)) as [Hlt|Hge].
  - destruct (lookup_lt_is_Some_2 g (Z.to_nat r)) as [rw Hrw]; [lia|].
    pose proof (wf_row rows cols g _ _ Hwf Hrw) as Hlen.
    rewrite (proj2 (getitem_Ok g r rw)) by (split; [lia | exact Hrw]). simpl.
    rewrite setitem_out_of_range by lia. reflexivity.
  - rewrite getitem_out_of_range by lia. reflexivity.
Qed.

Lemma occupy_cols_out_of_range (rows cols : Z) (cs : list Z) (g : grid) (r : Z) :
  grid_wf rows cols g → 0 ≤ r → Forall (λ c, 0 ≤ c) cs → cs ≠ [] →
  rows ≤ r ∨ Exists (λ c, cols ≤ c) cs →
  occupy_cols g r cs = Raise IndexError.
Proof.
  revert g. induction cs as [|c cs IH]; intros g Hwf Hr Hcs Hne Hout; [done|].
  inversion Hcs as [|? ? Hc Hcs']; subst. simpl.
  destruct (decide (r < rows ∧ c < cols)) as [[Hrlt Hclt]|Hbad].
  - destruct (grid_set_spec rows cols g r c true Hwf) as (g1 & -> & Hwf1 & _);
      [split; lia|]. simpl.
    destruct Hout as [?|Hex]; [lia|].
    apply Exists_cons in Hex as [?|Hex]; [lia|].
    apply IH; [exact Hwf1 | exact Hr | exact Hcs' | | by right].
    intros ->. inversion Hex.
  - rewrite (grid_set_out_of_range rows cols) by (try assumption; lia). reflexivity.
Qed.

Lemma occupy_rows_out_of_range (rows cols : Z) (rs cs : list Z) (g : grid) :
  grid_wf rows cols g →
  Forall (λ r, 0 ≤ r) rs → Forall (λ c, 0 ≤ c) cs → rs ≠ [] → cs ≠ [] →
  Exists (λ r, rows ≤ r) rs ∨ Exists (λ c, cols ≤ c) cs →
  occupy_rows g rs cs = Raise IndexError.
Proof.
  revert g. induction rs as [|r rs IH]; intros g Hwf Hrs Hcs Hner Hnec Hout; [done|].
  inversion Hrs as [|? ? Hr Hrs']; subst. simpl.
  destruct (decide (r < rows)) as [Hrlt|Hrge].
  - destruct (decide (Forall (λ c, c < cols) cs)) as [Hall|Hnall].
    + destruct (occupy_cols_spec rows cols cs g r Hwf) as (g1 & -> & Hwf1 & _);
        [lia | |].
      { apply Forall_forall. intros c Hc.
        rewrite Forall_forall in Hcs, Hall. split; [by apply Hcs | by apply Hall]. }
      simpl. destruct Hout as [Hex|Hex].
      * apply Exists_cons in Hex as [?|Hex]; [lia|].
        apply IH; [exact Hwf1 | exact Hrs' | exact Hcs | | exact Hnec | by left].
        intros ->. inversion Hex.
      * exfalso. apply Exists_exists in Hex as (c & Hc & Hge).
        rewrite Forall_forall in Hall. specialize (Hall c Hc). lia.
    + rewrite (occupy_cols_out_of_range rows cols); [reflexivity | try assumption ..].
      right. apply not_Forall_Exists in Hnall; [|intros c; apply _].
      eapply Exists_impl; [exact Hnall|]. simpl. intros c. lia.
  - rewrite (occupy_cols_out_of_range rows cols); [reflexivity | try assumption ..].
    left. lia.
Qed.

(** X3.  [occupy] does not check bounds itself: for a rectangle of at
    least one cell that reaches beyond the last row or the last column of
    the grid, it raises [IndexError], where [fits] answers [False]. *)
Theorem occupy_beyond_grid_raises (rows cols : Z) (g : grid)
  (chunk_w chunk_h row col : Z) :
  grid_wf rows cols g → 0 ≤ row → 0 ≤ col → 0 < chunk_w → 0 < chunk_h →
  rows < row + chunk_h ∨ cols < col + chunk_w →
  occupy g chunk_w chunk_h row col = Raise IndexError ∧
  fits rows cols g chunk_w chunk_h row col = Ok false.
Proof.
  intros Hwf Hrow Hcol Hw Hh Hout. split.
  - unfold occupy. apply (occupy_rows_out_of_range rows cols); [exact Hwf | ..].
    + apply Forall_forall. intros r Hr%elem_of_range. lia.
    + apply Forall_forall. intros c Hc%elem_of_range. lia.
    + rewrite range_cons by lia. discriminate.
    + rewrite range_cons by lia. discriminate.
    + destruct Hout as [Hr|Hc]; [left | right]; apply Exists_exists.
      * exists (row + chunk_h - 1). split; [apply elem_of_range; lia | lia].
      * exists (col + chunk_w - 1). split; [apply elem_of_range; lia | lia].
  - unfold fits.
    destruct (Z.gtb_spec (row + chunk_h) rows), (Z.gtb_spec (col + chunk_w) cols);
      simpl; try reflexivity. lia.
Qed.

Lemma occupy_beyond_grid_raises_witness :
  occupy (new_grid 6 24) 6 3 4 0 = Raise IndexError ∧
  fits 6 24 (new_grid 6 24) 6 3 4 0 = Ok false.
Proof.
  apply (occupy_beyond_grid_raises 6 24 (new_grid 6 24) 6 3 4 0); try lia.
  split; [vm_compute; reflexivity|]. vm_compute. repeat constructor.
Defined.

(** ** The fitted image *)

(** X4.  When Mode B crops, the crop box lies inside the resized image,
    has the size of the target rectangle, and is centred: on each axis the
    margins cut off on the two sides differ by one pixel at most.  When it
    does not crop, the resized image is no larger than the target on either
    axis.  In both cases the resized image has the width or the height of
    the target. *)
Theorem fit_with_crop_crop_is_centered (img : image) (x y w h : Z)
  (nw nh : Z) (crop : option (Z * Z * Z * Z)) (ox oy : Z) :
  Zen3.fit_with_crop img x y w h = Ok (nw, nh, crop, ox, oy) →
  (nw = w ∨ nh = h) ∧
  match crop with
  | Some (x0, y0, x1, y1) =>
      0 ≤ x0 ∧ x1 ≤ nw ∧ 0 ≤ y0 ∧ y1 ≤ nh ∧
      x1 - x0 = w ∧ y1 - y0 = h ∧
      0 ≤ (nw - x1) - x0 ≤ 1 ∧ 0 ≤ (nh - y1) - y0 ≤ 1
  | None => nw ≤ w ∧ nh ≤ h
  end.
Proof.
  unfold Zen3.fit_with_crop. intros H.
  apply rbind_Ok in H as (aspect_img & _ & H).
  apply rbind_Ok in H as (aspect_chunk & _ & H).
  apply rbind_Ok in H as ([[[nw' nh'] ox'] oy'] & Hsize & H).
  assert (Hone : nw' = w ∨ nh' = h).
  { destruct (float_gt aspect_img aspect_chunk).
    - apply rbind_Ok in Hsize as (f & _ & Hsize).
      apply rbind_Ok in Hsize as (v & _ & [= <- <- <- <-]). by right.
    - apply rbind_Ok in Hsize as (f & _ & Hsize).
      apply rbind_Ok in Hsize as (v & _ & [= <- <- <- <-]). by left. }
  clear Hsize.
  destruct (Z.gtb_spec nw' w) as [Hw|Hw]; simpl in H.
  { injection H as <- <- <- <- <-. split; [exact Hone|].
    destruct Hone as [->| ->]; [lia|].
    repeat split; Z.div_mod_to_equations; lia. }
  destruct (Z.gtb_spec nh' h) as [Hh|Hh]; simpl in H.
  { injection H as <- <- <- <- <-. split; [exact Hone|].
    destruct Hone as [->| ->]; [|lia].
    repeat split; Z.div_mod_to_equations; lia. }
  injection H as <- <- <- <- <-. split; [exact Hone | lia].
Qed.

Lemma fit_with_crop_crop_is_centered_witness :
  (202 = 101 ∨ 101 = 101) ∧
  0 ≤ 50 ∧ 151 ≤ 202 ∧ 0 ≤ 0 ∧ 101 ≤ 101 ∧
  151 - 50 = 101 ∧ 101 - 0 = 101 ∧
  0 ≤ (202 - 151) - 50 ≤ 1 ∧ 0 ≤ (101 - 101) - 0 ≤ 1.
Proof.
  apply (fit_with_crop_crop_is_centered (Image 2 1) 20 20 101 101
           202 101 (Some (50, 0, 151, 101)) 20 20).
  vm_compute. reflexivity.
Defined.

(** ** The layout of Mode A *)

Lemma chaos_place_cells (images : list image) (cw ch : Z) (s s' : Chaos.state)
  (chunk_w chunk_h row col : Z) :
  Chaos.place images cw ch s chunk_w chunk_h row col = Ok s' →
  occupy (Chaos.grid_of s) chunk_w chunk_h row col = Ok (Chaos.grid_of s') ∧
  Chaos.image_idx s' = Chaos.image_idx s + 1 ∧
  ∃ p, Chaos.canvas_of s' = Chaos.canvas_of s ++ [p] ∧
       anchor_of p = (row, col, chunk_w, chunk_h).
Proof.
  unfold Chaos.place. intros H.
  apply rbind_Ok in H as (img & _ & H).
  apply rbind_Ok in H as ([nw nh] & _ & H).
  apply rbind_Ok in H as (g & Hg & [= <-]). simpl.
  split; [exact Hg|]. split; [reflexivity|]. eexists. split; reflexivity.
Qed.

(** The loop of Mode A does to the grid what [chaos_cells] does, whatever
    the images are. *)
Lemma chaos_chunk_loop_cells (images : list image) (cw ch : Z) (chunks : list (Z * Z))
  (s s' : Chaos.state) :
  Chaos.chunk_loop images cw ch chunks s = Ok s' →
  ∃ l, chaos_cells chunks (Chaos.grid_of s)
         (Z.to_nat (Z.of_nat (length images) - Chaos.image_idx s))
       = Ok (l, Chaos.grid_of s') ∧
       anchor_of <$> Chaos.canvas_of s' = (anchor_of <$> Chaos.canvas_of s) ++ l ∧
       Chaos.image_idx s' = Chaos.image_idx s + Z.of_nat (length l).
Proof.
  revert s. induction chunks as [|chunk rest IH]; intros s; simpl.
  - intros [= <-]. exists []. rewrite app_nil_r. split; [reflexivity|].
    split; [reflexivity | simpl; lia].
  - rewrite chaos_attempt_first_fit.
    destruct (first_fit _ _ _ _ _) as [[[r c]|]|e]; simpl; [| apply IH | discriminate].
    destruct (Z.geb_spec (Chaos.image_idx s) (Z.of_nat (length images))) as [Hge|Hlt].
    + simpl. intros [= <-]. replace (Z.to_nat _) with O by lia.
      exists []. rewrite app_nil_r. split; [reflexivity|].
      split; [reflexivity | simpl; lia].
    + destruct (Chaos.place _ _ _ _ _ _ _ _) as [s1|e] eqn:E; simpl; [|discriminate].
      intros Hrest. apply chaos_place_cells in E as (Hocc & Hidx & p & Hcv & Hp).
      destruct (IH s1 Hrest) as (l & Hcells & Hanch & Hidx').
      replace (Z.to_nat (Z.of_nat (length images) - Chaos.image_idx s))
        with (S (Z.to_nat (Z.of_nat (length images) - Chaos.image_idx s1))) by lia.
      rewrite Hocc. simpl. rewrite Hcells. simpl.
      exists ((r, c, chunk.1, chunk.2) :: l). split; [reflexivity|]. split.
      * rewrite Hanch, Hcv, fmap_app, <- app_assoc. simpl. by rewrite Hp.
      * simpl length. lia.
Qed.

(** With fewer images left, [chaos_cells] makes the first placements of
    the same sequence. *)
Lemma chaos_cells_fewer (chunks : list (Z * Z)) (g : grid) (m n : nat)
  (l : list (Z * Z * Z * Z)) (g' : grid) :
  chaos_cells chunks g m = Ok (l, g') → (n ≤ m)%nat →
  ∃ g'', chaos_cells chunks g n = Ok (take n l, g'').
Proof.
  revert g m n l. induction chunks as [|chunk rest IH]; intros g m n l; simpl.
  - intros [= <- <-] _. exists g. by rewrite take_nil.
  - destruct (first_fit _ _ _ _ _) as [[[r c]|]|e]; simpl; [| apply IH | discriminate].
    destruct m as [|m].
    + intros [= <- <-] Hn. replace n with O by lia. by exists g.
    + destruct (occupy g chunk.1 chunk.2 r c) as [g1|e]; simpl; [|discriminate].
      destruct (chaos_cells rest g1 m) as [[l1 g2]|e] eqn:E; simpl; [|discriminate].
      intros [= <- <-] Hn. destruct n as [|n]; [by exists g|].
      destruct (IH g1 m n l1 E) as (g'' & ->); [lia|]. simpl. by exists g''.
Qed.

(** With images to spare, more images change nothing. *)
Lemma chaos_cells_surplus (chunks : list (Z * Z)) (g : grid) (m m' : nat)
  (l : list (Z * Z * Z * Z)) (g' : grid) :
  chaos_cells chunks g m = Ok (l, g') → (length l < m)%nat → (m ≤ m')%nat →
  chaos_cells chunks g m' = Ok (l, g').
Proof.
  revert g m m' l. induction chunks as [|chunk rest IH]; intros g m m' l; simpl.
  - intros H _ _. exact H.
  - destruct (first_fit _ _ _ _ _) as [[[r c]|]|e]; simpl; [| apply IH | discriminate].
    destruct m as [|m]; [intros _ H; lia|].
    destruct (occupy g chunk.1 chunk.2 r c) as [g1|e]; simpl; [|discriminate].
    destruct (chaos_cells rest g1 m) as [[l1 g2]|e] eqn:E; simpl; [|discriminate].
    intros [= <- <-] Hlen Hm. destruct m' as [|m']; [lia|].
    simpl in Hlen. rewrite (IH g1 m m' l1 E) by lia. reflexivity.
Qed.

(** On the empty grid and with 29 images, the catalog repeated 100 times
    places 28 of them and fills the grid. *)
Lemma chaos_cells_full :
  chaos_cells (repeat_list Chaos.CHUNKS 100)
    (new_grid Chaos.GRID_ROWS Chaos.GRID_COLS) 29
  = Ok (chaos_anchors, replicate 6 (replicate 24 true)).
Proof. vm_compute. reflexivity. Qed.

(** X5.  The placements of Mode A do not depend on the images or on the
    screen: a call that returns a canvas has placed the first [n] images
    of the shuffled list, in the order of the list (paste [k] is of the
    image at index [k]), at the first [n] anchors of one sequence of 28,
    where [n] is the number of images or 28, whichever is smaller.  No
    more than 28 images are ever shown, and with 28 images or more every
    cell of the grid is occupied. *)
Theorem chaos_layout_has_fixed_anchors :
  ∀ (t : tape) (h : store) (images : loc) (sw sh : Z) (cv : canvas),
    (Chaos.create_chunk_grid_layout t h images sw sh).1 = Ok (Some cv) →
    anchor_of <$> cv = take (length (contents h images)) chaos_anchors ∧
    length cv = Nat.min (length (contents h images)) 28 ∧
    queue_order (shuffle t 0 (contents h images)).1 cv ∧
    p_image <$> cv = take 28 (shuffle t 0 (contents h images)).1 ∧
    ∃ s, Chaos.layout (shuffle t 0 (contents h images)).1 sw sh
           (repeat_list Chaos.CHUNKS 100) = Ok s ∧
         Chaos.canvas_of s = cv ∧
         ((28 ≤ length (contents h images))%nat →
          Chaos.grid_of s = replicate 6 (replicate 24 true)).
Proof.
  intros t h images sw sh cv Hrun.
  destruct (chaos_returned_canvas _ _ _ _ _ _ Hrun) as (s & Hs & Hcv).
  set (imgs := (shuffle t 0 (contents h images)).1) in *.
  assert (Hlen : length imgs = length (contents h images))
    by (apply Permutation_length, shuffle_Permutation).
  destruct (chaos_chunk_loop_cells _ _ _ _ _ _ Hs) as (l & Hcells & Hanch & _).
  change (Chaos.grid_of Chaos.initial)
    with (new_grid Chaos.GRID_ROWS Chaos.GRID_COLS) in Hcells.
  change (Chaos.image_idx Chaos.initial) with 0 in Hcells.
  change (anchor_of <$> Chaos.canvas_of Chaos.initial)
    with (@nil (Z * Z * Z * Z)) in Hanch.
  rewrite app_nil_l in Hanch.
  rewrite Z.sub_0_r, Nat2Z.id, Hlen in Hcells.
  set (n := length (contents h images)) in *.
  assert (Hl : l = take n chaos_anchors ∧
               ((28 ≤ n)%nat → Chaos.grid_of s = replicate 6 (replicate 24 true))).
  { destruct (decide (n ≤ 29)%nat) as [Hle|Hgt].
    - destruct (chaos_cells_fewer _ _ _ n _ _ chaos_cells_full Hle) as (g'' & Hn).
      rewrite Hn in Hcells. injection Hcells as <- <-. split; [reflexivity|].
      intros H28. destruct (decide (n = 28%nat)) as [->|Hne].
      + vm_compute in Hn. by injection Hn as <-.
      + replace n with 29%nat in Hn by lia. rewrite chaos_cells_full in Hn.
        by injection Hn as <-.
    - rewrite (chaos_cells_surplus _ _ 29 n _ _ chaos_cells_full) in Hcells
        by (change (length chaos_anchors) with 28%nat; lia).
      injection Hcells as <- <-. split; [|reflexivity].
      rewrite take_ge by (change (length chaos_anchors) with 28%nat; lia).
      reflexivity. }
  destruct Hl as [-> Hfull]. rewrite <- Hcv.
  assert (Hcount : length (Chaos.canvas_of s) = Nat.min n 28).
  { rewrite <- (length_fmap anchor_of), Hanch, length_take. reflexivity. }
  destruct (chaos_chunk_loop_spec imgs (Chaos.cell_width sw) (Chaos.cell_height sh)
              (repeat_list Chaos.CHUNKS 100) Chaos.initial (chaos_inv_initial _ _ _))
    as [_ Hspec].
  destruct (Hspec s Hs) as ((_ & _ & _ & Hqueue & _) & _).
  split; [exact Hanch|]. split; [exact Hcount|]. split; [exact Hqueue|]. split.
  - apply list_eq. intros k. rewrite list_lookup_fmap, lookup_take.
    destruct (Chaos.canvas_of s !! k) as [p|] eqn:Hk; simpl.
    + destruct (Hqueue k p Hk) as [_ Himg]. apply lookup_lt_Some in Hk.
      destruct (decide (k < 28)%nat); [by rewrite Himg | lia].
    + apply lookup_ge_None in Hk. destruct (decide (k < 28)%nat); [|reflexivity].
      symmetry. apply lookup_ge_None. lia.
  - exists s. split; [exact Hs|]. split; [reflexivity | exact Hfull].
Qed.

Lemma chaos_layout_has_fixed_anchors_witness :
  ∃ cv, (Chaos.create_chunk_grid_layout tape_20 store_three 0%nat 5120 1440).1
          = Ok (Some cv) ∧
        anchor_of <$> cv = [(0, 0, 6, 3); (0, 6, 4, 3); (0, 10, 3, 2)] ∧
        p_image <$> cv = [Image 2 2; Image 1 1; Image 3 3].
Proof.
  eexists.
  match goal with |- ?run = Ok (Some ?cv) ∧ _ =>
    assert (Hrun : run = Ok (Some cv)) by (vm_compute; reflexivity)
  end.
  destruct (chaos_layout_has_fixed_anchors tape_20 store_three 0%nat 5120 1440 _ Hrun)
    as (Hanch & _ & _ & Himg & _).
  split; [exact Hrun|]. split; [exact Hanch | exact Himg].
Defined.

(** ** The run of Mode B *)

Lemma zen_iteration_index (t : tape) (images : list image) (cw ch : Z)
  (s s' : Zen3.state) :
  Zen3.iteration t images cw ch s = Ok s' →
  Zen3.image_idx s ≤ Zen3.image_idx s' ≤ Zen3.image_idx s + 1.
Proof.
  unfold Zen3.iteration.
  destruct (Zen3.choose _ _ _) as [[[[[[r c] w] h]|] cur']|e]; simpl; [| |discriminate].
  - intros [Hidx _]%zen_place_shape. lia.
  - intros [= <-]. simpl. lia.
Qed.

Lemma zen_while_loop_exit (t : tape) (images : list image) (cw ch : Z)
  (fuel : nat) (s s' : Zen3.state) :
  Zen3.image_idx s ≤ Zen3.placement_attempts s →
  Zen3.while_loop t images cw ch fuel s = Some (Ok s') →
  Zen3.image_idx s' ≤ Zen3.placement_attempts s' ∧
  Zen3.guard images s' = false.
Proof.
  revert s. induction fuel as [|fuel IH]; intros s Hle; simpl.
  - destruct (Zen3.guard images s) eqn:G; [discriminate|]. intros [= <-]. auto.
  - destruct (Zen3.guard images s) eqn:G; [|intros [= <-]; auto].
    destruct (Zen3.iteration t images cw ch s) as [s1|e] eqn:E; [|discriminate].
    apply IH. pose proof (zen_iteration_index _ _ _ _ _ _ E).
    pose proof (zen_iteration_attempts _ _ _ _ _ _ E). lia.
Qed.

(** X6.  In the state a run of Mode B ends in: the canvas holds one paste
    for each of the first [image_idx] images of the shuffled queue, in
    order, so no image is pasted twice; there were at least as many
    attempts as pastes, and [3 * len(images)] at most; and the loop has
    ended because all images are placed or because exactly
    [3 * len(images)] attempts were made. *)
Theorem zen_run_ends_placed_or_capped :
  ∀ (t : tape) (shuffled : list image * nat) (sw sh : Z) (fuel : nat) (s : Zen3.state),
    Zen3.layout t shuffled sw sh fuel = Some (Ok s) →
    Zen3.image_idx s = Z.of_nat (length (Zen3.canvas_of s)) ∧
    queue_order shuffled.1 (Zen3.canvas_of s) ∧
    NoDup (p_index <$> Zen3.canvas_of s) ∧
    Zen3.image_idx s ≤ Zen3.placement_attempts s ≤ 3 * Z.of_nat (length shuffled.1) ∧
    (Zen3.image_idx s = Z.of_nat (length shuffled.1) ∨
     Zen3.placement_attempts s = 3 * Z.of_nat (length shuffled.1)).
Proof.
  intros t shuffled sw sh fuel s Hrun. unfold Zen3.layout in Hrun.
  destruct (zen_while_loop_spec _ _ _ _ _ _ _
              (zen_inv_initial shuffled.1 (Zen3.cell_width sw) (Zen3.cell_height sh)
                 shuffled.2) Hrun) as [_ Hspec].
  destruct (Hspec s eq_refl) as ((_ & Hidx & Hle & Hqueue & _) & _ & _ & Hatt).
  assert (H0 : Zen3.image_idx (Zen3.initial shuffled.2)
               ≤ Zen3.placement_attempts (Zen3.initial shuffled.2)) by (simpl; lia).
  destruct (zen_while_loop_exit _ _ _ _ _ _ _ H0 Hrun) as [Hia G].
  simpl in Hatt. split; [exact Hidx|]. split; [exact Hqueue|].
  split; [by eapply queue_order_NoDup|]. split; [lia|].
  unfold Zen3.guard in G. apply andb_false_iff in G as [G|G]; apply Z.ltb_ge in G; lia.
Qed.

Lemma zen_run_ends_placed_or_capped_witness :
  ∃ s, Zen3.layout tape_20 ([Image 87 62], O) 2560 1080 3 = Some (Ok s) ∧
       Zen3.image_idx s = 1 ∧ Zen3.placement_attempts s = 1 ∧
       NoDup (p_index <$> Zen3.canvas_of s).
Proof.
  eexists. split; [vm_compute; reflexivity|].
  split; [reflexivity|]. split; [reflexivity|].
  match goal with |- NoDup (p_index <$> Zen3.canvas_of ?s) =>
    exact (proj1 (proj2 (proj2
      (zen_run_ends_placed_or_capped tape_20 ([Image 87 62], O) 2560 1080 3%nat s
         ltac:(vm_compute; reflexivity)))))
  end.
Defined.

(** A shape of at least one cell on each axis that has a placement leaves
    room for the shape of one cell. *)
Lemma has_placement_unit (g : grid) (chunk : Z * Z) :
  1 ≤ chunk.1 → 1 ≤ chunk.2 → has_placement g chunk → has_placement g (1, 1).
Proof.
  intros Hw Hh (r & c & [Hr Hc] & Hrh & Hcw & Hfree).
  exists r, c. split; [split; assumption|]. unfold Zen3.GRID_ROWS, Zen3.GRID_COLS in *.
  split; [simpl; lia|]. split; [simpl; lia|].
  intros r' c' Hin%in_rect_spec. simpl in Hin. apply Hfree, in_rect_spec. lia.
Qed.

Lemma zen_catalog_positive (chunk : Z * Z) :
  chunk ∈ Zen3.CHUNKS ++ Zen3.fallback_chunks → 1 ≤ chunk.1 ∧ 1 ≤ chunk.2.
Proof.
  intros H. assert (Hall : Forall (λ c : Z * Z, 1 ≤ c.1 ∧ 1 ≤ c.2)
                             (Zen3.CHUNKS ++ Zen3.fallback_chunks))
    by (repeat constructor; simpl; lia).
  rewrite Forall_forall in Hall. by apply Hall.
Qed.

(** The shape chosen is one of the catalog or of the fallbacks. *)
Lemma choose_from_catalog (t : tape) (cur cur' : nat) (g : grid) (r c w h : Z) :
  grid_wf Zen3.GRID_ROWS Zen3.GRID_COLS g →
  Zen3.choose t cur g = Ok (Some (r, c, w, h), cur') →
  (w, h) ∈ Zen3.CHUNKS ++ Zen3.fallback_chunks ∧
  in_grid Zen3.GRID_ROWS Zen3.GRID_COLS r c ∧
  rect_free Zen3.GRID_ROWS Zen3.GRID_COLS g w h r c.
Proof.
  intros Hwf Hchoose.
  destruct (get_random_chunk_spec t cur) as (chunk & Hdraw & Hin).
  destruct (choose_spec t cur g Hwf) as (drawn & res & cur2 & Hdraw' & Hres & Hspec).
  rewrite Hdraw in Hdraw'. injection Hdraw' as <-.
  rewrite Hchoose in Hres. injection Hres as <- <-.
  destruct Hspec as (Hgrid & Hfree & Hshape). split; [|split; assumption].
  apply elem_of_app. destruct Hshape as [[_ ->]|[_ (before & after & Hsplit & _)]].
  - by left.
  - right. rewrite Hsplit. apply elem_of_app. right. by apply elem_of_cons; left.
Qed.

(** X7.  Once the shape of one cell has no placement, Mode B places
    nothing more: every further turn only counts an attempt, and the loop
    ends with the grid, the image index and the canvas as they are, after
    the attempts the cap leaves. *)
Theorem zen_full_grid_only_counts_attempts :
  ∀ (t : tape) (images : list image) (cw ch : Z) (fuel : nat) (s : Zen3.state)
    (r : result Zen3.state),
    grid_wf Zen3.GRID_ROWS Zen3.GRID_COLS (Zen3.grid_of s) →
    ¬ has_placement (Zen3.grid_of s) (1, 1) →
    Zen3.while_loop t images cw ch fuel s = Some r →
    ∃ s', r = Ok s' ∧
          Zen3.grid_of s' = Zen3.grid_of s ∧
          Zen3.image_idx s' = Zen3.image_idx s ∧
          Zen3.canvas_of s' = Zen3.canvas_of s ∧
          Zen3.placement_attempts s ≤ Zen3.placement_attempts s' ∧
          (Zen3.image_idx s < Z.of_nat (length images) →
           Zen3.placement_attempts s ≤ Z.of_nat (length images) * 3 →
           Zen3.placement_attempts s' = Z.of_nat (length images) * 3).
Proof.
  intros t images cw ch fuel. induction fuel as [|fuel IH]; intros s r Hwf Hfull; simpl.
  - destruct (Zen3.guard images s) eqn:G; [discriminate|]. intros [= <-].
    exists s. repeat split; try reflexivity; try lia.
    intros H1 H2. unfold Zen3.guard in G.
    apply andb_false_iff in G as [G|G]; apply Z.ltb_ge in G; lia.
  - destruct (Zen3.guard images s) eqn:G.
    + assert (Hit : ∃ cur', Zen3.iteration t images cw ch s =
                Ok (Zen3.State (Zen3.grid_of s) (Zen3.image_idx s)
                      (Zen3.placement_attempts s + 1) (Zen3.canvas_of s) cur')).
      { unfold Zen3.iteration.
        destruct (choose_spec t (Zen3.cursor s) (Zen3.grid_of s) Hwf)
          as (drawn & res & cur' & _ & Hres & _).
        rewrite Hres. simpl. destruct res as [[[[r0 c0] w] h]|]; [|eauto].
        exfalso. apply choose_from_catalog in Hres as (Hin & Hgrid & Hfree); [|exact Hwf].
        apply zen_catalog_positive in Hin as [Hw Hh]. apply Hfull.
        apply (has_placement_unit _ (w, h)); [exact Hw | exact Hh |].
        by exists r0, c0. }
      destruct Hit as [cur' ->]. intros Hloop.
      destruct (IH (Zen3.State (Zen3.grid_of s) (Zen3.image_idx s)
                      (Zen3.placement_attempts s + 1) (Zen3.canvas_of s) cur')
                  r Hwf Hfull Hloop) as (s' & -> & Hg & Hi & Hc & Ha & Hcap).
      simpl in *. exists s'. repeat split; try assumption; try lia.
      intros H1 H2. apply andb_true_iff in G as [_ G%Z.ltb_lt]. apply Hcap; lia.
    + intros [= <-]. exists s. repeat split; try reflexivity; try lia.
      intros H1 H2. unfold Zen3.guard in G.
      apply andb_false_iff in G as [G|G]; apply Z.ltb_ge in G; lia.
Qed.

Lemma zen_full_grid_only_counts_attempts_witness :
  ∃ s', Zen3.while_loop tape_20 [Image 87 62; Image 100 100] 84 124 6
          (Zen3.State full_grid 0 0 [] 0) = Some (Ok s') ∧
        Zen3.grid_of s' = full_grid ∧ Zen3.image_idx s' = 0 ∧
        Zen3.canvas_of s' = [] ∧ Zen3.placement_attempts s' = 6.
Proof.
  eexists. split; [vm_compute; reflexivity|].
  match goal with |- Zen3.grid_of ?s1 = _ ∧ _ =>
    destruct (zen_full_grid_only_counts_attempts tape_20 [Image 87 62; Image 100 100]
                84 124 6 (Zen3.State full_grid 0 0 [] 0) (Ok s1))
      as (s' & Heq & Hg & Hi & Hc & _ & Hcap)
  end.
  - split; [vm_compute; reflexivity|]. vm_compute. repeat constructor.
  - intros (r & c & [Hr Hc] & _ & _ & Hfree).
    specialize (Hfree r c ltac:(apply in_rect_spec; simpl; lia)).
    unfold free in Hfree. apply grid_get_Ok in Hfree as (_ & _ & rw & Hrw & Hb).
    unfold full_grid in Hrw. apply lookup_replicate in Hrw as [-> _].
    apply lookup_replicate in Hb as [[=] _].
  - vm_compute. reflexivity.
  - injection Heq as <-. repeat split; try assumption.
Defined.

(** ** Capacity and pixel rectangles *)

Section Geometry.

Variables rows cols outer inner cw ch sw sh : Z.
Hypothesis inner_nonneg : 0 ≤ inner.
Hypothesis cw_nonneg : 0 ≤ cw.
Hypothesis ch_nonneg : 0 ≤ ch.
Hypothesis cells_fit_width : cols * cw + (cols - 1) * inner ≤ sw - 2 * outer.
Hypothesis cells_fit_height : rows * ch + (rows - 1) * inner ≤ sh - 2 * outer.

Lemma target_in_screen_of_cells (p : paste) :
  geometry_ok outer inner cw ch p →
  rect_in_bounds rows cols (p_row p) (p_col p) (p_chunk_w p) (p_chunk_h p) →
  target_in_screen outer sw sh p.
Proof.
  intros (Hx & Hy & Hw & Hh) (Hr & Hc & Hrh & Hcw). unfold target_in_screen.
  rewrite Hx, Hy, Hw, Hh. repeat split; nia.
Qed.

Lemma targets_apart_of_cells (p q : paste) :
  geometry_ok outer inner cw ch p → geometry_ok outer inner cw ch q →
  1 ≤ p_chunk_w p → 1 ≤ p_chunk_h p → 1 ≤ p_chunk_w q → 1 ≤ p_chunk_h q →
  (∀ r c, covers p r c = true → covers q r c = true → False) →
  targets_apart inner p q.
Proof.
  intros (Hxp & Hyp & Hwp & Hhp) (Hxq & Hyq & Hwq & Hhq) Hp1 Hp2 Hq1 Hq2 Hdisj.
  unfold targets_apart. rewrite Hxp, Hyp, Hwp, Hhp, Hxq, Hyq, Hwq, Hhq.
  destruct (decide (p_col p + p_chunk_w p ≤ p_col q)) as [H1|H1]; [left; nia|].
  destruct (decide (p_col q + p_chunk_w q ≤ p_col p)) as [H2|H2]; [right; left; nia|].
  destruct (decide (p_row p + p_chunk_h p ≤ p_row q)) as [H3|H3]; [right; right; left; nia|].
  destruct (decide (p_row q + p_chunk_h q ≤ p_row p)) as [H4|H4]; [right; right; right; nia|].
  exfalso. apply (Hdisj (Z.max (p_row p) (p_row q)) (Z.max (p_col p) (p_col q)));
    apply in_rect_spec; lia.
Qed.

End Geometry.

(** A canvas holds no more pastes than the grid has cells. *)
Lemma canvas_capacity (rows cols : Z) (g : grid) (cv : canvas) :
  0 ≤ rows → 0 ≤ cols →
  canvas_inv rows cols g cv → shapes_positive cv →
  Z.of_nat (length cv) ≤ rows * cols.
Proof.
  intros Hrows Hcols (_ & Hbounds & _ & Hdisj) Hpos.
  unfold shapes_positive in Hpos. rewrite Forall_forall in Hpos.
  set (code := λ p : paste, p_row p * cols + p_col p).
  assert (Hnodup : NoDup (code <$> cv)).
  { apply NoDup_alt. intros i j x Hi Hj.
    apply list_lookup_fmap_Some in Hi as (p & -> & Hp).
    apply list_lookup_fmap_Some in Hj as (q & Heq & Hq).
    destruct (decide (i = j)) as [|Hne]; [done|]. exfalso.
    pose proof (list_elem_of_lookup_2 _ _ _ Hp) as Hpin.
    pose proof (list_elem_of_lookup_2 _ _ _ Hq) as Hqin.
    destruct (Hbounds p Hpin) as (Hp1 & Hp2 & Hp3 & Hp4).
    destruct (Hbounds q Hqin) as (Hq1 & Hq2 & Hq3 & Hq4).
    destruct (Hpos p Hpin) as [Hpw Hph]. destruct (Hpos q Hqin) as [Hqw Hqh].
    unfold code in Heq.
    assert (Er : p_row p = p_row q).
    { destruct (Z.lt_trichotomy (p_row p) (p_row q)) as [?|[?|?]];
        [exfalso; nia | done | exfalso; nia]. }
    assert (Ec : p_col p = p_col q) by (rewrite Er in Heq; lia).
    apply (Hdisj i j p q (p_row p) (p_col p) Hp Hq Hne);
      unfold covers; apply in_rect_spec; lia. }
  assert (Hsub : ∀ x, x ∈ code <$> cv → x ∈ seqZ 0 (rows * cols)).
  { intros x (p & -> & Hpin)%list_elem_of_fmap.
    destruct (Hbounds p Hpin) as (Hp1 & Hp2 & Hp3 & Hp4).
    destruct (Hpos p Hpin) as [Hpw Hph].
    apply elem_of_seqZ. unfold code. nia. }
  pose proof (submseteq_length _ _ (NoDup_submseteq _ _ Hnodup Hsub)) as Hlen.
  rewrite length_fmap, length_seqZ in Hlen. nia.
Qed.

(** The shapes of Mode A are those of the chunk sequence. *)
Lemma chaos_chunk_loop_shapes (images : list image) (cw ch : Z) (chunks : list (Z * Z))
  (s s' : Chaos.state) :
  Forall (λ c : Z * Z, 1 ≤ c.1 ∧ 1 ≤ c.2) chunks →
  shapes_positive (Chaos.canvas_of s) →
  Chaos.chunk_loop images cw ch chunks s = Ok s' →
  shapes_positive (Chaos.canvas_of s').
Proof.
  revert s. induction chunks as [|chunk rest IH]; intros s Hchunks Hpos; simpl.
  - by intros [= <-].
  - inversion Hchunks as [|? ? Hchunk Hrest]; subst.
    rewrite chaos_attempt_first_fit.
    destruct (first_fit _ _ _ _ _) as [[[r c]|]|e]; simpl; [| by apply IH | discriminate].
    destruct (_ >=? _); simpl; [by intros [= <-]|].
    destruct (Chaos.place _ _ _ _ _ _ _ _) as [s1|e] eqn:E; simpl; [|discriminate].
    apply chaos_place_cells in E as (_ & _ & p & Hcv & Hp).
    apply IH; [exact Hrest|]. rewrite Hcv. apply Forall_app. split; [exact Hpos|].
    apply Forall_singleton. unfold anchor_of in Hp. injection Hp as _ _ -> ->.
    exact Hchunk.
Qed.

Lemma chaos_catalog_positive (n : nat) :
  Forall (λ c : Z * Z, 1 ≤ c.1 ∧ 1 ≤ c.2) (repeat_list Chaos.CHUNKS n).
Proof.
  induction n as [|n IH]; simpl; [constructor|].
  repeat (constructor; [simpl; lia|]). exact IH.
Qed.

(** The body of Mode B records what [fit_with_crop] computes. *)
Lemma zen_place_fitted (images : list image) (cw ch : Z) (s s' : Zen3.state) (cur : nat)
  (chunk_w chunk_h row col : Z) :
  Zen3.place images cw ch s cur chunk_w chunk_h row col = Ok s' →
  ∃ p, Zen3.canvas_of s' = Zen3.canvas_of s ++ [p] ∧
       anchor_of p = (row, col, chunk_w, chunk_h) ∧ fitted_by_crop p.
Proof.
  unfold Zen3.place. intros H.
  apply rbind_Ok in H as (img & _ & H).
  apply rbind_Ok in H as ([[[[nw nh] crop] ox] oy] & Hfit & H).
  apply rbind_Ok in H as (g & _ & [= <-]).
  eexists. split; [reflexivity|]. split; [reflexivity | exact Hfit].
Qed.

(** The pastes of Mode B have shapes of the catalog or of the fallbacks
    and are fitted by [fit_with_crop]. *)
Lemma zen_while_loop_pastes (t : tape) (images : list image) (cw ch : Z)
  (fuel : nat) (s s' : Zen3.state) :
  zen_inv images cw ch s →
  Forall (λ p, (p_chunk_w p, p_chunk_h p) ∈ Zen3.CHUNKS ++ Zen3.fallback_chunks ∧
               fitted_by_crop p) (Zen3.canvas_of s) →
  Zen3.while_loop t images cw ch fuel s = Some (Ok s') →
  Forall (λ p, (p_chunk_w p, p_chunk_h p) ∈ Zen3.CHUNKS ++ Zen3.fallback_chunks ∧
               fitted_by_crop p) (Zen3.canvas_of s').
Proof.
  revert s. induction fuel as [|fuel IH]; intros s Hinv Hall; simpl.
  - destruct (Zen3.guard images s); [discriminate|]. by intros [= <-].
  - destruct (Zen3.guard images s) eqn:G; [|by intros [= <-]].
    apply andb_true_iff in G as [G1%Z.ltb_lt _].
    destruct (zen_iteration_spec t images cw ch s Hinv G1) as [_ Hspec].
    destruct (Zen3.iteration t images cw ch s) as [s1|e] eqn:E; [|discriminate].
    destruct (Hspec s1 eq_refl) as (Hinv1 & _).
    apply IH; [exact Hinv1|]. clear IH Hspec.
    unfold Zen3.iteration in E.
    destruct (Zen3.choose t (Zen3.cursor s) (Zen3.grid_of s))
      as [[[[[[r c] w] h]|] cur']|e] eqn:Hch; simpl in E; [| |discriminate].
    + apply choose_from_catalog in Hch as (Hin & _); [|by eapply zen_wf].
      apply zen_place_fitted in E as (p & -> & Hp & Hfit).
      apply Forall_app. split; [exact Hall|]. apply Forall_singleton.
      unfold anchor_of in Hp. injection Hp as _ _ -> ->. split; assumption.
    + injection E as <-. exact Hall.
Qed.

Lemma zen_run_facts (t : tape) (shuffled : list image * nat) (sw sh : Z) (fuel : nat)
  (s : Zen3.state) :
  Zen3.layout t shuffled sw sh fuel = Some (Ok s) →
  zen_inv shuffled.1 (Zen3.cell_width sw) (Zen3.cell_height sh) s ∧
  Forall (λ p, (p_chunk_w p, p_chunk_h p) ∈ Zen3.CHUNKS ++ Zen3.fallback_chunks ∧
               fitted_by_crop p) (Zen3.canvas_of s).
Proof.
  intros Hrun. unfold Zen3.layout in Hrun.
  pose proof (zen_inv_initial shuffled.1 (Zen3.cell_width sw) (Zen3.cell_height sh)
                shuffled.2) as H0.
  destruct (zen_while_loop_spec _ _ _ _ _ _ _ H0 Hrun) as [_ Hspec].
  destruct (Hspec s eq_refl) as (Hinv & _). split; [exact Hinv|].
  eapply zen_while_loop_pastes; [exact H0 | constructor | exact Hrun].
Qed.

Lemma zen_shapes_positive (cv : canvas) :
  Forall (λ p, (p_chunk_w p, p_chunk_h p) ∈ Zen3.CHUNKS ++ Zen3.fallback_chunks ∧
               fitted_by_crop p) cv →
  shapes_positive cv.
Proof.
  intros H. eapply Forall_impl; [exact H|].
  intros p [Hin _]. by apply zen_catalog_positive in Hin.
Qed.

(** X8.  Every paste of Mode B has a shape of the catalog or one of the
    three fallback shapes, and a run pastes no more images than the grid
    has cells, 224. *)
Theorem zen_canvas_capacity :
  ∀ (t : tape) (shuffled : list image * nat) (sw sh : Z) (fuel : nat) (s : Zen3.state),
    Zen3.layout t shuffled sw sh fuel = Some (Ok s) →
    (length (Zen3.canvas_of s) ≤ 224)%nat ∧
    Forall (λ p, (p_chunk_w p, p_chunk_h p) ∈ Zen3.CHUNKS ++ Zen3.fallback_chunks)
      (Zen3.canvas_of s).
Proof.
  intros t shuffled sw sh fuel s Hrun.
  destruct (zen_run_facts _ _ _ _ _ _ Hrun) as [(Hinv & _) Hall]. split.
  - pose proof (canvas_capacity Zen3.GRID_ROWS Zen3.GRID_COLS _ _
                  ltac:(done) ltac:(done) Hinv (zen_shapes_positive _ Hall)) as H.
    unfold Zen3.GRID_ROWS, Zen3.GRID_COLS in H. lia.
  - eapply Forall_impl; [exact Hall|]. by intros p [H _].
Qed.

Lemma zen_canvas_capacity_witness :
  ∃ s, Zen3.layout tape_20 ([Image 87 62], O) 2560 1080 3 = Some (Ok s) ∧
       (length (Zen3.canvas_of s) ≤ 224)%nat.
Proof.
  eexists. split; [vm_compute; reflexivity|].
  match goal with |- (length (Zen3.canvas_of ?s) ≤ _)%nat =>
    exact (proj1 (zen_canvas_capacity tape_20 ([Image 87 62], O) 2560 1080 3%nat s
                    ltac:(vm_compute; reflexivity)))
  end.
Defined.

Lemma cells_fit_screen (screen cells outer inner : Z) :
  0 < cells →
  cells * cell_size screen cells outer inner + (cells - 1) * inner
  ≤ screen - 2 * outer.
Proof.
  intros H. unfold cell_size.
  pose proof (Z.mul_div_le (screen - 2 * outer - (cells - 1) * inner) cells H). lia.
Qed.

Lemma chaos_targets_facts (images : list image) (sw sh : Z) (s : Chaos.state) :
  Chaos.layout images sw sh (repeat_list Chaos.CHUNKS 100) = Ok s →
  0 ≤ Chaos.cell_width sw → 0 ≤ Chaos.cell_height sh →
  (∀ p, p ∈ Chaos.canvas_of s → target_in_screen Chaos.OUTER_PADDING sw sh p) ∧
  (∀ i j p q, Chaos.canvas_of s !! i = Some p → Chaos.canvas_of s !! j = Some q →
              i ≠ j → targets_apart Chaos.INNER_PADDING p q).
Proof.
  intros Hrun Hcw Hch.
  destruct (chaos_chunk_loop_spec images (Chaos.cell_width sw) (Chaos.cell_height sh)
              (repeat_list Chaos.CHUNKS 100) Chaos.initial (chaos_inv_initial _ _ _))
    as [_ Hspec].
  destruct (Hspec s Hrun) as (((_ & Hbounds & _ & Hdisj) & _ & _ & _ & Hgeo) & _).
  assert (Hpos : shapes_positive (Chaos.canvas_of s)).
  { eapply (chaos_chunk_loop_shapes _ _ _ _ Chaos.initial);
      [apply (chaos_catalog_positive 100) | apply Forall_nil_2 | exact Hrun]. }
  unfold shapes_positive in Hpos. rewrite Forall_forall in Hgeo, Hpos. split.
  - intros p Hp.
    apply (target_in_screen_of_cells Chaos.GRID_ROWS Chaos.GRID_COLS _
             Chaos.INNER_PADDING (Chaos.cell_width sw) (Chaos.cell_height sh));
      [done | exact Hcw | exact Hch | by apply cells_fit_screen
       | by apply cells_fit_screen | by apply Hgeo | by apply Hbounds].
  - intros i j p q Hp Hq Hne.
    pose proof (list_elem_of_lookup_2 _ _ _ Hp) as Hpin.
    pose proof (list_elem_of_lookup_2 _ _ _ Hq) as Hqin.
    apply (targets_apart_of_cells Chaos.OUTER_PADDING Chaos.INNER_PADDING
             (Chaos.cell_width sw) (Chaos.cell_height sh));
      [done | exact Hcw | exact Hch | by apply Hgeo | by apply Hgeo
       | apply (Hpos p Hpin) | apply (Hpos p Hpin)
       | apply (Hpos q Hqin) | apply (Hpos q Hqin) |].
    intros r c. exact (Hdisj i j p q r c Hp Hq Hne).
Qed.

Lemma zen_targets_facts (t : tape) (shuffled : list image * nat) (sw sh : Z)
  (fuel : nat) (s : Zen3.state) :
  Zen3.layout t shuffled sw sh fuel = Some (Ok s) →
  0 ≤ Zen3.cell_width sw → 0 ≤ Zen3.cell_height sh →
  (∀ p, p ∈ Zen3.canvas_of s → target_in_screen Zen3.OUTER_PADDING sw sh p) ∧
  (∀ i j p q, Zen3.canvas_of s !! i = Some p → Zen3.canvas_of s !! j = Some q →
              i ≠ j → targets_apart Zen3.INNER_PADDING p q).
Proof.
  intros Hrun Hcw Hch.
  destruct (zen_run_facts _ _ _ _ _ _ Hrun)
    as [((_ & Hbounds & _ & Hdisj) & _ & _ & _ & Hgeo) Hall].
  pose proof (zen_shapes_positive _ Hall) as Hpos.
  unfold shapes_positive in Hpos. rewrite Forall_forall in Hgeo, Hpos. split.
  - intros p Hp.
    apply (target_in_screen_of_cells Zen3.GRID_ROWS Zen3.GRID_COLS _
             Zen3.INNER_PADDING (Zen3.cell_width sw) (Zen3.cell_height sh));
      [done | exact Hcw | exact Hch | by apply cells_fit_screen
       | by apply cells_fit_screen | by apply Hgeo | by apply Hbounds].
  - intros i j p q Hp Hq Hne.
    pose proof (list_elem_of_lookup_2 _ _ _ Hp) as Hpin.
    pose proof (list_elem_of_lookup_2 _ _ _ Hq) as Hqin.
    apply (targets_apart_of_cells Zen3.OUTER_PADDING Zen3.INNER_PADDING
             (Zen3.cell_width sw) (Zen3.cell_height sh));
      [done | exact Hcw | exact Hch | by apply Hgeo | by apply Hgeo
       | apply (Hpos p Hpin) | apply (Hpos p Hpin)
       | apply (Hpos q Hqin) | apply (Hpos q Hqin) |].
    intros r c. exact (Hdisj i j p q r c Hp Hq Hne).
Qed.

(** X9.  On a screen that leaves the cells a size that is not negative, in
    both modes: the pixel rectangle of every paste lies inside the screen,
    the outer padding away from its border, and the pixel rectangles of
    two pastes are apart by the inner padding at least, horizontally or
    vertically. *)
Theorem target_rectangles_apart_and_on_screen :
  (∀ images sw sh s,
     Chaos.layout images sw sh (repeat_list Chaos.CHUNKS 100) = Ok s →
     0 ≤ Chaos.cell_width sw → 0 ≤ Chaos.cell_height sh →
     (∀ p, p ∈ Chaos.canvas_of s → target_in_screen Chaos.OUTER_PADDING sw sh p) ∧
     (∀ i j p q, Chaos.canvas_of s !! i = Some p → Chaos.canvas_of s !! j = Some q →
                 i ≠ j → targets_apart Chaos.INNER_PADDING p q)) ∧
  (∀ t shuffled sw sh fuel s,
     Zen3.layout t shuffled sw sh fuel = Some (Ok s) →
     0 ≤ Zen3.cell_width sw → 0 ≤ Zen3.cell_height sh →
     (∀ p, p ∈ Zen3.canvas_of s → target_in_screen Zen3.OUTER_PADDING sw sh p) ∧
     (∀ i j p q, Zen3.canvas_of s !! i = Some p → Zen3.canvas_of s !! j = Some q →
                 i ≠ j → targets_apart Zen3.INNER_PADDING p q)).
Proof.
  split.
  - intros images sw sh s. apply chaos_targets_facts.
  - intros t shuffled sw sh fuel s. apply zen_targets_facts.
Qed.

Lemma target_rectangles_apart_and_on_screen_witness :
  (∃ s p q, Chaos.layout (replicate 2 (Image 100 100)) 5120 1440
              (repeat_list Chaos.CHUNKS 100) = Ok s ∧
            Chaos.canvas_of s !! 0%nat = Some p ∧
            Chaos.canvas_of s !! 1%nat = Some q ∧
            target_in_screen Chaos.OUTER_PADDING 5120 1440 p ∧
            targets_apart Chaos.INNER_PADDING p q) ∧
  (∃ s p, Zen3.layout tape_20 ([Image 87 62], O) 2560 1080 3 = Some (Ok s) ∧
          Zen3.canvas_of s !! 0%nat = Some p ∧
          target_in_screen Zen3.OUTER_PADDING 2560 1080 p).
Proof.
  destruct target_rectangles_apart_and_on_screen as [A B]. split.
  - eexists. eexists. eexists.
    split; [vm_compute; reflexivity|].
    split; [vm_compute; reflexivity|]. split; [vm_compute; reflexivity|].
    match goal with |- target_in_screen _ _ _ ?p ∧ targets_apart _ _ ?q =>
      destruct (A (replicate 2 (Image 100 100)) 5120 1440 _
                  ltac:(vm_compute; reflexivity) ltac:(vm_compute; discriminate)
                  ltac:(vm_compute; discriminate)) as [Hin Hapart]
    end.
    split.
    + apply Hin. apply list_elem_of_here.
    + apply (Hapart 0%nat 1%nat); [reflexivity | reflexivity | lia].
  - eexists. eexists. split; [vm_compute; reflexivity|].
    split; [vm_compute; reflexivity|].
    destruct (B tape_20 ([Image 87 62], O) 2560 1080 3%nat _
                ltac:(vm_compute; reflexivity) ltac:(vm_compute; discriminate)
                ltac:(vm_compute; discriminate)) as [Hin _].
    apply Hin. apply list_elem_of_here.
Defined.

(** The region a paste of Mode B writes lies inside its pixel rectangle. *)
Lemma pasted_region_in_target (p : paste) (px py : Z) :
  fitted_by_crop p → pasted_region p px py →
  p_x p ≤ px < p_x p + p_w p ∧ p_y p ≤ py < p_y p + p_h p.
Proof.
  intros Hfit [Hx Hy].
  apply fit_with_crop_inside_target in Hfit as (Hox & Hoy & Hcrop).
  unfold pasted_width, pasted_height in *.
  destruct (p_crop p) as [[[[x0 y0] x1] y1]|]; lia.
Qed.

(** X10.  On a screen that leaves the cells a size that is not negative,
    the regions of the canvas that Mode B writes for two pastes have no
    pixel in common, and every pixel written lies inside the screen, the
    outer padding away from its border. *)
Theorem zen_pasted_regions_disjoint :
  ∀ (t : tape) (shuffled : list image * nat) (sw sh : Z) (fuel : nat) (s : Zen3.state),
    Zen3.layout t shuffled sw sh fuel = Some (Ok s) →
    0 ≤ Zen3.cell_width sw → 0 ≤ Zen3.cell_height sh →
    (∀ i j p q px py,
       Zen3.canvas_of s !! i = Some p → Zen3.canvas_of s !! j = Some q → i ≠ j →
       pasted_region p px py → pasted_region q px py → False) ∧
    (∀ p px py,
       p ∈ Zen3.canvas_of s → pasted_region p px py →
       Zen3.OUTER_PADDING ≤ px < sw - Zen3.OUTER_PADDING ∧
       Zen3.OUTER_PADDING ≤ py < sh - Zen3.OUTER_PADDING).
Proof.
  intros t shuffled sw sh fuel s Hrun Hcw Hch.
  destruct (zen_targets_facts _ _ _ _ _ _ Hrun Hcw Hch) as [Hin Hapart].
  destruct (zen_run_facts _ _ _ _ _ _ Hrun) as [_ Hall].
  rewrite Forall_forall in Hall. split.
  - intros i j p q px py Hp Hq Hne Hrp Hrq.
    pose proof (list_elem_of_lookup_2 _ _ _ Hp) as Hpin.
    pose proof (list_elem_of_lookup_2 _ _ _ Hq) as Hqin.
    apply pasted_region_in_target in Hrp; [|by apply Hall].
    apply pasted_region_in_target in Hrq; [|by apply Hall].
    pose proof (Hapart i j p q Hp Hq Hne) as H.
    unfold targets_apart, Zen3.INNER_PADDING in H. lia.
  - intros p px py Hp Hr.
    apply pasted_region_in_target in Hr; [|by apply Hall].
    pose proof (Hin p Hp) as H. unfold target_in_screen in H. lia.
Qed.

Lemma zen_pasted_regions_disjoint_witness :
  ∃ s p, Zen3.layout tape_20 ([Image 87 62], O) 2560 1080 3 = Some (Ok s) ∧
         Zen3.canvas_of s !! 0%nat = Some p ∧
         (pasted_region p 20 21 →
          Zen3.OUTER_PADDING ≤ 20 < 2560 - Zen3.OUTER_PADDING ∧
          Zen3.OUTER_PADDING ≤ 21 < 1080 - Zen3.OUTER_PADDING).
Proof.
  eexists. eexists. split; [vm_compute; reflexivity|].
  split; [vm_compute; reflexivity|].
  destruct (zen_pasted_regions_disjoint tape_20 ([Image 87 62], O) 2560 1080 3%nat _
              ltac:(vm_compute; reflexivity) ltac:(vm_compute; discriminate)
              ltac:(vm_compute; discriminate)) as [_ Hin].
  apply Hin. apply list_elem_of_here.
Defined.

(** ** Further facts about the runs *)

Lemma chaos_place_crop (images : list image) (cw ch : Z) (s s' : Chaos.state)
  (chunk_w chunk_h row col : Z) :
  Chaos.place images cw ch s chunk_w chunk_h row col = Ok s' →
  ∃ p, Chaos.canvas_of s' = Chaos.canvas_of s ++ [p] ∧ centered_on_target p.
Proof.
  intros H. pose proof H as H'.
  apply chaos_place_centered in H as (p & Hcv & Hx & Hy & Haxis).
  exists p. split; [exact Hcv|].
  split; [|split; [exact Hx|split; [exact Hy|destruct Haxis; [left|right]; lia]]].
  unfold Chaos.place in H'.
  apply rbind_Ok in H' as (img & _ & H').
  apply rbind_Ok in H' as ([nw nh] & _ & H').
  apply rbind_Ok in H' as (g & _ & [= <-]).
  simpl in Hcv. apply app_inj_tail in Hcv as [_ <-]. reflexivity.
Qed.

Lemma chaos_chunk_loop_centered (images : list image) (cw ch : Z) (chunks : list (Z * Z))
  (s s' : Chaos.state) :
  Forall centered_on_target (Chaos.canvas_of s) →
  Chaos.chunk_loop images cw ch chunks s = Ok s' →
  Forall centered_on_target (Chaos.canvas_of s').
Proof.
  revert s. induction chunks as [|chunk rest IH]; intros s Hall; simpl.
  - by intros [= <-].
  - rewrite chaos_attempt_first_fit.
    destruct (first_fit _ _ _ _ _) as [[[r c]|]|e]; simpl; [| by apply IH | discriminate].
    destruct (_ >=? _); simpl; [by intros [= <-]|].
    destruct (Chaos.place _ _ _ _ _ _ _ _) as [s1|e] eqn:E; simpl; [|discriminate].
    apply chaos_place_crop in E as (p & Hcv & Hp).
    apply IH. rewrite Hcv. apply Forall_app. split; [exact Hall|].
    by apply Forall_singleton.
Qed.

(** X11.  Mode A makes no [crop] call.  For every paste of a run, the
    image given to [canvas.paste] is the resized image, which has the
    width or the height of the pixel rectangle of the paste and is aligned
    with the rectangle on that axis; on each axis the paste offset centres
    it on the rectangle within one pixel.  (What Pillow writes of it, the
    image clipped to the canvas, is not part of the statement.) *)
Theorem chaos_paste_uncropped_and_centered :
  ∀ (images : list image) (sw sh : Z) (chunks : list (Z * Z)) (s : Chaos.state),
    Chaos.layout images sw sh chunks = Ok s →
    Forall centered_on_target (Chaos.canvas_of s).
Proof.
  intros images sw sh chunks s Hrun.
  eapply (chaos_chunk_loop_centered _ _ _ _ Chaos.initial); [|exact Hrun].
  apply Forall_nil_2.
Qed.

Lemma chaos_paste_uncropped_and_centered_witness :
  ∃ s p, Chaos.layout [Image 100 100] 5120 1440 Chaos.CHUNKS = Ok s ∧
         Chaos.canvas_of s = [p] ∧
         (p_x p, p_y p, p_w p, p_h p) = (30, 30, 1254, 684) ∧
         (p_new_width p, p_new_height p) = (1254, 1254) ∧
         (p_offset_x p, p_offset_y p) = (30, -255) ∧
         centered_on_target p.
Proof.
  eexists. eexists. split; [vm_compute; reflexivity|].
  split; [reflexivity|]. split; [reflexivity|]. split; [reflexivity|].
  split; [reflexivity|].
  match goal with |- centered_on_target ?p =>
    pose proof (chaos_paste_uncropped_and_centered [Image 100 100] 5120 1440 Chaos.CHUNKS _
                  ltac:(vm_compute; reflexivity)) as H
  end.
  apply Forall_inv in H. exact H.
Defined.

(** *** The weighted draw *)

Lemma weighted_draw_table :
  forallb (λ u,
    let i := Zen3.bisect (Zen3.accumulate 0 Zen3.CHUNK_WEIGHTS) u
               (Nat.pred (length Zen3.CHUNKS)) in
    match Zen3.CHUNK_WEIGHTS !! i with
    | Some w => (weight_before Zen3.CHUNK_WEIGHTS i <=? u)
                && (u <? weight_before Zen3.CHUNK_WEIGHTS i + w)
    | None => false
    end) (seqZ 0 47) = true.
Proof. vm_compute. reflexivity. Qed.

(** X12.  [get_random_chunk] raises nothing, makes one draw and returns
    the shape whose interval of the cumulated weights holds the draw,
    reduced to [0 .. 46]: the shape at index [i] of [CHUNKS] for as many
    of the 47 values as its weight [CHUNK_WEIGHTS[i]]. *)
Theorem get_random_chunk_follows_weights :
  ∀ (t : tape) (cur : nat),
    ∃ (i : nat) (chunk : Z * Z) (weight : Z),
      Zen3.get_random_chunk t cur = Ok (chunk, S cur) ∧
      Zen3.CHUNKS !! i = Some chunk ∧
      Zen3.CHUNK_WEIGHTS !! i = Some weight ∧
      weight_before Zen3.CHUNK_WEIGHTS i
        ≤ Z.of_nat (t cur) mod 47
        < weight_before Zen3.CHUNK_WEIGHTS i + weight.
Proof.
  intros t cur. unfold Zen3.get_random_chunk.
  change (List.last (Zen3.accumulate 0 Zen3.CHUNK_WEIGHTS) 0) with 47.
  set (u := Z.of_nat (t cur) mod 47).
  assert (Hu : 0 ≤ u < 47) by (apply Z.mod_pos_bound; lia).
  pose proof weighted_draw_table as Htable.
  rewrite forallb_forall in Htable. specialize (Htable u).
  cbv beta zeta in Htable.
  set (i := Zen3.bisect (Zen3.accumulate 0 Zen3.CHUNK_WEIGHTS) u
              (Nat.pred (length Zen3.CHUNKS))) in *.
  destruct (Zen3.CHUNK_WEIGHTS !! i) as [w|] eqn:Hw.
  - assert (Hi : (i < length Zen3.CHUNK_WEIGHTS)%nat) by (by eapply lookup_lt_Some).
    destruct (getitem_in_range Zen3.CHUNKS (Z.of_nat i)) as [chunk Hchunk].
    { change (length Zen3.CHUNK_WEIGHTS) with 12%nat in Hi.
      change (length Zen3.CHUNKS) with 12%nat. lia. }
    rewrite Hchunk. exists i, chunk, w. split; [reflexivity|].
    apply getitem_Ok in Hchunk as [_ Hchunk]. rewrite Nat2Z.id in Hchunk.
    split; [exact Hchunk|]. split; [exact Hw|].
    assert (H : (weight_before Zen3.CHUNK_WEIGHTS i <=? u)
                && (u <? weight_before Zen3.CHUNK_WEIGHTS i + w) = true).
    { apply Htable. apply list_elem_of_In, elem_of_seqZ. lia. }
    apply andb_true_iff in H as [H1%Z.leb_le H2%Z.ltb_lt]. lia.
  - assert (false = true) as [=].
    apply Htable. apply list_elem_of_In, elem_of_seqZ. lia.
Qed.

(** *** Images left over *)

Lemma zen_full_stays_full (g g' : grid) :
  grid_le g g' → all_occupied g → all_occupied g'.
Proof. intros Hle Hall r c Hin. apply Hle, Hall, Hin. Qed.

Lemma no_unit_placement_all_occupied (g : grid) :
  grid_wf Zen3.GRID_ROWS Zen3.GRID_COLS g →
  ¬ has_placement g (1, 1) → all_occupied g.
Proof.
  intros Hwf Hnone r c [Hr Hc].
  destruct (grid_get_total Zen3.GRID_ROWS Zen3.GRID_COLS g r c Hwf) as [b Hb];
    [split; assumption|].
  destruct b; [exact Hb|]. exfalso. apply Hnone. exists r, c.
  split; [split; assumption|]. simpl. split; [lia|]. split; [lia|].
  intros r' c' Hin%in_rect_spec.
  assert (r' = r) as -> by lia. assert (c' = c) as -> by lia. exact Hb.
Qed.

(** A turn entered with an image left pastes an image, unless the grid is
    full. *)
Lemma zen_iteration_places (t : tape) (images : list image) (cw ch : Z)
  (s s' : Zen3.state) :
  zen_inv images cw ch s →
  Zen3.iteration t images cw ch s = Ok s' →
  Zen3.image_idx s' = Zen3.image_idx s + 1 ∨ all_occupied (Zen3.grid_of s).
Proof.
  intros Hinv. unfold Zen3.iteration.
  destruct (choose_spec t (Zen3.cursor s) (Zen3.grid_of s) (zen_wf _ _ _ _ Hinv))
    as (drawn & res & cur' & _ & -> & Hspec). simpl.
  destruct res as [[[[r c] w] h]|].
  - intros [Hidx _]%zen_place_shape. by left.
  - intros _. right. destruct Hspec as [_ Hnone].
    apply no_unit_placement_all_occupied; [by eapply zen_wf|].
    apply Hnone. unfold Zen3.fallback_chunks. set_solver.
Qed.

Lemma zen_while_loop_no_waste (t : tape) (images : list image) (cw ch : Z)
  (fuel : nat) (s s' : Zen3.state) :
  zen_inv images cw ch s →
  Zen3.placement_attempts s = Zen3.image_idx s ∨ all_occupied (Zen3.grid_of s) →
  Zen3.while_loop t images cw ch fuel s = Some (Ok s') →
  Zen3.placement_attempts s' = Zen3.image_idx s' ∨ all_occupied (Zen3.grid_of s').
Proof.
  revert s. induction fuel as [|fuel IH]; intros s Hinv Hcase; simpl.
  - destruct (Zen3.guard images s); [discriminate|]. by intros [= <-].
  - destruct (Zen3.guard images s) eqn:G; [|by intros [= <-]].
    apply andb_true_iff in G as [G1%Z.ltb_lt _].
    destruct (zen_iteration_spec t images cw ch s Hinv G1) as [_ Hspec].
    destruct (Zen3.iteration t images cw ch s) as [s1|e] eqn:E; [|discriminate].
    destruct (Hspec s1 eq_refl) as (Hinv1 & Hle & Hatt & _).
    apply IH; [exact Hinv1|].
    destruct Hcase as [Heq|Hfull]; [|right; by eapply zen_full_stays_full].
    destruct (zen_iteration_places t images cw ch s s1 Hinv E) as [Hidx|Hfull].
    + left. lia.
    + right. by eapply zen_full_stays_full.
Qed.

(** X13.  Mode B leaves images out only when the grid is full: in the
    state a run ends in, every image of the queue is pasted or every cell
    of the grid is occupied.  Until the grid is full no attempt is lost:
    as many images are pasted as attempts were made. *)
Theorem zen_images_left_only_when_grid_full :
  ∀ (t : tape) (shuffled : list image * nat) (sw sh : Z) (fuel : nat) (s : Zen3.state),
    Zen3.layout t shuffled sw sh fuel = Some (Ok s) →
    (Zen3.placement_attempts s = Zen3.image_idx s ∨ all_occupied (Zen3.grid_of s)) ∧
    (Z.of_nat (length (Zen3.canvas_of s)) = Z.of_nat (length shuffled.1) ∨
     all_occupied (Zen3.grid_of s)).
Proof.
  intros t shuffled sw sh fuel s Hrun. unfold Zen3.layout in Hrun.
  pose proof (zen_inv_initial shuffled.1 (Zen3.cell_width sw) (Zen3.cell_height sh)
                shuffled.2) as H0.
  assert (Hcase : Zen3.placement_attempts s = Zen3.image_idx s
                  ∨ all_occupied (Zen3.grid_of s)).
  { eapply zen_while_loop_no_waste; [exact H0 | by left | exact Hrun]. }
  split; [exact Hcase|].
  destruct Hcase as [Heq|Hfull]; [|by right]. left.
  destruct (zen_while_loop_spec _ _ _ _ _ _ _ H0 Hrun) as [_ Hspec].
  destruct (Hspec s eq_refl) as ((_ & Hidx & Hle & _) & _).
  assert (Hstart : Zen3.image_idx (Zen3.initial shuffled.2)
                   ≤ Zen3.placement_attempts (Zen3.initial shuffled.2)) by (simpl; lia).
  destruct (zen_while_loop_exit _ _ _ _ _ _ _ Hstart Hrun) as [_ G].
  unfold Zen3.guard in G.
  apply andb_false_iff in G as [G|G]; apply Z.ltb_ge in G; lia.
Qed.

Lemma zen_images_left_only_when_grid_full_witness :
  ∃ s, Zen3.layout tape_20 ([Image 87 62], O) 2560 1080 3 = Some (Ok s) ∧
       (Z.of_nat (length (Zen3.canvas_of s)) = 1 ∨ all_occupied (Zen3.grid_of s)).
Proof.
  eexists. split; [vm_compute; reflexivity|].
  apply (zen_images_left_only_when_grid_full tape_20 ([Image 87 62], O) 2560 1080 3%nat).
  vm_compute. reflexivity.
Defined.

(** ** The five best positions *)

(** *** The order of the entries *)

Lemma SFltb_key (a b : float) :
  is_number a = true → is_number b = true →
  (SFltb a b = true ↔
   key_lt (candidate_key (a, 0, 0)) (candidate_key (b, 0, 0))).
Proof.
  intros Ha Hb. unfold SFltb, SFcompare, candidate_key, key_lt, float_key.
  destruct a as [sa|sa| |sa ma ea], b as [sb|sb| |sb mb eb];
    try discriminate; try destruct sa; try destruct sb;
    try (split; intros H; first [reflexivity | discriminate | lia]).
  - change (Pos.compare_cont Eq ma mb) with (Pos.compare ma mb).
    destruct (Z.compare_spec ea eb), (Pos.compare_spec ma mb); simpl;
      split; intros H'; first [reflexivity | discriminate | lia].
  - change (Pos.compare_cont Eq ma mb) with (Pos.compare ma mb).
    destruct (Z.compare_spec ea eb), (Pos.compare_spec ma mb); simpl;
      split; intros H'; first [reflexivity | discriminate | lia].
Qed.

Lemma SFeqb_key (a b : float) :
  is_number a = true → is_number b = true →
  (SFeqb a b = true ↔ float_key a = float_key b).
Proof.
  intros Ha Hb. unfold SFeqb, SFcompare, float_key.
  destruct a as [sa|sa| |sa ma ea], b as [sb|sb| |sb mb eb];
    try discriminate; try destruct sa; try destruct sb;
    try (split; intros H; first [reflexivity | discriminate | congruence]).
  - change (Pos.compare_cont Eq ma mb) with (Pos.compare ma mb).
    destruct (Z.compare_spec ea eb), (Pos.compare_spec ma mb); simpl;
      split; intros H'; first [reflexivity | discriminate | congruence
                              | injection H'; lia].
  - change (Pos.compare_cont Eq ma mb) with (Pos.compare ma mb).
    destruct (Z.compare_spec ea eb), (Pos.compare_spec ma mb); simpl;
      split; intros H'; first [reflexivity | discriminate | congruence
                              | injection H'; lia].
Qed.

(** On entries whose scores are numbers, [candidate_lt] is the order of
    the keys. *)
Lemma candidate_lt_key (a b : Zen3.candidate) :
  is_number a.1.1 = true → is_number b.1.1 = true →
  (Zen3.candidate_lt a b = true ↔ key_lt (candidate_key a) (candidate_key b)).
Proof.
  destruct a as [[sa ra] ca], b as [[sb rb] cb]. simpl. intros Ha Hb.
  pose proof (SFltb_key sa sb Ha Hb) as Hlt.
  pose proof (SFeqb_key sa sb Ha Hb) as Heq.
  unfold candidate_key, key_lt in *.
  destruct (float_key sa) as [[a1 a2] a3], (float_key sb) as [[b1 b2] b3].
  destruct (SFeqb sa sb).
  - assert (E : (a1, a2, a3) = (b1, b2, b3)) by (by apply Heq).
    injection E as -> -> ->.
    destruct (Z.eqb_spec ra rb) as [->|Hne].
    + rewrite Z.ltb_lt. lia.
    + rewrite Z.ltb_lt. lia.
  - assert (E : (a1, a2, a3) ≠ (b1, b2, b3)).
    { intros E. apply Heq in E. discriminate. }
    rewrite Hlt. split; [intros H; lia|]. intros H.
    assert (a1 ≠ b1 ∨ a2 ≠ b2 ∨ a3 ≠ b3).
    { destruct (decide (a1 = b1)) as [->|]; [|by left].
      destruct (decide (a2 = b2)) as [->|]; [|by right; left].
      destruct (decide (a3 = b3)) as [->|]; [|by right; right]. done. }
    lia.
Qed.

Lemma key_lt_asym (a b : Z * Z * Z * Z * Z) : key_lt a b → key_lt b a → False.
Proof.
  destruct a as [[[[a1 a2] a3] a4] a5], b as [[[[b1 b2] b3] b4] b5].
  unfold key_lt. lia.
Qed.

Lemma key_lt_negtrans (a b c : Z * Z * Z * Z * Z) :
  ¬ key_lt a b → ¬ key_lt b c → ¬ key_lt a c.
Proof.
  destruct a as [[[[a1 a2] a3] a4] a5], b as [[[[b1 b2] b3] b4] b5],
           c as [[[[c1 c2] c3] c4] c5].
  unfold key_lt. lia.
Qed.

Lemma candidate_lt_asym (a b : Zen3.candidate) :
  is_number a.1.1 = true → is_number b.1.1 = true →
  Zen3.candidate_lt a b = true → Zen3.candidate_lt b a = false.
Proof.
  intros Ha Hb Hab. apply not_true_is_false. intros Hba.
  apply candidate_lt_key in Hab, Hba; try assumption.
  by eapply key_lt_asym.
Qed.

Lemma candidate_lt_irrefl (a : Zen3.candidate) :
  is_number a.1.1 = true → Zen3.candidate_lt a a = false.
Proof.
  intros Ha. apply not_true_is_false. intros H.
  pose proof (candidate_lt_asym a a Ha Ha H). congruence.
Qed.

Lemma candidate_lt_negtrans (a b c : Zen3.candidate) :
  is_number a.1.1 = true → is_number b.1.1 = true → is_number c.1.1 = true →
  Zen3.candidate_lt a b = false → Zen3.candidate_lt b c = false →
  Zen3.candidate_lt a c = false.
Proof.
  intros Ha Hb Hc Hab Hbc. apply not_true_is_false. intros Hac.
  apply candidate_lt_key in Hac; try assumption.
  revert Hac. apply (key_lt_negtrans _ (candidate_key b)).
  - intros H. apply candidate_lt_key in H; try assumption. congruence.
  - intros H. apply candidate_lt_key in H; try assumption. congruence.
Qed.

(** *** The sort *)

Lemma insert_desc_perm (x : Zen3.candidate) (l : list Zen3.candidate) :
  Zen3.insert_desc x l ≡ₚ x :: l.
Proof.
  induction l as [|y l IH]; simpl; [reflexivity|].
  destruct (Zen3.candidate_lt x y); [|reflexivity].
  rewrite IH. apply Permutation_swap.
Qed.

Lemma sort_desc_perm (l : list Zen3.candidate) : Zen3.sort_desc l ≡ₚ l.
Proof.
  induction l as [|x l IH]; simpl; [reflexivity|].
  rewrite insert_desc_perm. by rewrite IH.
Qed.

Lemma insert_desc_sorted (x : Zen3.candidate) (l : list Zen3.candidate) :
  is_number x.1.1 = true → Forall (λ y, is_number y.1.1 = true) l →
  desc_sorted l → desc_sorted (Zen3.insert_desc x l).
Proof.
  intros Hx Hl Hs. induction Hs as [|y l Hy Hs IH]; simpl.
  - constructor; constructor.
  - inversion Hl as [|? ? Hny Hnl]; subst.
    destruct (Zen3.candidate_lt x y) eqn:E.
    + constructor; [|by apply IH].
      rewrite Forall_forall. intros z Hz.
      apply elem_of_insert_desc in Hz as [->|Hz].
      * by apply candidate_lt_asym.
      * rewrite Forall_forall in Hy. by apply Hy.
    + constructor; [|by constructor].
      constructor; [exact E|].
      rewrite Forall_forall in Hy, Hnl. rewrite Forall_forall. intros z Hz.
      apply (candidate_lt_negtrans x y z); auto.
Qed.

Lemma sort_desc_sorted (l : list Zen3.candidate) :
  Forall (λ y, is_number y.1.1 = true) l → desc_sorted (Zen3.sort_desc l).
Proof.
  induction l as [|x l IH]; intros Hl; simpl; [constructor|].
  inversion Hl as [|? ? Hx Hl']; subst.
  apply insert_desc_sorted; [exact Hx | | by apply IH].
  rewrite Forall_forall in Hl'. rewrite Forall_forall. intros y Hy.
  apply Hl'. by apply elem_of_sort_desc.
Qed.

Lemma desc_sorted_descending (l : list Zen3.candidate) :
  desc_sorted l → descending l.
Proof.
  intros Hs. induction Hs as [|x l Hx Hs IH]; intros i j a b Hij Hi Hj.
  - rewrite lookup_nil in Hi. discriminate.
  - destruct j as [|j]; [lia|]. simpl in Hj. destruct i as [|i]; simpl in Hi.
    + injection Hi as <-. rewrite Forall_forall in Hx.
      apply Hx. by eapply list_elem_of_lookup_2.
    + apply (IH i j); [lia | assumption | assumption].
Qed.

Lemma filter_none {A : Type} (P : A → Prop) `{∀ x, Decision (P x)} (l : list A) :
  Forall (λ x, ¬ P x) l → filter P l = [].
Proof.
  induction 1 as [|x l Hx _ IH]; [reflexivity|].
  by rewrite filter_cons_False, IH.
Qed.

(** In a list in descending order, the entries above the one at index [i]
    are among the [i] before it. *)
Lemma better_candidates_sorted (l : list Zen3.candidate) (i : nat) (x : Zen3.candidate) :
  Forall (λ y, is_number y.1.1 = true) l →
  descending l → l !! i = Some x →
  (length (better_candidates x l) ≤ i)%nat.
Proof.
  intros Hnum Hdesc Hx. unfold better_candidates.
  rewrite <- (take_drop i l) at 1. rewrite filter_app, length_app.
  assert (Hrest : filter (λ q, Zen3.candidate_lt x q = true) (drop i l) = []).
  { apply filter_none. rewrite Forall_forall. intros y Hy Hlt.
    apply list_elem_of_lookup_1 in Hy as [k Hk]. rewrite lookup_drop in Hk.
    destruct k as [|k].
    - rewrite Nat.add_0_r, Hx in Hk. injection Hk as <-.
      rewrite candidate_lt_irrefl in Hlt; [discriminate|].
      rewrite Forall_forall in Hnum. apply Hnum. by eapply list_elem_of_lookup_2.
    - rewrite (Hdesc i (i + S k)%nat x y) in Hlt; [discriminate | lia | exact Hx | exact Hk]. }
  rewrite Hrest. simpl.
  pose proof (length_filter (λ q, Zen3.candidate_lt x q = true) (take i l)) as H.
  rewrite length_take in H. lia.
Qed.

(** *** The scores *)

Lemma scores_are_numbers :
  forallb (λ n, forallb (λ r, forallb (λ c,
    match Zen3.score_of n r c with
    | Ok f => is_number f
    | Raise _ => false
    end) (seqZ 0 28)) (seqZ 0 8)) (seqZ 0 225) = true.
Proof. vm_compute. reflexivity. Qed.

Lemma score_is_number (n r c : Z) (sc : float) :
  0 ≤ n ≤ 224 → in_grid Zen3.GRID_ROWS Zen3.GRID_COLS r c →
  Zen3.score_of n r c = Ok sc → is_number sc = true.
Proof.
  intros Hn [Hr Hc] Hsc. unfold Zen3.GRID_ROWS, Zen3.GRID_COLS in *.
  pose proof scores_are_numbers as H.
  rewrite forallb_forall in H.
  specialize (H n ltac:(apply list_elem_of_In, elem_of_seqZ; lia)).
  rewrite forallb_forall in H.
  specialize (H r ltac:(apply list_elem_of_In, elem_of_seqZ; lia)).
  rewrite forallb_forall in H.
  specialize (H c ltac:(apply list_elem_of_In, elem_of_seqZ; lia)).
  cbv beta in H. by rewrite Hsc in H.
Qed.

Lemma scored_candidate_number (g : grid) (chunk_w chunk_h : Z) (x : Zen3.candidate) :
  grid_wf Zen3.GRID_ROWS Zen3.GRID_COLS g →
  scored_candidate g chunk_w chunk_h x → is_number x.1.1 = true.
Proof.
  intros Hwf (Hin & _ & n & Hn & Hsc).
  destruct (count_neighbors_spec g chunk_w chunk_h x.1.2 x.2 Hwf) as (n' & Hn' & Hb).
  rewrite Hn in Hn'. injection Hn' as <-.
  by eapply score_is_number.
Qed.

(** *** The entries of [positions] *)

Lemma positions_cols_scored (g : grid) (chunk_w chunk_h row : Z) (cols : list Z)
  (ps ps' : list Zen3.candidate) :
  grid_wf Zen3.GRID_ROWS Zen3.GRID_COLS g → 0 ≤ row < Zen3.GRID_ROWS →
  Forall (λ c, 0 ≤ c < Zen3.GRID_COLS) cols →
  Forall (scored_candidate g chunk_w chunk_h) ps →
  Zen3.positions_cols g chunk_w chunk_h row cols ps = Ok ps' →
  Forall (scored_candidate g chunk_w chunk_h) ps'.
Proof.
  intros Hwf Hrow. revert ps. induction cols as [|col cols IH]; intros ps Hcols Hps; simpl.
  - by intros [= <-].
  - inversion Hcols as [|? ? Hcol Hcols']; subst.
    destruct (fits_spec Zen3.GRID_ROWS Zen3.GRID_COLS g chunk_w chunk_h row col Hwf
                ltac:(lia) ltac:(lia)) as (b & -> & Hiff). simpl.
    destruct b; [|by apply IH].
    destruct (Zen3.count_neighbors g chunk_w chunk_h row col) as [n|e] eqn:Hn;
      simpl; [|discriminate].
    destruct (Zen3.score_of n row col) as [sc|e] eqn:Hsc; simpl; [|discriminate].
    apply IH; [exact Hcols'|]. apply Forall_app. split; [exact Hps|].
    apply Forall_singleton. split; [split; simpl; lia|].
    split; [by apply Hiff|]. exists n. split; assumption.
Qed.

Lemma positions_rows_scored (g : grid) (chunk_w chunk_h : Z) (rows cols : list Z)
  (ps ps' : list Zen3.candidate) :
  grid_wf Zen3.GRID_ROWS Zen3.GRID_COLS g →
  Forall (λ r, 0 ≤ r < Zen3.GRID_ROWS) rows →
  Forall (λ c, 0 ≤ c < Zen3.GRID_COLS) cols →
  Forall (scored_candidate g chunk_w chunk_h) ps →
  Zen3.positions_rows g chunk_w chunk_h rows cols ps = Ok ps' →
  Forall (scored_candidate g chunk_w chunk_h) ps'.
Proof.
  intros Hwf Hrows Hcols. revert ps.
  induction rows as [|row rows IH]; intros ps Hps; simpl.
  - by intros [= <-].
  - inversion Hrows as [|? ? Hrow Hrows']; subst.
    destruct (Zen3.positions_cols g chunk_w chunk_h row cols ps) as [ps1|e] eqn:E;
      simpl; [|discriminate].
    apply IH; [exact Hrows'|].
    by eapply positions_cols_scored.
Qed.

(** X14.  On a grid of the right shape [find_best_position] raises
    nothing.  The entries of [positions] are the anchors at which the shape
    fits, each with the score of its row, its column and its count of
    occupied neighbours, and every score is a number.  The position
    returned is one of the five best entries in Python's order on the
    tuples [(score, row, col)]: fewer than five entries are above it.  No
    position is returned exactly when there is no entry, and then no draw
    is made. *)
Theorem find_best_position_among_top_five :
  ∀ (t : tape) (cur : nat) (g : grid) (chunk_w chunk_h : Z),
    grid_wf Zen3.GRID_ROWS Zen3.GRID_COLS g →
    ∃ ps res cur',
      Zen3.positions_rows g chunk_w chunk_h
        (range 0 Zen3.GRID_ROWS) (range 0 Zen3.GRID_COLS) [] = Ok ps ∧
      Zen3.find_best_position t cur g chunk_w chunk_h = Ok (res, cur') ∧
      Forall (λ x, scored_candidate g chunk_w chunk_h x ∧ is_number x.1.1 = true) ps ∧
      (∀ r c, in_grid Zen3.GRID_ROWS Zen3.GRID_COLS r c →
              rect_free Zen3.GRID_ROWS Zen3.GRID_COLS g chunk_w chunk_h r c →
              ∃ sc, (sc, r, c) ∈ ps) ∧
      match res with
      | Some (r, c) =>
          cur' = S cur ∧
          ∃ sc, (sc, r, c) ∈ ps ∧ (length (better_candidates (sc, r, c) ps) < 5)%nat
      | None => cur' = cur ∧ ps = []
      end.
Proof.
  intros t cur g chunk_w chunk_h Hwf.
  destruct (positions_rows_spec g chunk_w chunk_h
              (range 0 Zen3.GRID_ROWS) (range 0 Zen3.GRID_COLS) [] Hwf)
    as (ps & Hps & _ & _ & Hcompl); [apply Forall_range; lia ..|].
  assert (Hscored : Forall (scored_candidate g chunk_w chunk_h) ps).
  { eapply positions_rows_scored; [exact Hwf | | | constructor | exact Hps];
      apply Forall_range; lia. }
  assert (Hnum : Forall (λ y : Zen3.candidate, is_number y.1.1 = true) ps).
  { eapply Forall_impl; [exact Hscored|]. intros x Hx.
    by eapply scored_candidate_number. }
  unfold Zen3.find_best_position. rewrite Hps. cbv beta iota delta [rbind].
  destruct ps as [|p0 ps].
  - exists [], None, cur. repeat split; try reflexivity; try constructor.
    intros r c Hin Hfree.
    apply (Hcompl r c); [apply elem_of_range, Hin | apply elem_of_range, Hin | exact Hfree].
  - remember (Zen3.sort_desc (p0 :: ps)) as sorted eqn:Esorted.
    remember (take (Nat.min 5 (length sorted)) sorted) as top eqn:Etop.
    assert (Hlen : (0 < length top ≤ 5)%nat).
    { subst top sorted. rewrite length_take, length_sort_desc. cbn [length]. lia. }
    destruct top as [|q0 top']; [simpl in Hlen; lia|].
    cbv beta iota.
    destruct (getitem_in_range (q0 :: top')
                (Z.of_nat (randbelow t cur (length (q0 :: top')))))
      as [[[sc r] c] Hget].
    { unfold randbelow.
      pose proof (Nat.mod_upper_bound (t cur) (length (q0 :: top'))). cbn [length] in *. lia. }
    rewrite Hget. cbv beta iota delta [rbind]. cbn [fst snd].
    exists (p0 :: ps), (Some (r, c)), (S cur).
    split; [reflexivity|]. split; [reflexivity|]. split.
    { rewrite Forall_forall in Hscored, Hnum. rewrite Forall_forall.
      intros x Hx. split; [by apply Hscored | by apply Hnum]. }
    split.
    { intros r' c' Hin Hfree.
      apply (Hcompl r' c'); [apply elem_of_range, Hin | apply elem_of_range, Hin | exact Hfree]. }
    split; [reflexivity|]. exists sc.
    apply getitem_Ok in Hget as [_ Hget]. rewrite Nat2Z.id in Hget.
    set (i := randbelow t cur (length (q0 :: top'))) in *.
    assert (Hi : (i < 5)%nat).
    { apply lookup_lt_Some in Hget. lia. }
    rewrite Etop, lookup_take_Some in Hget. destruct Hget as [Hget _].
    split.
    + apply (elem_of_sort_desc (sc, r, c) (p0 :: ps)). rewrite <- Esorted.
      by eapply list_elem_of_lookup_2.
    + assert (Hperm : sorted ≡ₚ p0 :: ps) by (subst sorted; apply sort_desc_perm).
      unfold better_candidates. rewrite <- Hperm.
      assert (Hnum' : Forall (λ y : Zen3.candidate, is_number y.1.1 = true) sorted).
      { by rewrite Hperm. }
      pose proof (better_candidates_sorted sorted i (sc, r, c) Hnum'
                    ltac:(subst sorted; by apply desc_sorted_descending, sort_desc_sorted)
                    Hget) as Hbetter.
      unfold better_candidates in Hbetter. lia.
Qed.

Lemma find_best_position_among_top_five_witness :
  ∃ ps res cur',
    Zen3.positions_rows (new_grid Zen3.GRID_ROWS Zen3.GRID_COLS) 2 1
      (range 0 Zen3.GRID_ROWS) (range 0 Zen3.GRID_COLS) [] = Ok ps ∧
    Zen3.find_best_position tape_20 0 (new_grid Zen3.GRID_ROWS Zen3.GRID_COLS) 2 1
    = Ok (res, cur') ∧
    match res with
    | Some (r, c) =>
        ∃ sc, (sc, r, c) ∈ ps ∧ (length (better_candidates (sc, r, c) ps) < 5)%nat
    | None => ps = []
    end.
Proof.
  destruct (find_best_position_among_top_five tape_20 0
              (new_grid Zen3.GRID_ROWS Zen3.GRID_COLS) 2 1)
    as (ps & res & cur' & Hps & Hres & _ & _ & Hbest).
  - split; [reflexivity|]. vm_compute. repeat constructor.
  - exists ps, res, cur'. split; [exact Hps|]. split; [exact Hres|].
    destruct res as [[r c]|]; [exact (proj2 Hbest) | exact (proj2 Hbest)].
Defined.

(** ** The screen resolution *)

Section ResolutionFacts.

Variable isspace : Resolution.ascii → bool.
Variable int : Resolution.text → option Z.

Lemma split_on_head (sep : Resolution.ascii) (s : Resolution.text) :
  ∃ rest, Resolution.split_on sep s = before sep s :: rest.
Proof.
  induction s as [|c s [rest IH]]; simpl; [by exists []|].
  destruct (Ascii.eqb c sep); [eauto|]. rewrite IH. eauto.
Qed.

(** A text without the separator is one piece. *)
Lemma split_on_none (sep : Resolution.ascii) (s : Resolution.text) :
  Resolution.has_char sep s = false → Resolution.split_on sep s = [s].
Proof.
  induction s as [|c s IH]; simpl; [reflexivity|].
  rewrite Ascii.eqb_sym. destruct (Ascii.eqb c sep); [discriminate|].
  simpl. intros H. by rewrite IH.
Qed.

(** The first piece ends at the first separator. *)
Lemma split_on_app (sep : Resolution.ascii) (a b : Resolution.text) :
  Resolution.has_char sep a = false →
  Resolution.split_on sep (a ++ sep :: b) = a :: Resolution.split_on sep b.
Proof.
  induction a as [|c a IH]; simpl.
  - by rewrite Ascii.eqb_refl.
  - rewrite Ascii.eqb_sym. destruct (Ascii.eqb c sep); [discriminate|].
    simpl. intros H. by rewrite IH.
Qed.

Lemma split_on_cases (sep : Resolution.ascii) (s : Resolution.text) :
  (Resolution.has_char sep s = false ∧ Resolution.split_on sep s = [s]) ∨
  ∃ a b, s = a ++ sep :: b ∧ Resolution.has_char sep a = false ∧
         Resolution.split_on sep s = a :: Resolution.split_on sep b.
Proof.
  destruct (Resolution.has_char sep s) eqn:E.
  - right. induction s as [|c s IH]; [discriminate|]. simpl in E.
    rewrite Ascii.eqb_sym in E. destruct (Ascii.eqb_spec c sep) as [->|Hne].
    + exists [], s. split; [reflexivity|]. split; [reflexivity|].
      simpl. by rewrite Ascii.eqb_refl.
    + simpl in E. destruct (IH E) as (a & b & -> & Ha & _).
      exists (c :: a), b. split; [reflexivity|]. split.
      * simpl. rewrite Ascii.eqb_sym.
        destruct (Ascii.eqb_spec c sep); [done|]. exact Ha.
      * apply (split_on_app sep (c :: a) b). simpl. rewrite Ascii.eqb_sym.
        destruct (Ascii.eqb_spec c sep); [done|]. exact Ha.
  - left. split; [reflexivity|]. by apply split_on_none.
Qed.

Lemma split_on_not_nil (sep : Resolution.ascii) (s : Resolution.text) :
  Resolution.split_on sep s ≠ [].
Proof. destruct (split_on_head sep s) as [rest ->]. discriminate. Qed.

(** Two pieces: one separator. *)
Lemma split_on_two (sep : Resolution.ascii) (s a b : Resolution.text) :
  Resolution.split_on sep s = [a; b] ↔
  s = a ++ sep :: b ∧ Resolution.has_char sep a = false
  ∧ Resolution.has_char sep b = false.
Proof.
  split.
  - intros H. destruct (split_on_cases sep s) as [[_ H1]|(a' & b' & -> & Ha & H1)].
    + rewrite H1 in H. discriminate.
    + rewrite H1 in H. injection H as -> H.
      destruct (split_on_cases sep b') as [[Hb H2]|(a2 & b2 & -> & _ & H2)].
      * rewrite H2 in H. injection H as ->. auto.
      * rewrite H2 in H. injection H as _ H. by apply split_on_not_nil in H.
  - intros (-> & Ha & Hb). rewrite split_on_app by exact Ha.
    by rewrite split_on_none.
Qed.

(** A text that holds [eDP] holds [DP]. *)
Lemma contains_eDP (s : Resolution.text) :
  Resolution.contains (Resolution.str "eDP") s = true →
  Resolution.contains (Resolution.str "DP") s = true.
Proof.
  induction s as [|c s IH]; [discriminate|].
  intros H. cbn [Resolution.contains] in H. apply orb_true_iff in H as [H|H].
  - cbn [Resolution.contains]. apply orb_true_iff. right.
    change (Resolution.str "eDP") with ("e"%char :: Resolution.str "DP") in H.
    cbn [Resolution.starts_with] in H. apply andb_true_iff in H as [_ H].
    destruct s as [|d s]; [discriminate|].
    cbn [Resolution.contains]. apply orb_true_iff. by left.
  - cbn [Resolution.contains]. apply orb_true_iff. right. by apply IH.
Qed.

Lemma monitor_line_spec (line : Resolution.text) :
  Resolution.has_char "@"%char line && Resolution.has_char "x"%char line &&
  (Resolution.contains (Resolution.str "HDMI") line
   || Resolution.contains (Resolution.str "DP") line
   || Resolution.contains (Resolution.str "eDP") line)
  = monitor_line line.
Proof.
  unfold monitor_line. f_equal.
  destruct (Resolution.contains (Resolution.str "eDP") line) eqn:E.
  - rewrite (contains_eDP line E). by rewrite !orb_true_r.
  - by rewrite orb_false_r.
Qed.

Lemma unpack_not_continue (rp : Resolution.text) :
  Resolution.unpack int rp ≠ Resolution.Continue.
Proof.
  unfold Resolution.unpack.
  destruct (Resolution.split_on _ rp) as [|a [|b [|c l]]]; try discriminate.
  destruct (int a), (int b); discriminate.
Qed.

(** The loop over the parts stops at the first part that has an [@] and
    an [x] before it. *)
Lemma parts_loop_first (parts : list Resolution.text) :
  Resolution.parts_loop isspace int parts =
  match filter (λ part, resolution_token isspace part = true) parts with
  | [] => Resolution.Continue
  | part :: _ => Resolution.unpack int (Resolution.strip isspace (before "@"%char part))
  end.
Proof.
  induction parts as [|part rest IH]; [reflexivity|].
  cbn [Resolution.parts_loop]. unfold resolution_token at 1.
  destruct (split_on_head "@"%char part) as [tail ->].
  destruct (Resolution.has_char "x"%char part && Resolution.has_char "@"%char part) eqn:E.
  - cbv zeta.
    destruct (Resolution.has_char "x"%char
                (Resolution.strip isspace (before "@"%char part))) eqn:E2.
    + rewrite filter_cons_True; [reflexivity|].
      unfold resolution_token. by rewrite E, E2.
    + rewrite filter_cons_False; [exact IH|].
      unfold resolution_token. rewrite E, E2. discriminate.
  - rewrite filter_cons_False; [exact IH|].
    unfold resolution_token. rewrite E. discriminate.
Qed.

Lemma lines_loop_first (lines : list Resolution.text) :
  Resolution.lines_loop isspace int lines =
  match lines ≫= (λ line,
          if monitor_line line
          then filter (λ part, resolution_token isspace part = true)
                 (Resolution.split isspace line)
          else []) with
  | [] => Resolution.Continue
  | part :: _ => Resolution.unpack int (Resolution.strip isspace (before "@"%char part))
  end.
Proof.
  induction lines as [|line rest IH]; [reflexivity|].
  cbn [Resolution.lines_loop]. rewrite monitor_line_spec, bind_cons.
  destruct (monitor_line line); [|exact IH].
  rewrite parts_loop_first.
  destruct (filter _ (Resolution.split isspace line)) as [|part parts]; [exact IH|].
  simpl.
  pose proof (unpack_not_continue (Resolution.strip isspace (before "@"%char part))) as H.
  by destruct (Resolution.unpack int _).
Qed.

(** The parts that [split] gives hold no white space. *)
Lemma split_no_space (line : Resolution.text) :
  Forall (λ part, part ≠ [] ∧ Forall (λ c, isspace c = false) part)
    (Resolution.split isspace line).
Proof.
  induction line as [|c s IH]; [constructor|]. cbn [Resolution.split].
  destruct (isspace c) eqn:Ec; [exact IH|].
  destruct s as [|d s']; [repeat constructor; [discriminate | exact Ec]|].
  destruct (isspace d) eqn:Ed.
  - constructor; [|exact IH]. split; [discriminate|]. repeat constructor. exact Ec.
  - destruct (Resolution.split isspace (d :: s')) as [|word rest].
    + repeat constructor; [discriminate | exact Ec].
    + inversion IH as [|? ? [_ Hword] Hrest]; subst.
      constructor; [|exact Hrest]. split; [discriminate|]. by constructor.
Qed.

Lemma lstrip_no_space (s : Resolution.text) :
  Forall (λ c, isspace c = false) s → Resolution.lstrip isspace s = s.
Proof. intros H. destruct H as [|c s Hc _]; [reflexivity|]. simpl. by rewrite Hc. Qed.

Lemma strip_no_space (s : Resolution.text) :
  Forall (λ c, isspace c = false) s → Resolution.strip isspace s = s.
Proof.
  intros H. unfold Resolution.strip. rewrite (lstrip_no_space s H).
  rewrite lstrip_no_space; [apply rev_involutive|].
  by apply Forall_rev.
Qed.

Lemma before_no_space (sep : Resolution.ascii) (s : Resolution.text) :
  Forall (λ c, isspace c = false) s → Forall (λ c, isspace c = false) (before sep s).
Proof.
  induction 1 as [|c s Hc _ IH]; simpl; [constructor|].
  destruct (Ascii.eqb c sep); [constructor | by constructor].
Qed.

End ResolutionFacts.

(** X15.  [get_screen_resolution] raises nothing, and the first part of
    the output that qualifies decides its result alone.  A part qualifies
    when it has an [@] and an [x] before its first [@], in a line that has
    an [@], an [x] and [HDMI] or [DP] ([eDP] adds nothing).  The result is
    the two integers of that part when the text before its [@] unpacks to
    two integers; in every other case (the command raised or returned a
    code other than 0, no part qualifies, or the first one that does is
    not of that form) it is 5120 by 1440; parts that come later are not
    looked at. *)
Theorem resolution_decided_by_first_candidate :
  ∀ (isspace : Resolution.ascii → bool) (int : Resolution.text → option Z)
    (run : Resolution.completed),
    Resolution.get_screen_resolution isspace int run =
    match run with
    | Resolution.RunRaises => (5120, 1440)
    | Resolution.Completed returncode stdout =>
        if returncode =? 0 then
          match candidate_tokens isspace stdout with
          | [] => (5120, 1440)
          | part :: _ =>
              match Resolution.unpack int
                      (Resolution.strip isspace (before "@"%char part)) with
              | Resolution.Return width height => (width, height)
              | _ => (5120, 1440)
              end
          end
        else (5120, 1440)
    end.
Proof.
  intros isspace int [|returncode stdout]; [reflexivity|].
  unfold Resolution.get_screen_resolution.
  destruct (returncode =? 0); [|reflexivity].
  rewrite lines_loop_first. fold (candidate_tokens isspace stdout).
  destruct (candidate_tokens isspace stdout) as [|part rest]; [reflexivity|].
  by destruct (Resolution.unpack int _).
Qed.

(** X16.  The text before the [@] gives a resolution exactly when it is
    [W x H] with one [x] and [int] accepts both [W] and [H]; the result is
    then what [int] returns for them.  A second [x], as in a part
    [1920x1080x60@...], makes the unpacking raise. *)
Theorem unpack_accepts_width_x_height :
  ∀ (int : Resolution.text → option Z) (resolution_part : Resolution.text)
    (width height : Z),
    Resolution.unpack int resolution_part = Resolution.Return width height ↔
    ∃ a b, resolution_part = a ++ "x"%char :: b ∧
           Resolution.has_char "x"%char a = false ∧
           Resolution.has_char "x"%char b = false ∧
           int a = Some width ∧ int b = Some height.
Proof.
  intros int rp width height. unfold Resolution.unpack. split.
  - destruct (Resolution.split_on "x"%char rp) as [|a [|b [|c l]]] eqn:E;
      try discriminate.
    apply split_on_two in E as (-> & Ha & Hb).
    destruct (int a) as [w|] eqn:Ea; [|discriminate].
    destruct (int b) as [h|] eqn:Eb; [|discriminate].
    intros [= <- <-]. exists a, b. auto.
  - intros (a & b & -> & Ha & Hb & Ea & Eb).
    rewrite (proj2 (split_on_two "x"%char (a ++ "x"%char :: b) a b)) by auto.
    by rewrite Ea, Eb.
Qed.

(** X17.  The parts that [line.split()] gives are not empty and hold no
    white space, so the [strip()] applied to the text before the [@] of a
    part changes nothing. *)
Theorem split_parts_need_no_strip :
  ∀ (isspace : Resolution.ascii → bool) (line part : Resolution.text),
    part ∈ Resolution.split isspace line →
    part ≠ [] ∧ Forall (λ c, isspace c = false) part ∧
    Resolution.strip isspace (before "@"%char part) = before "@"%char part.
Proof.
  intros isspace line part Hin.
  pose proof (split_no_space isspace line) as H.
  rewrite Forall_forall in H. destruct (H part Hin) as [Hne Hns].
  split; [exact Hne|]. split; [exact Hns|].
  by apply strip_no_space, before_no_space.
Qed.

Lemma split_parts_need_no_strip_witness :
  Resolution.str "1x2@3" ∈ Resolution.split blank_only (Resolution.str "DP  1x2@3 ") ∧
  Resolution.strip blank_only (before "@"%char (Resolution.str "1x2@3"))
  = before "@"%char (Resolution.str "1x2@3").
Proof.
  assert (Hin : Resolution.str "1x2@3"
                ∈ Resolution.split blank_only (Resolution.str "DP  1x2@3 ")).
  { apply list_elem_of_In. vm_compute. right. left. reflexivity. }
  split; [exact Hin|].
  exact (proj2 (proj2 (split_parts_need_no_strip blank_only _ _ Hin))).
Defined.

(** ** The grid and the canvas *)

Lemma grid_covered_occupy (rows cols : Z) (g g' : grid) (cv : canvas) (p : paste) :
  grid_wf rows cols g →
  rect_in_bounds rows cols (p_row p) (p_col p) (p_chunk_w p) (p_chunk_h p) →
  occupy g (p_chunk_w p) (p_chunk_h p) (p_row p) (p_col p) = Ok g' →
  grid_covered g cv → grid_covered g' (cv ++ [p]).
Proof.
  intros Hwf Hin Hocc Hcov r c Hrc.
  destruct (occupy_spec rows cols g _ _ _ _ Hwf Hin) as (g2 & Hg2 & _ & Hget).
  rewrite Hocc in Hg2. injection Hg2 as <-.
  unfold occupied in Hrc. rewrite Hget in Hrc.
  destruct (in_rect (p_row p) (p_col p) (p_chunk_w p) (p_chunk_h p) r c) eqn:E.
  - exists p. split; [apply elem_of_app; right; by apply list_elem_of_singleton | exact E].
  - destruct (Hcov r c Hrc) as (q & Hq & Hcq). exists q.
    split; [apply elem_of_app; by left | exact Hcq].
Qed.

Lemma grid_covered_initial (rows cols : Z) : grid_covered (new_grid rows cols) [].
Proof. intros r c H. by apply new_grid_free in H. Qed.

Lemma zen_place_cells (images : list image) (cw ch : Z) (s s' : Zen3.state) (cur : nat)
  (chunk_w chunk_h row col : Z) :
  Zen3.place images cw ch s cur chunk_w chunk_h row col = Ok s' →
  occupy (Zen3.grid_of s) chunk_w chunk_h row col = Ok (Zen3.grid_of s') ∧
  ∃ p, Zen3.canvas_of s' = Zen3.canvas_of s ++ [p] ∧
       anchor_of p = (row, col, chunk_w, chunk_h).
Proof.
  unfold Zen3.place. intros H.
  apply rbind_Ok in H as (img & _ & H).
  apply rbind_Ok in H as ([[[[nw nh] crop] ox] oy] & _ & H).
  apply rbind_Ok in H as (g & Hg & [= <-]). simpl.
  split; [exact Hg|]. eexists. split; reflexivity.
Qed.

Lemma chaos_chunk_loop_covered (images : list image) (cw ch : Z) (chunks : list (Z * Z))
  (s s' : Chaos.state) :
  chaos_inv images cw ch s →
  grid_covered (Chaos.grid_of s) (Chaos.canvas_of s) →
  Chaos.chunk_loop images cw ch chunks s = Ok s' →
  grid_covered (Chaos.grid_of s') (Chaos.canvas_of s').
Proof.
  revert s. induction chunks as [|chunk rest IH]; intros s Hinv Hcov; simpl.
  - by intros [= <-].
  - destruct (chaos_attempt_spec images cw ch s chunk Hinv) as [_ Hspec].
    destruct (Chaos.attempt images cw ch s chunk) as [[|s1|]|e] eqn:E; simpl;
      [by apply IH | | by intros [= <-] | discriminate].
    destruct (Hspec _ eq_refl) as (Hinv1 & _ & _ & p & Hcv & Hshape & Hfirst).
    apply IH; [exact Hinv1|].
    rewrite chaos_attempt_first_fit, Hfirst in E. simpl in E.
    destruct (_ >=? _); [discriminate|].
    destruct (Chaos.place _ _ _ _ _ _ _ _) as [s2|e] eqn:E2; [|discriminate].
    injection E as ->.
    apply chaos_place_cells in E2 as (Hocc & _ & q & Hcv' & Hq).
    rewrite Hcv in Hcv'. apply app_inj_tail in Hcv' as [_ <-].
    rewrite Hcv. destruct Hinv1 as ((_ & Hbounds & _) & _).
    unfold anchor_of in Hq. injection Hq as Hq1 Hq2.
    eapply grid_covered_occupy; [by eapply chaos_wf | | | exact Hcov].
    + apply Hbounds. rewrite Hcv. apply elem_of_app. right.
      by apply list_elem_of_singleton.
    + by rewrite Hq1, Hq2.
Qed.

Lemma zen_while_loop_covered (t : tape) (images : list image) (cw ch : Z)
  (fuel : nat) (s s' : Zen3.state) :
  zen_inv images cw ch s →
  grid_covered (Zen3.grid_of s) (Zen3.canvas_of s) →
  Zen3.while_loop t images cw ch fuel s = Some (Ok s') →
  grid_covered (Zen3.grid_of s') (Zen3.canvas_of s').
Proof.
  revert s. induction fuel as [|fuel IH]; intros s Hinv Hcov; simpl.
  - destruct (Zen3.guard images s); [discriminate|]. by intros [= <-].
  - destruct (Zen3.guard images s) eqn:G; [|by intros [= <-]].
    apply andb_true_iff in G as [G1%Z.ltb_lt _].
    destruct (zen_iteration_spec t images cw ch s Hinv G1) as [_ Hspec].
    destruct (Zen3.iteration t images cw ch s) as [s1|e] eqn:E; [|discriminate].
    destruct (Hspec s1 eq_refl) as (Hinv1 & _).
    apply IH; [exact Hinv1|]. clear IH Hspec.
    unfold Zen3.iteration in E.
    destruct (Zen3.choose t (Zen3.cursor s) (Zen3.grid_of s))
      as [[[[[[r c] w] h]|] cur']|e] eqn:Hch; simpl in E; [| |discriminate].
    + apply zen_place_cells in E as (Hocc & p & Hcv & Hp).
      rewrite Hcv. destruct Hinv1 as ((_ & Hbounds & _) & _).
      unfold anchor_of in Hp. injection Hp as Hp1 Hp2 Hp3 Hp4.
      eapply grid_covered_occupy; [by eapply zen_wf | | | exact Hcov].
      * apply Hbounds. rewrite Hcv. apply elem_of_app. right.
        by apply list_elem_of_singleton.
      * by rewrite Hp1, Hp2, Hp3, Hp4.
    + injection E as <-. exact Hcov.
Qed.

(** X18.  In the state a run of either mode ends in, the grid and the
    canvas agree: a cell is occupied exactly when it lies in the rectangle
    of a paste.  No cell is marked without an image on it. *)
Theorem occupied_cells_are_pasted :
  (∀ (images : list image) (sw sh : Z) (chunks : list (Z * Z)) (s : Chaos.state),
     Chaos.layout images sw sh chunks = Ok s →
     ∀ r c, occupied (Chaos.grid_of s) r c ↔
            ∃ p, p ∈ Chaos.canvas_of s ∧ covers p r c = true) ∧
  (∀ (t : tape) (shuffled : list image * nat) (sw sh : Z) (fuel : nat) (s : Zen3.state),
     Zen3.layout t shuffled sw sh fuel = Some (Ok s) →
     ∀ r c, occupied (Zen3.grid_of s) r c ↔
            ∃ p, p ∈ Zen3.canvas_of s ∧ covers p r c = true).
Proof.
  split.
  - intros images sw sh chunks s Hrun r c.
    pose proof (chaos_inv_initial images (Chaos.cell_width sw) (Chaos.cell_height sh))
      as H0.
    destruct (chaos_chunk_loop_spec images _ _ chunks Chaos.initial H0) as [_ Hspec].
    destruct (Hspec s Hrun) as (((_ & _ & Hocc & _) & _) & _). split.
    + eapply chaos_chunk_loop_covered; [exact H0 | apply grid_covered_initial | exact Hrun].
    + intros (p & Hp & Hc). by eapply Hocc.
  - intros t shuffled sw sh fuel s Hrun r c.
    pose proof (zen_inv_initial shuffled.1 (Zen3.cell_width sw) (Zen3.cell_height sh)
                  shuffled.2) as H0.
    destruct (zen_while_loop_spec _ _ _ _ _ _ _ H0 Hrun) as [_ Hspec].
    destruct (Hspec s eq_refl) as (((_ & _ & Hocc & _) & _) & _). split.
    + eapply zen_while_loop_covered; [exact H0 | apply grid_covered_initial | exact Hrun].
    + intros (p & Hp & Hc). by eapply Hocc.
Qed.

Lemma occupied_cells_are_pasted_witness :
  ∃ s, Zen3.layout tape_20 ([Image 87 62], O) 2560 1080 3 = Some (Ok s) ∧
       (occupied (Zen3.grid_of s) 5 5 ↔
        ∃ p, p ∈ Zen3.canvas_of s ∧ covers p 5 5 = true).
Proof.
  eexists. split; [vm_compute; reflexivity|].
  apply (proj2 occupied_cells_are_pasted tape_20 ([Image 87 62], O) 2560 1080 3%nat).
  vm_compute. reflexivity.
Defined.


(** ** What Mode B returns *)

(** A run on a queue that is not empty pastes an image. *)
Lemma zen_run_pastes (t : tape) (shuffled : list image * nat) (sw sh : Z) (fuel : nat)
  (s : Zen3.state) :
  Zen3.layout t shuffled sw sh fuel = Some (Ok s) →
  shuffled.1 ≠ [] → Zen3.canvas_of s ≠ [].
Proof.
  intros Hrun Hne Hnil. pose proof Hrun as Hrun'. unfold Zen3.layout in Hrun.
  pose proof (zen_inv_initial shuffled.1 (Zen3.cell_width sw) (Zen3.cell_height sh)
                shuffled.2) as H0.
  destruct (zen_while_loop_spec _ _ _ _ _ _ _ H0 Hrun) as [_ Hspec].
  destruct (Hspec s eq_refl) as ((_ & Hidx & _) & _).
  assert (Hcase : Zen3.placement_attempts s = Zen3.image_idx s
                  ∨ all_occupied (Zen3.grid_of s)).
  { eapply zen_while_loop_no_waste; [exact H0 | by left | exact Hrun]. }
  destruct Hcase as [Heq|Hfull].
  - assert (Hstart : Zen3.image_idx (Zen3.initial shuffled.2)
                     ≤ Zen3.placement_attempts (Zen3.initial shuffled.2))
      by (simpl; lia).
    destruct (zen_while_loop_exit _ _ _ _ _ _ _ Hstart Hrun) as [_ G].
    rewrite Hnil in Hidx. simpl in Hidx.
    destruct shuffled.1 as [|img imgs]; [done|].
    unfold Zen3.guard in G. cbn [length] in G.
    apply andb_false_iff in G as [G|G]; apply Z.ltb_ge in G; lia.
  - assert (Hcov : grid_covered (Zen3.grid_of s) (Zen3.canvas_of s)).
    { eapply zen_while_loop_covered; [exact H0 | apply grid_covered_initial | exact Hrun]. }
    destruct (Hcov 0 0) as (p & Hp & _).
    { apply Hfull. unfold in_grid, Zen3.GRID_ROWS, Zen3.GRID_COLS. lia. }
    rewrite Hnil in Hp. inversion Hp.
Qed.

(** X19.  What [create_freeflow_layout] returns, when it returns: [None]
    exactly for an empty list; for a list of [n] images a canvas with at
    least one paste and at most [n] or 224, whichever is smaller, each of
    an image of the caller's list; and if it raises, the exception is not
    an [IndexError]. *)
Theorem create_freeflow_layout_returns_canvas :
  ∀ (t : tape) (h : store) (images : loc) (sw sh : Z) (fuel : nat)
    (r : result (option canvas)),
    (Zen3.create_freeflow_layout t h images sw sh fuel).1 = Some r →
    match r with
    | Ok None => contents h images = []
    | Ok (Some cv) =>
        contents h images ≠ [] ∧
        (1 ≤ length cv ≤ Nat.min (length (contents h images)) 224)%nat ∧
        Forall (λ p, p_image p ∈ contents h images) cv
    | Raise e => contents h images ≠ [] ∧ e ≠ IndexError
    end.
Proof.
  intros t h images sw sh fuel r.
  unfold Zen3.create_freeflow_layout.
  destruct (contents h images) as [|img imgs] eqn:E; [by intros [= <-]|].
  destruct (image_new_cases sw sh) as [(_ & _ & ->)|[_ ->]];
    [|intros [= <-]; split; [done | discriminate]].
  cbn [fst]. rewrite !contents_insert.
  set (l := img :: imgs).
  replace (((shuffle t 0 l).1, (shuffle t 0 l).2))
    with (shuffle t 0 l) by (by destruct (shuffle t 0 l)).
  assert (Hperm : (shuffle t 0 l).1 ≡ₚ l) by apply shuffle_Permutation.
  destruct (Zen3.layout t (shuffle t 0 l) sw sh fuel) as [[s|e]|] eqn:Hrun;
    [| |discriminate]; intros [= <-]; simpl.
  - split; [done|].
    destruct (zen_run_facts _ _ _ _ _ _ Hrun) as [Hinv Hall].
    pose proof (zen_shapes_positive _ Hall) as Hpos.
    destruct Hinv as (Hcanvas & Hidx & Hle & Hqueue & _).
    pose proof (canvas_capacity Zen3.GRID_ROWS Zen3.GRID_COLS _ _
                  ltac:(done) ltac:(done) Hcanvas Hpos) as Hcap.
    unfold Zen3.GRID_ROWS, Zen3.GRID_COLS in Hcap.
    assert (Hne : Zen3.canvas_of s ≠ []).
    { eapply zen_run_pastes; [exact Hrun|]. intros Hnil.
      rewrite Hnil in Hperm. by apply Permutation_nil_l in Hperm. }
    apply Permutation_length in Hperm as Hlen. rewrite Hlen in Hle.
    split.
    + destruct (Zen3.canvas_of s); [done|]. subst l. cbn [length] in *. lia.
    + rewrite Forall_forall. intros p Hp.
      apply list_elem_of_lookup_1 in Hp as [k Hk].
      destruct (Hqueue k p Hk) as [_ Himg].
      rewrite <- Hperm. by eapply list_elem_of_lookup_2.
  - split; [done|].
    pose proof (zen_inv_initial (shuffle t 0 l).1 (Zen3.cell_width sw)
                  (Zen3.cell_height sh) (shuffle t 0 l).2) as H0.
    destruct (zen_while_loop_spec _ _ _ _ _ _ _ H0 Hrun) as [Hno _].
    intros ->. by apply Hno.
Qed.

Lemma create_freeflow_layout_returns_canvas_witness :
  ∃ cv, (Zen3.create_freeflow_layout tape_20 store_one 0%nat 2560 1080 3).1
        = Some (Ok (Some cv)) ∧
        (1 ≤ length cv ≤ Nat.min (length (contents store_one 0%nat)) 224)%nat.
Proof.
  eexists. split; [vm_compute; reflexivity|].
  match goal with |- (1 ≤ length ?cv ≤ _)%nat =>
    exact (proj1 (proj2
      (create_freeflow_layout_returns_canvas tape_20 store_one 0%nat 2560 1080 3%nat
         (Ok (Some cv)) ltac:(vm_compute; reflexivity))))
  end.
Defined.
